(** * Win32 mutex / condition variable / rwlock / thread emulation of
      qemu-thread-win32.c, and the POSIX wrappers of qemu-thread-posix.c

    The C functions are embedded as labelled transition functions: every
    function is a [match] on its program counter, one case per shared-memory
    access or kernel call, in source order.  A thread executes one case at a
    time; between two cases other threads may run.  Kernel objects
    (semaphores, events, critical sections) are modelled by their documented
    Win32 behaviour. *)

From Stdlib Require Import ZArith List Bool Lia.
From stdpp Require Import base list.
Import ListNotations.

Open Scope Z_scope.

(** ** Machine integers *)

(** [LONG] is a 32-bit signed integer; the Interlocked* operations wrap. *)
Definition wrap32 (z : Z) : Z := (z + 2 ^ 31) mod 2 ^ 32 - 2 ^ 31.

Definition LONG_MAX : Z := 2 ^ 31 - 1.

Definition is_long (z : Z) : Prop := - 2 ^ 31 <= z < 2 ^ 31.

(** ** Shared memory of one mutex and the condition variable bound to it *)

(** [m_sema] is the field [mutex->sema] together with the kernel semaphore
    its handle designates: [None] is the NULL handle, [Some n] a semaphore
    holding [n] units.  [c_sema] and [c_event] are the objects created by
    [qemu_cond_init]: a counting semaphore and an auto-reset event. *)
Record world : Type := mkWorld {
  m_count : Z;          (* LONG count *)
  m_owner : Z;          (* owner thread id, 0 when none *)
  m_sema : option Z;    (* HANDLE sema *)
  c_waiters : Z;        (* LONG waiters *)
  c_target : Z;         (* LONG target *)
  c_sema : Z;           (* HANDLE sema: units in the semaphore *)
  c_event : bool        (* HANDLE continue_event: signaled? *)
}.

Definition set_m_count (v : Z) (w : world) : world :=
  mkWorld v (m_owner w) (m_sema w) (c_waiters w) (c_target w) (c_sema w) (c_event w).
Definition set_m_owner (v : Z) (w : world) : world :=
  mkWorld (m_count w) v (m_sema w) (c_waiters w) (c_target w) (c_sema w) (c_event w).
Definition set_m_sema (v : option Z) (w : world) : world :=
  mkWorld (m_count w) (m_owner w) v (c_waiters w) (c_target w) (c_sema w) (c_event w).
Definition set_c_waiters (v : Z) (w : world) : world :=
  mkWorld (m_count w) (m_owner w) (m_sema w) v (c_target w) (c_sema w) (c_event w).
Definition set_c_target (v : Z) (w : world) : world :=
  mkWorld (m_count w) (m_owner w) (m_sema w) (c_waiters w) v (c_sema w) (c_event w).
Definition set_c_sema (v : Z) (w : world) : world :=
  mkWorld (m_count w) (m_owner w) (m_sema w) (c_waiters w) (c_target w) v (c_event w).
Definition set_c_event (v : bool) (w : world) : world :=
  mkWorld (m_count w) (m_owner w) (m_sema w) (c_waiters w) (c_target w) (c_sema w) v.

(** ** Observable actions *)

(** One label per executed case: what the thread just did. *)
Inductive action : Type :=
| a_assert                          (* an assert(...) that passed *)
| a_owner_store (v : Z)             (* mutex->owner = v *)
| a_count_inc (old new : Z)         (* InterlockedIncrement(&mutex->count) *)
| a_count_dec (old new : Z)         (* InterlockedDecrement(&mutex->count) *)
| a_count_cas (old : Z)             (* InterlockedCompareExchange(&mutex->count, 1, 0) *)
| a_sema_test (null : bool)         (* mutex->sema == NULL *)
| a_sema_create                     (* CreateSemaphore(NULL, 0, LONG_MAX, NULL) *)
| a_sema_cas (installed : bool)     (* InterlockedCompareExchangePointer(&mutex->sema, sema, NULL) *)
| a_sema_close                      (* CloseHandle(sema) *)
| a_sema_load (h : Z)               (* return mutex->sema *)
| a_msem_wait (ok : bool)           (* WaitForSingleObject(<mutex semaphore>, INFINITE) *)
| a_msem_release (ok : bool)        (* ReleaseSemaphore(<mutex semaphore>, 1, NULL) *)
| a_waiters_inc (new : Z)           (* cond->waiters++ *)
| a_waiters_dec (new : Z)           (* InterlockedDecrement(&cond->waiters) *)
| a_waiters_test (v : Z)            (* cond->waiters == 0 *)
| a_target_load (v : Z)             (* ... == cond->target *)
| a_target_store (v : Z)            (* cond->target = v *)
| a_csem_wait                       (* WaitForSingleObject(cond->sema, INFINITE) *)
| a_csem_release (n : Z)            (* n units put into cond->sema *)
| a_event_set                       (* SetEvent(cond->continue_event) *)
| a_event_wait.                     (* wait on cond->continue_event satisfied *)

(** Result of one case of a function over shared memory [W] with actions
    [A]: it moves to the next program point, it returns, it cannot proceed in
    this world (a blocking kernel wait), or the process is terminated
    ([assert] failure, [error_exit]). *)
Inductive outcome (W A PC : Type) : Type :=
| Next (a : A) (pc : PC) (w : W)
| Return (a : A) (v : Z) (w : W)
| Blocked
| Fatal.
Arguments Next {W A PC} a pc w.
Arguments Return {W A PC} a v w.
Arguments Blocked {W A PC}.
Arguments Fatal {W A PC}.

(** A callee's outcome seen from the caller: [inj] embeds the callee's
    program points, [k] is the caller's continuation on return. *)
Definition call {W A P Q : Type} (o : outcome W A P) (inj : P -> Q) (k : Z -> Q)
  : outcome W A Q :=
  match o with
  | Next a p w => Next a (inj p) w
  | Return a v w => Next a (k v) w
  | Blocked => Blocked
  | Fatal => Fatal
  end.

(** The last call of a function: the callee's return is the caller's. *)
Definition tail_call {W A P Q : Type} (o : outcome W A P) (inj : P -> Q)
  : outcome W A Q :=
  match o with
  | Next a p w => Next a (inj p) w
  | Return a v w => Return a v w
  | Blocked => Blocked
  | Fatal => Fatal
  end.

(** *** One thread under interference *)

(** What a thread has reached after a number of scheduling slots. *)
Inductive result (W PC : Type) : Type :=
| Returned (v : Z) (w : W)
| Crashed
| Pending (pc : PC) (w : W).
Arguments Returned {W PC} v w.
Arguments Crashed {W PC}.
Arguments Pending {W PC} pc w.

(** [run_with step pc w env] runs one thread from [pc].  Each element of
    [env] is one scheduling slot: first the rest of the system transforms the
    world (an arbitrary function), then the thread executes one case, or
    stays where it is when the case is blocked.  The actions performed are
    collected in order. *)
Fixpoint run_with {W A PC : Type} (step : PC -> W -> outcome W A PC)
    (pc : PC) (w : W) (env : list (W -> W)) : list A * result W PC :=
  match env with
  | [] => ([], Pending pc w)
  | e :: env' =>
      match step pc (e w) with
      | Next a pc' w' =>
          let (tr, r) := run_with step pc' w' env' in (a :: tr, r)
      | Return a v w' => ([a], Returned v w')
      | Blocked => run_with step pc (e w) env'
      | Fatal => ([], Crashed)
      end
  end.

(** No interference at all: [n] slots in which nobody else runs. *)
Definition alone {W : Type} (n : nat) : list (W -> W) := repeat (fun w => w) n.

(** [runs step pc tr v w']: [tr] is the sequence of actions of an execution
    of the function from [pc] to its return of [v] in world [w'], whatever
    the other threads did between two of its cases. *)
Inductive runs {W A PC : Type} (step : PC -> W -> outcome W A PC)
  : PC -> list A -> Z -> W -> Prop :=
| runs_return pc w a v w' :
    step pc w = Return a v w' -> runs step pc [a] v w'
| runs_next pc w a pc' w1 tr v w' :
    step pc w = Next a pc' w1 -> runs step pc' tr v w' ->
    runs step pc (a :: tr) v w'.

(** [history step pc h v]: the same, with the states.  [h] lists, for every
    case executed, the world the case found, its action and the world it
    left; the world one case leaves and the world the next one finds differ
    by what the other threads did in between. *)
Inductive history {W A PC : Type} (step : PC -> W -> outcome W A PC)
  : PC -> list (W * A * W) -> Z -> Prop :=
| history_return pc w a v w' :
    step pc w = Return a v w' -> history step pc [(w, a, w')] v
| history_next pc w a pc' w1 h v :
    step pc w = Next a pc' w1 -> history step pc' h v ->
    history step pc ((w, a, w1) :: h) v.

(** Steps of functions over the mutex and its condition variable. *)
Abbreviation mstep PC := (outcome world action PC).

(** ** Mutex *)

(** [void qemu_mutex_init(QemuMutex *mutex)]: count = 0, sema = NULL; the
    owner field is left as found. *)
Definition qemu_mutex_init (w : world) : world :=
  set_m_sema None (set_m_count 0 w).

(** The field [mutex->sema] of a mutex that has been destroyed: NULL, or a
    handle whose semaphore has been closed.  [CloseHandle] does not touch the
    field, which keeps the stale handle. *)
Inductive stale_handle : Type := H_null | H_closed.

(** [struct QemuMutex] after [qemu_mutex_destroy]. *)
Record destroyed_mutex : Type := mkDestroyed {
  d_count : Z;
  d_owner : Z;
  d_sema : stale_handle
}.

(** [void qemu_mutex_destroy(QemuMutex *mutex)]: [None] when an assertion
    fails.  The function writes to no field. *)
Definition qemu_mutex_destroy (w : world) : option destroyed_mutex :=
  if negb (m_count w =? 0) then None          (* assert(mutex->count == 0) *)
  else if negb (m_owner w =? 0) then None     (* assert(mutex->owner == 0) *)
  else Some (mkDestroyed (m_count w) (m_owner w)
               match m_sema w with
               | Some _ => H_closed           (* if (mutex->sema) CloseHandle(mutex->sema); *)
               | None => H_null
               end).

(** [HANDLE qemu_mutex_semaphore(QemuMutex *mutex)].  The semaphore a thread
    creates is private to it until the compare-exchange installs it; the
    returned handle is 1 for the installed semaphore and 0 for NULL. *)
Inductive sema_pc : Type := MS_test | MS_create | MS_cas | MS_close | MS_load.

Definition qemu_mutex_semaphore (pc : sema_pc) (w : world) : mstep sema_pc :=
  match pc with
  | MS_test =>                       (* if (mutex->sema == NULL) *)
      match m_sema w with
      | None => Next (a_sema_test true) MS_create w
      | Some _ => Next (a_sema_test false) MS_load w
      end
  | MS_create =>                     (* sema = CreateSemaphore(NULL, 0, LONG_MAX, NULL) *)
      Next a_sema_create MS_cas w
  | MS_cas =>                        (* if (!InterlockedCompareExchangePointer(..)) return sema; *)
      match m_sema w with
      | None => Return (a_sema_cas true) 1 (set_m_sema (Some 0) w)
      | Some _ => Next (a_sema_cas false) MS_close w
      end
  | MS_close =>                      (* CloseHandle(sema): somebody beat us to it *)
      Next a_sema_close MS_load w
  | MS_load =>                       (* return mutex->sema; *)
      match m_sema w with
      | None => Return (a_sema_load 0) 0 w
      | Some _ => Return (a_sema_load 1) 1 w
      end
  end.

(** [WaitForSingleObject(h, INFINITE)] on the mutex semaphore: takes one unit
    or blocks; fails at once on an invalid handle. *)
Definition wait_msem {PC : Type} (h : Z) (k : PC) (w : world) : mstep PC :=
  match (if h =? 0 then None else m_sema w) with
  | None => Next (a_msem_wait false) k w
  | Some n => if 0 <? n then Next (a_msem_wait true) k (set_m_sema (Some (n - 1)) w)
              else Blocked
  end.

(** [ReleaseSemaphore(h, 1, NULL)] on the mutex semaphore (result ignored by
    the caller): adds one unit unless the handle is invalid or the maximum
    LONG_MAX would be exceeded. *)
Definition release_msem (h : Z) (w : world) : bool * world :=
  match (if h =? 0 then None else m_sema w) with
  | None => (false, w)
  | Some n => if n + 1 <=? LONG_MAX then (true, set_m_sema (Some (n + 1)) w)
              else (false, w)
  end.

(** [void qemu_mutex_lock(QemuMutex *mutex)] *)
Inductive lock_pc : Type :=
| L_assert | L_inc | L_sema (p : sema_pc) | L_wait (h : Z) | L_owner.

Definition qemu_mutex_lock (self : Z) (pc : lock_pc) (w : world) : mstep lock_pc :=
  match pc with
  | L_assert =>                      (* assert(mutex->owner != GetCurrentThreadId()); *)
      if m_owner w =? self then Fatal else Next a_assert L_inc w
  | L_inc =>                         (* if (InterlockedIncrement(&mutex->count) != 1) *)
      let c := wrap32 (m_count w + 1) in
      Next (a_count_inc (m_count w) c)
           (if c =? 1 then L_owner else L_sema MS_test)
           (set_m_count c w)
  | L_sema p =>                      (* qemu_mutex_semaphore(mutex) *)
      call (qemu_mutex_semaphore p w) L_sema L_wait
  | L_wait h =>                      (* WaitForSingleObject(.., INFINITE); *)
      wait_msem h L_owner w
  | L_owner =>                       (* mutex->owner = GetCurrentThreadId(); *)
      Return (a_owner_store self) 0 (set_m_owner self w)
  end.

(** [int qemu_mutex_trylock(QemuMutex *mutex)] *)
Inductive trylock_pc : Type := T_assert | T_cas | T_owner.

Definition qemu_mutex_trylock (self : Z) (pc : trylock_pc) (w : world) : mstep trylock_pc :=
  match pc with
  | T_assert =>                      (* assert(mutex->owner != GetCurrentThreadId()); *)
      if m_owner w =? self then Fatal else Next a_assert T_cas w
  | T_cas =>                         (* if (InterlockedCompareExchange(&mutex->count, 1, 0) == 0) *)
      if m_count w =? 0
      then Next (a_count_cas (m_count w)) T_owner (set_m_count 1 w)
      else Return (a_count_cas (m_count w)) 1 w            (* return true; *)
  | T_owner =>                       (* mutex->owner = GetCurrentThreadId(); return false; *)
      Return (a_owner_store self) 0 (set_m_owner self w)
  end.

(** [void qemu_mutex_unlock(QemuMutex *mutex)] *)
Inductive unlock_pc : Type :=
| U_assert | U_owner | U_dec | U_sema (p : sema_pc) | U_release (h : Z).

Definition qemu_mutex_unlock (self : Z) (pc : unlock_pc) (w : world) : mstep unlock_pc :=
  match pc with
  | U_assert =>                      (* assert(mutex->owner == GetCurrentThreadId()); *)
      if m_owner w =? self then Next a_assert U_owner w else Fatal
  | U_owner =>                       (* mutex->owner = 0; *)
      Next (a_owner_store 0) U_dec (set_m_owner 0 w)
  | U_dec =>                         (* if (InterlockedDecrement(&mutex->count) != 0) *)
      let c := wrap32 (m_count w - 1) in
      if c =? 0
      then Return (a_count_dec (m_count w) c) 0 (set_m_count c w)
      else Next (a_count_dec (m_count w) c) (U_sema MS_test) (set_m_count c w)
  | U_sema p =>                      (* qemu_mutex_semaphore(mutex) *)
      call (qemu_mutex_semaphore p w) U_sema U_release
  | U_release h =>                   (* ReleaseSemaphore(.., 1, NULL); *)
      let (ok, w') := release_msem h w in
      Return (a_msem_release ok) 0 w'
  end.

(** ** Condition variable *)

(** [void qemu_cond_init(QemuCond *cond, QemuMutex *mutex)]: no waiters, target
    0, an empty semaphore and an unsignaled auto-reset event. *)
Definition qemu_cond_init (w : world) : world :=
  set_c_event false (set_c_sema 0 (set_c_target 0 (set_c_waiters 0 w))).

(** Wait on the auto-reset event [cond->continue_event]: a satisfied wait
    resets it. *)
Definition wait_event {PC : Type} (w : world) : mstep PC :=
  if c_event w then Return a_event_wait 0 (set_c_event false w) else Blocked.

(** [void qemu_cond_signal(QemuCond *cond)] *)
Inductive signal_pc : Type := S_assert | S_test | S_target | S_signal | S_wait.

Definition qemu_cond_signal (self : Z) (pc : signal_pc) (w : world) : mstep signal_pc :=
  match pc with
  | S_assert =>                      (* assert(cond->mutex->owner == GetCurrentThreadId()); *)
      if m_owner w =? self then Next a_assert S_test w else Fatal
  | S_test =>                        (* if (cond->waiters == 0) return; *)
      if c_waiters w =? 0 then Return (a_waiters_test 0) 0 w
      else Next (a_waiters_test (c_waiters w)) S_target w
  | S_target =>                      (* cond->target = cond->waiters - 1; *)
      let t := wrap32 (c_waiters w - 1) in
      Next (a_target_store t) S_signal (set_c_target t w)
  | S_signal =>                      (* SignalObjectAndWait(cond->sema, ..): the signal *)
      if c_sema w + 1 <=? LONG_MAX
      then Next (a_csem_release 1) S_wait (set_c_sema (c_sema w + 1) w)
      else Fatal                     (* WAIT_FAILED: error_exit *)
  | S_wait =>                        (* SignalObjectAndWait(.., cond->continue_event, INFINITE, FALSE): the wait *)
      wait_event w
  end.

(** [void qemu_cond_broadcast(QemuCond *cond)] *)
Inductive broadcast_pc : Type := B_assert | B_test | B_target | B_release | B_wait.

Definition qemu_cond_broadcast (self : Z) (pc : broadcast_pc) (w : world) : mstep broadcast_pc :=
  match pc with
  | B_assert =>                      (* assert(cond->mutex->owner == GetCurrentThreadId()); *)
      if m_owner w =? self then Next a_assert B_test w else Fatal
  | B_test =>                        (* if (cond->waiters == 0) return; *)
      if c_waiters w =? 0 then Return (a_waiters_test 0) 0 w
      else Next (a_waiters_test (c_waiters w)) B_target w
  | B_target =>                      (* cond->target = 0; *)
      Next (a_target_store 0) B_release (set_c_target 0 w)
  | B_release =>                     (* result = ReleaseSemaphore(cond->sema, cond->waiters, NULL); *)
      let n := c_waiters w in
      if (0 <? n) && (c_sema w + n <=? LONG_MAX)
      then Next (a_csem_release n) B_wait (set_c_sema (c_sema w + n) w)
      else Fatal                     (* if (!result) error_exit(..) *)
  | B_wait =>                        (* WaitForSingleObject(cond->continue_event, INFINITE); *)
      wait_event w
  end.

(** [void qemu_cond_wait(QemuCond *cond)].  The test
    [InterlockedDecrement(&cond->waiters) == cond->target] is two accesses to
    shared memory: the atomic decrement ([W_dec]) and the plain read of
    [cond->target] ([W_cmp], which carries the value of the decrement).  C
    leaves the order of evaluation of the two operands open; they are taken
    here from left to right, the order that needs no value kept across the
    decrement. *)
Inductive wait_pc : Type :=
| W_inc | W_unlock (p : unlock_pc) | W_wait | W_dec | W_cmp (v : Z) | W_set
| W_lock (p : lock_pc).

Definition qemu_cond_wait (self : Z) (pc : wait_pc) (w : world) : mstep wait_pc :=
  match pc with
  | W_inc =>                         (* cond->waiters++; *)
      let n := wrap32 (c_waiters w + 1) in
      Next (a_waiters_inc n) (W_unlock U_assert) (set_c_waiters n w)
  | W_unlock p =>                    (* qemu_mutex_unlock(cond->mutex); *)
      call (qemu_mutex_unlock self p w) W_unlock (fun _ => W_wait)
  | W_wait =>                        (* WaitForSingleObject(cond->sema, INFINITE); *)
      if 0 <? c_sema w then Next a_csem_wait W_dec (set_c_sema (c_sema w - 1) w)
      else Blocked
  | W_dec =>                         (* InterlockedDecrement(&cond->waiters) ... *)
      let v := wrap32 (c_waiters w - 1) in
      Next (a_waiters_dec v) (W_cmp v) (set_c_waiters v w)
  | W_cmp v =>                       (* if (... == cond->target) *)
      Next (a_target_load (c_target w))
           (if v =? c_target w then W_set else W_lock L_assert) w
  | W_set =>                         (* SetEvent(cond->continue_event); *)
      Next a_event_set (W_lock L_assert) (set_c_event true w)
  | W_lock p =>                      (* qemu_mutex_lock(cond->mutex); *)
      tail_call (qemu_mutex_lock self p w) W_lock
  end.

(** What thread [self] may assume of the other threads between two of its
    own cases: they never store [self] into the owner field, and never
    overwrite the owner field while it holds [self]. *)
Definition respects_owner (self : Z) (e : world -> world) : Prop :=
  forall w, m_owner (e w) = self <-> m_owner w = self.

(** ** The process: N threads sharing the mutex and the condition variable *)

(** The functions a client thread may call. *)
Inductive api : Type :=
| Lock | Trylock | Unlock | CondWait | CondSignal | CondBroadcast.

Inductive pc : Type :=
| P_lock (p : lock_pc)
| P_trylock (p : trylock_pc)
| P_unlock (p : unlock_pc)
| P_wait (p : wait_pc)
| P_signal (p : signal_pc)
| P_broadcast (p : broadcast_pc).

Definition entry (f : api) : pc :=
  match f with
  | Lock => P_lock L_assert
  | Trylock => P_trylock T_assert
  | Unlock => P_unlock U_assert
  | CondWait => P_wait W_inc
  | CondSignal => P_signal S_assert
  | CondBroadcast => P_broadcast B_assert
  end.

Definition thread_step (self : Z) (p : pc) (w : world) : mstep pc :=
  match p with
  | P_lock q => tail_call (qemu_mutex_lock self q w) P_lock
  | P_trylock q => tail_call (qemu_mutex_trylock self q w) P_trylock
  | P_unlock q => tail_call (qemu_mutex_unlock self q w) P_unlock
  | P_wait q => tail_call (qemu_cond_wait self q w) P_wait
  | P_signal q => tail_call (qemu_cond_signal self q w) P_signal
  | P_broadcast q => tail_call (qemu_cond_broadcast self q w) P_broadcast
  end.

(** A thread is in client code between two calls ([Idle]) or inside a call. *)
Inductive thread : Type := Idle | Running (p : pc).

(** Thread ids as [GetCurrentThreadId] gives them: never 0.  Thread number
    [i] of the pool has id [i + 1]. *)
Definition tid (i : nat) : Z := Z.of_nat i + 1.

(** The process is alive with its shared memory and threads, or terminated
    by [abort()]. *)
Inductive sys : Type :=
| Live (w : world) (ts : list thread)
| Dead.

(** What the scheduler lets thread [i] do: enter a call (its client decides
    which), or execute the next case of the call it is in. *)
Inductive choice : Type := Enter (f : api) | Step.

Definition sys_step (i : nat) (c : choice) (s : sys) : option sys :=
  match s with
  | Dead => None
  | Live w ts =>
      match ts !! i, c with
      | Some Idle, Enter f => Some (Live w (<[i := Running (entry f)]> ts))
      | Some (Running p), Step =>
          match thread_step (tid i) p w with
          | Next _ p' w' => Some (Live w' (<[i := Running p']> ts))
          | Return _ _ w' => Some (Live w' (<[i := Idle]> ts))
          | Blocked => None
          | Fatal => Some Dead
          end
      | _, _ => None
      end
  end.

(** Statically allocated, zero-filled storage, then [qemu_mutex_init] and
    [qemu_cond_init]. *)
Definition zero_world : world := mkWorld 0 0 None 0 0 0 false.

Definition init_world : world := qemu_cond_init (qemu_mutex_init zero_world).

Definition init_sys (n : nat) : sys := Live init_world (repeat Idle n).

(** Interleavings: any thread may move at any time. *)
Inductive reachable (n : nat) : sys -> Prop :=
| reach_init : reachable n (init_sys n)
| reach_step s i c s' :
    reachable n s -> sys_step i c s = Some s' -> reachable n s'.

(** A schedule is a list of scheduler decisions; [run_schedule] follows it
    and fails when a decision names a thread that cannot move. *)
Fixpoint run_schedule (sched : list (nat * choice)) (s : sys) : option sys :=
  match sched with
  | [] => Some s
  | (i, c) :: rest =>
      match sys_step i c s with
      | Some s' => run_schedule rest s'
      | None => None
      end
  end.

(** [i] enters [f] and then executes [k] cases of it. *)
Definition does (i : nat) (f : api) (k : nat) : list (nat * choice) :=
  (i, Enter f) :: repeat (i, Step) k.

Definition steps (i : nat) (k : nat) : list (nat * choice) := repeat (i, Step) k.

(** ** Who holds the mutex *)

(** Where a thread stands with respect to the counter and the lock:
    - [Out]: it is not counted in [mutex->count] and does not have the lock;
    - [Queued]: its increment is in [mutex->count] and it is on its way to,
      or in, the semaphore wait;
    - [Holding]: its increment is in [mutex->count] and it has the lock (from
      the successful increment, compare-exchange or semaphore wait up to its
      decrement in [qemu_mutex_unlock]);
    - [Handing]: it has decremented to a non-zero value and still has to
      release the semaphore for the next holder. *)
Inductive phase : Type := Out | Queued | Holding | Handing.

(** At a program point outside the lock and unlock bodies the thread has the
    lock exactly when the owner field names it. *)
Definition by_owner (own : bool) : phase := if own then Holding else Out.

Definition lock_phase (own : bool) (p : lock_pc) : phase :=
  match p with
  | L_assert => by_owner own
  | L_inc => Out
  | L_sema _ | L_wait _ => Queued
  | L_owner => Holding
  end.

Definition trylock_phase (own : bool) (p : trylock_pc) : phase :=
  match p with
  | T_assert => by_owner own
  | T_cas => Out
  | T_owner => Holding
  end.

Definition unlock_phase (own : bool) (p : unlock_pc) : phase :=
  match p with
  | U_assert => by_owner own
  | U_owner | U_dec => Holding
  | U_sema _ | U_release _ => Handing
  end.

Definition wait_phase (own : bool) (p : wait_pc) : phase :=
  match p with
  | W_inc => by_owner own
  | W_unlock q => unlock_phase own q
  | W_wait | W_dec | W_cmp _ | W_set => Out
  | W_lock q => lock_phase own q
  end.

Definition thread_phase (own : bool) (th : thread) : phase :=
  match th with
  | Idle => by_owner own
  | Running (P_lock q) => lock_phase own q
  | Running (P_trylock q) => trylock_phase own q
  | Running (P_unlock q) => unlock_phase own q
  | Running (P_wait q) => wait_phase own q
  | Running (P_signal _) => by_owner own
  | Running (P_broadcast _) => by_owner own
  end.

Definition own (w : world) (self : Z) : bool := m_owner w =? self.

(** Thread number [i], in state [th], has the lock in world [w]. *)
Definition holds (w : world) (i : nat) (th : thread) : Prop :=
  thread_phase (own w (tid i)) th = Holding.

(** *** The invariant *)

Definition counted (ph : phase) : Z :=
  match ph with Queued | Holding => 1 | _ => 0 end.

Definition token (ph : phase) : Z :=
  match ph with Holding | Handing => 1 | _ => 0 end.

Definition has_sema (w : world) : bool :=
  match m_sema w with Some _ => true | None => false end.

Definition units (w : world) : Z :=
  match m_sema w with Some n => n | None => 0 end.

(** What is known of the owner field and of the semaphore handle at each
    program point of thread [self]. *)
Definition sema_req (hs : bool) (p : sema_pc) : bool :=
  match p with MS_close | MS_load => hs | _ => true end.

Definition lock_req (own hs : bool) (p : lock_pc) : bool :=
  match p with
  | L_assert | L_owner => true
  | L_inc => negb own
  | L_sema q => negb own && sema_req hs q
  | L_wait h => negb own && negb (h =? 0) && hs
  end.

Definition trylock_req (own : bool) (p : trylock_pc) : bool :=
  match p with
  | T_assert | T_owner => true
  | T_cas => negb own
  end.

Definition unlock_req (own hs : bool) (p : unlock_pc) : bool :=
  match p with
  | U_assert => true
  | U_owner => own
  | U_dec => negb own
  | U_sema q => negb own && sema_req hs q
  | U_release h => negb own && negb (h =? 0) && hs
  end.

Definition wait_req (own hs : bool) (p : wait_pc) : bool :=
  match p with
  | W_inc => true
  | W_unlock q => unlock_req own hs q
  | W_wait | W_dec | W_cmp _ | W_set => negb own
  | W_lock q => lock_req own hs q
  end.

Definition thread_req (own hs : bool) (th : thread) : bool :=
  match th with
  | Idle => true
  | Running (P_lock q) => lock_req own hs q
  | Running (P_trylock q) => trylock_req own q
  | Running (P_unlock q) => unlock_req own hs q
  | Running (P_wait q) => wait_req own hs q
  | Running (P_signal _) => true
  | Running (P_broadcast _) => true
  end.

(** Sum of a per-thread weight over the pool; the thread at position [k + i]
    has id [tid (k + i)]. *)
Fixpoint wsum (g : Z -> thread -> Z) (k : nat) (ts : list thread) : Z :=
  match ts with
  | [] => 0
  | th :: r => g (tid k) th + wsum g (S k) r
  end.

Definition counted_in (w : world) (self : Z) (th : thread) : Z :=
  counted (thread_phase (own w self) th).

Definition token_in (w : world) (self : Z) (th : thread) : Z :=
  token (thread_phase (own w self) th).

Record mutex_inv (n : nat) (w : world) (ts : list thread) : Prop := {
  inv_len : length ts = n;
  inv_req : forall i th, ts !! i = Some th ->
            thread_req (own w (tid i)) (has_sema w) th = true;
  inv_count : m_count w = wrap32 (wsum (counted_in w) 0 ts);
  inv_units : 0 <= units w;
  inv_token : wsum (token_in w) 0 ts + units w
              = if wsum (counted_in w) 0 ts =? 0 then 0 else 1
}.

Definition sys_inv (n : nat) (s : sys) : Prop :=
  match s with
  | Live w ts => mutex_inv n w ts
  | Dead => True
  end.

(** The three ways a case may touch the owner field: not at all; a thread
    that has the lock writes its own id; the named owner clears it. *)
Definition owner_discipline (w w' : world) (j : nat) (th : thread) : Prop :=
  m_owner w' = m_owner w
  \/ (m_owner w' = tid j /\ token_in w (tid j) th = 1)
  \/ (m_owner w' = 0 /\ m_owner w = tid j).

(** What thread [self] knows of the owner field at each program point of
    [qemu_cond_wait] entered with the mutex held: it is the owner up to the
    assertion of the unlock, and is not from the clearing of the owner field
    up to the assertion of the lock. *)
Definition wait_owner_ok (self : Z) (p : wait_pc) (w : world) : Prop :=
  match p with
  | W_inc | W_unlock U_assert => m_owner w = self
  | W_unlock U_owner => True
  | W_lock L_assert => m_owner w <> self
  | W_lock _ => True
  | _ => m_owner w <> self
  end.


(** ** Executions with their states *)

(** The histories of complete executions, case by case; [w], [w'] in an
    entry [(w, a, w')] are the world before and after the case. *)
Abbreviation entries := (list (world * action * world)).

(** The handle [return mutex->sema] gives: 1 for the installed semaphore, 0
    for NULL. *)
Definition handle_of (w : world) : Z :=
  match m_sema w with Some _ => 1 | None => 0 end.

(** [qemu_mutex_semaphore]: a handle was installed already; or the caller
    saw NULL, created a semaphore and installed it; or it created one,
    found another installed meanwhile, closed its own and loaded the
    installed one. *)
Definition semaphore_history (h : entries) (v : Z) : Prop :=
  (exists w0 w1,
      m_sema w0 <> None /\ v = handle_of w1
      /\ h = [(w0, a_sema_test false, w0); (w1, a_sema_load v, w1)])
  \/ (exists w0 w1 w2,
         m_sema w0 = None /\ m_sema w2 = None /\ v = 1
         /\ h = [(w0, a_sema_test true, w0); (w1, a_sema_create, w1);
                 (w2, a_sema_cas true, set_m_sema (Some 0) w2)])
  \/ (exists w0 w1 w2 w3 w4,
         m_sema w0 = None /\ m_sema w2 <> None /\ v = handle_of w4
         /\ h = [(w0, a_sema_test true, w0); (w1, a_sema_create, w1);
                 (w2, a_sema_cas false, w2); (w3, a_sema_close, w3);
                 (w4, a_sema_load v, w4)]).

(** What a wait on handle [h] that has gone through did: it took one unit
    of the semaphore, which held one; or it failed, on a handle that
    designates no semaphore, and changed nothing. *)
Definition unit_taken (h : Z) (w : world) (ok : bool) (w' : world) : Prop :=
  if ok
  then h <> 0 /\ exists n, m_sema w = Some n /\ 0 < n
                           /\ w' = set_m_sema (Some (n - 1)) w
  else (h = 0 \/ m_sema w = None) /\ w' = w.

(** What [ReleaseSemaphore(h, 1, NULL)] did: it added one unit; or it
    failed, on a handle that designates no semaphore or on a full
    semaphore, and changed nothing. *)
Definition unit_released (h : Z) (w : world) (ok : bool) (w' : world) : Prop :=
  if ok
  then h <> 0 /\ exists n, m_sema w = Some n /\ n < LONG_MAX
                           /\ w' = set_m_sema (Some (n + 1)) w
  else (h = 0 \/ m_sema w = None \/ exists n, m_sema w = Some n /\ LONG_MAX <= n)
       /\ w' = w.

(** [qemu_mutex_lock]: the assertion passes; the counter is incremented;
    when the incremented value is 1 the owner is stored at once; otherwise
    [qemu_mutex_semaphore] runs, the wait on its handle goes through, and
    the owner is stored. *)
Definition lock_history (self : Z) (h : entries) : Prop :=
  exists w0 w1 w2,
    m_owner w0 <> self
    /\ let c := wrap32 (m_count w1 + 1) in
       let front := [(w0, a_assert, w0);
                     (w1, a_count_inc (m_count w1) c, set_m_count c w1)] in
       let back := [(w2, a_owner_store self, set_m_owner self w2)] in
       (c = 1 /\ h = front ++ back)
       \/ (c <> 1 /\ exists hs hv w3 ok w3',
              semaphore_history hs hv /\ unit_taken hv w3 ok w3'
              /\ h = front ++ hs ++ [(w3, a_msem_wait ok, w3')] ++ back).

(** [qemu_mutex_unlock]: the assertion passes; the owner is cleared; the
    counter is decremented; when the decremented value is not 0,
    [qemu_mutex_semaphore] runs and one unit is released on its handle. *)
Definition unlock_history (self : Z) (h : entries) : Prop :=
  exists w0 w1 w2,
    m_owner w0 = self
    /\ let c := wrap32 (m_count w2 - 1) in
       let front := [(w0, a_assert, w0);
                     (w1, a_owner_store 0, set_m_owner 0 w1);
                     (w2, a_count_dec (m_count w2) c, set_m_count c w2)] in
       (c = 0 /\ h = front)
       \/ (c <> 0 /\ exists hs hv w3 ok w3',
              semaphore_history hs hv /\ unit_released hv w3 ok w3'
              /\ h = front ++ hs ++ [(w3, a_msem_release ok, w3')]).

(** [qemu_cond_wait]: [waiters] is incremented; a complete
    [qemu_mutex_unlock]; the wait on [cond->sema] takes one unit of a
    semaphore that holds one; [waiters] is decremented, giving [d];
    [cond->target] is read, and the event is set exactly when [d] is the
    value read; a complete [qemu_mutex_lock]. *)
Definition wait_history (self : Z) (h : entries) : Prop :=
  exists w0 hu w1 w2 w3 hset hl,
    let n := wrap32 (c_waiters w0 + 1) in
    let d := wrap32 (c_waiters w2 - 1) in
    unlock_history self hu /\ lock_history self hl
    /\ 0 < c_sema w1
    /\ ((d = c_target w3
         /\ exists w4, hset = [(w4, a_event_set, set_c_event true w4)])
        \/ (d <> c_target w3 /\ hset = []))
    /\ h = [(w0, a_waiters_inc n, set_c_waiters n w0)] ++ hu
           ++ [(w1, a_csem_wait, set_c_sema (c_sema w1 - 1) w1);
               (w2, a_waiters_dec d, set_c_waiters d w2);
               (w3, a_target_load (c_target w3), w3)]
           ++ hset ++ hl.

(** The handle a thread of the pool passes to the wait of
    [qemu_mutex_lock], and to the release of [qemu_mutex_unlock], called
    directly or from [qemu_cond_wait]. *)
Definition at_lock_wait (p : pc) : option Z :=
  match p with
  | P_lock (L_wait h) | P_wait (W_lock (L_wait h)) => Some h
  | _ => None
  end.

Definition at_release (p : pc) : option Z :=
  match p with
  | P_unlock (U_release h) | P_wait (W_unlock (U_release h)) => Some h
  | _ => None
  end.

(** ** Two schedules of five threads *)

(** Thread 0 signals and broadcasts; threads 1 and 2 wait first, threads 3
    and 4 wait later. *)

(** A thread takes the mutex and calls [qemu_cond_wait] up to its wait on
    [cond->sema]. *)
Definition goes_to_wait (i : nat) : list (nat * choice) :=
  does i Lock 3 ++ does i CondWait 4.

(** Threads 1 and 2 wait; thread 0 broadcasts; thread 1 takes its unit and
    decrements [waiters] to 1, and is preempted before it reads
    [cond->target]; thread 2 decrements to 0 and sets the event; the
    broadcast returns and thread 0 unlocks. *)
Definition broadcast_round : list (nat * choice) :=
  goes_to_wait 1 ++ goes_to_wait 2 ++
  does 0 Lock 3 ++ does 0 CondBroadcast 4 ++
  steps 1 2 ++ steps 2 4 ++ steps 0 1 ++ does 0 Unlock 3.

(** Threads 3 and 4 wait; thread 0 signals: target becomes 1, one unit is
    released, and the signal waits for the event. *)
Definition signal_waiting : list (nat * choice) :=
  broadcast_round ++
  goes_to_wait 3 ++ goes_to_wait 4 ++
  does 0 Lock 3 ++ does 0 CondSignal 4.

(** Thread 1 now reads [cond->target], finds its old value 1 there and sets
    the event; the signal returns. *)
Definition early_signal : list (nat * choice) :=
  signal_waiting ++ steps 1 2 ++ steps 0 1.

(** The schedule [signal_waiting] in two parts.  After the first, thread 1
    has taken its unit of the broadcast and decremented [waiters] to 1 while
    the target is 0, and has not read [cond->target] yet.  In the second the
    broadcast completes and thread 0 signals for threads 3 and 4. *)
Definition decremented_early : list (nat * choice) :=
  goes_to_wait 1 ++ goes_to_wait 2 ++
  does 0 Lock 3 ++ does 0 CondBroadcast 4 ++ steps 1 2.

Definition later_signal : list (nat * choice) :=
  steps 2 4 ++ steps 0 1 ++ does 0 Unlock 3 ++
  goes_to_wait 3 ++ goes_to_wait 4 ++
  does 0 Lock 3 ++ does 0 CondSignal 4.

(** Thread 0 unlocks; thread 3 takes the unit of the signal, decrements and
    sets the event, which nobody is waiting for.  Thread 0 broadcasts for the
    one waiter left (thread 4): the stale event lets the broadcast return at
    once. *)
Definition broadcast_returned : list (nat * choice) :=
  early_signal ++
  does 0 Unlock 3 ++ steps 3 4 ++
  does 0 Lock 3 ++ does 0 CondBroadcast 5.

(** Thread 0 unlocks, locks again and calls [qemu_cond_wait]: it registers
    after the broadcast returned, and takes the broadcast's unit. *)
Definition stolen_broadcast : list (nat * choice) :=
  broadcast_returned ++
  does 0 Unlock 3 ++ does 0 Lock 3 ++ does 0 CondWait 5.

(** ** Reader-writer lock *)

Module RW.

(** A Win32 CRITICAL_SECTION: its owning thread (0 when free) and its
    recursion depth.  Entering is recursive for the owner and blocks for
    anybody else; leaving a section one does not own is an error. *)
Record critical_section : Type := mkCS { cs_owner : Z; cs_depth : Z }.

Definition InitializeCriticalSection : critical_section := mkCS 0 0.

Definition EnterCriticalSection (self : Z) (c : critical_section)
  : option critical_section :=
  if cs_owner c =? 0 then Some (mkCS self 1)
  else if cs_owner c =? self then Some (mkCS self (cs_depth c + 1))
  else None.

Definition LeaveCriticalSection (self : Z) (c : critical_section)
  : option critical_section :=
  if cs_owner c =? self
  then Some (if cs_depth c - 1 =? 0 then mkCS 0 0 else mkCS self (cs_depth c - 1))
  else None.

(** [struct QemuRWMutex]; [noReaders] is a manual-reset event. *)
Record rwmutex : Type := mkRW {
  readerCount : Z;
  writer : Z;                          (* writer thread id, 0 (NULL) when none *)
  readerCountLock : critical_section;
  writerLock : critical_section;
  noReaders : bool                     (* signaled? *)
}.

Definition set_readerCount (v : Z) (m : rwmutex) : rwmutex :=
  mkRW v (writer m) (readerCountLock m) (writerLock m) (noReaders m).
Definition set_writer (v : Z) (m : rwmutex) : rwmutex :=
  mkRW (readerCount m) v (readerCountLock m) (writerLock m) (noReaders m).
Definition set_readerCountLock (v : critical_section) (m : rwmutex) : rwmutex :=
  mkRW (readerCount m) (writer m) v (writerLock m) (noReaders m).
Definition set_writerLock (v : critical_section) (m : rwmutex) : rwmutex :=
  mkRW (readerCount m) (writer m) (readerCountLock m) v (noReaders m).
Definition set_noReaders (v : bool) (m : rwmutex) : rwmutex :=
  mkRW (readerCount m) (writer m) (readerCountLock m) (writerLock m) v.

Inductive action : Type :=
| a_assert                       (* an assert(...) that passed *)
| a_enter_writerLock
| a_leave_writerLock
| a_enter_readerCountLock
| a_leave_readerCountLock
| a_count_inc (new : Z)          (* ++mutex->readerCount *)
| a_count_dec (new : Z)          (* --mutex->readerCount *)
| a_count_test (v : Z)           (* mutex->readerCount > 0 *)
| a_writer_test (mine : bool)    (* mutex->writer != GetCurrentThreadId() *)
| a_writer_store (v : Z)         (* mutex->writer = v *)
| a_reset_event                  (* ResetEvent(mutex->noReaders) *)
| a_set_event                    (* SetEvent(mutex->noReaders) *)
| a_wait_event.                  (* WaitForSingleObject(mutex->noReaders, INFINITE) *)

Abbreviation rstep PC := (outcome rwmutex action PC).

(** [void qemu_rwmutex_init(QemuRWMutex *mutex)]: the two critical sections
    and the event, created signaled; [readerCount] and [writer] are left as
    found. *)
Definition qemu_rwmutex_init (m : rwmutex) : rwmutex :=
  set_noReaders true
    (set_writerLock InitializeCriticalSection
       (set_readerCountLock InitializeCriticalSection m)).

Definition enter_writerLock {PC : Type} (self : Z) (k : PC) (m : rwmutex) : rstep PC :=
  match EnterCriticalSection self (writerLock m) with
  | Some c => Next a_enter_writerLock k (set_writerLock c m)
  | None => Blocked
  end.

Definition enter_readerCountLock {PC : Type} (self : Z) (k : PC) (m : rwmutex) : rstep PC :=
  match EnterCriticalSection self (readerCountLock m) with
  | Some c => Next a_enter_readerCountLock k (set_readerCountLock c m)
  | None => Blocked
  end.

(** [void qemu_rwmutex_rdlock(QemuRWMutex *mutex)] *)
Inductive rdlock_pc : Type :=
| RD_assert | RD_enter_w | RD_enter_rc | RD_inc | RD_reset | RD_leave_rc | RD_leave_w.

Definition qemu_rwmutex_rdlock (self : Z) (pc : rdlock_pc) (m : rwmutex) : rstep rdlock_pc :=
  match pc with
  | RD_assert =>                     (* assert(mutex->writer != GetCurrentThreadId()); *)
      if writer m =? self then Fatal else Next a_assert RD_enter_w m
  | RD_enter_w =>                    (* EnterCriticalSection(&mutex->writerLock); *)
      enter_writerLock self RD_enter_rc m
  | RD_enter_rc =>                   (* EnterCriticalSection(&mutex->readerCountLock); *)
      enter_readerCountLock self RD_inc m
  | RD_inc =>                        (* if (++mutex->readerCount == 1) *)
      let n := wrap32 (readerCount m + 1) in
      Next (a_count_inc n) (if n =? 1 then RD_reset else RD_leave_rc)
           (set_readerCount n m)
  | RD_reset =>                      (* ResetEvent(mutex->noReaders); *)
      Next a_reset_event RD_leave_rc (set_noReaders false m)
  | RD_leave_rc =>                   (* LeaveCriticalSection(&mutex->readerCountLock); *)
      match LeaveCriticalSection self (readerCountLock m) with
      | Some c => Next a_leave_readerCountLock RD_leave_w (set_readerCountLock c m)
      | None => Fatal
      end
  | RD_leave_w =>                    (* LeaveCriticalSection(&mutex->writerLock); *)
      match LeaveCriticalSection self (writerLock m) with
      | Some c => Return a_leave_writerLock 0 (set_writerLock c m)
      | None => Fatal
      end
  end.

(** [int qemu_rwmutex_wrlock(QemuRWMutex *mutex)]; the function has no
    [return] statement, its value is taken as 0. *)
Inductive wrlock_pc : Type := WR_enter | WR_test | WR_wait | WR_assert | WR_store.

Definition qemu_rwmutex_wrlock (self : Z) (pc : wrlock_pc) (m : rwmutex) : rstep wrlock_pc :=
  match pc with
  | WR_enter =>                      (* EnterCriticalSection(&mutex->writerLock); *)
      enter_writerLock self WR_test m
  | WR_test =>                       (* if (mutex->readerCount > 0) *)
      Next (a_count_test (readerCount m))
           (if 0 <? readerCount m then WR_wait else WR_assert) m
  | WR_wait =>                       (* WaitForSingleObject(mutex->noReaders, INFINITE); *)
      if noReaders m then Next a_wait_event WR_assert m else Blocked
  | WR_assert =>                     (* assert(mutex->writer == NULL); *)
      if writer m =? 0 then Next a_assert WR_store m else Fatal
  | WR_store =>                      (* mutex->writer = GetCurrentThreadId(); *)
      Return (a_writer_store self) 0 (set_writer self m)
  end.

(** [void qemu_rwmutex_unlock(QemuRWMutex *mutex)] *)
Inductive unlock_pc : Type :=
| UN_test | UN_assert | UN_enter | UN_dec | UN_set | UN_leave
| UN_clear | UN_leave_w.

Definition qemu_rwmutex_unlock (self : Z) (pc : unlock_pc) (m : rwmutex) : rstep unlock_pc :=
  match pc with
  | UN_test =>                       (* if (mutex->writer != GetCurrentThreadId()) *)
      if writer m =? self then Next (a_writer_test true) UN_clear m
      else Next (a_writer_test false) UN_assert m
  | UN_assert =>                     (* assert (mutex->readerCount > 0); *)
      if 0 <? readerCount m then Next a_assert UN_enter m else Fatal
  | UN_enter =>                      (* EnterCriticalSection(&mutex->readerCountLock); *)
      enter_readerCountLock self UN_dec m
  | UN_dec =>                        (* if (--mutex->readerCount == 0) *)
      let n := wrap32 (readerCount m - 1) in
      Next (a_count_dec n) (if n =? 0 then UN_set else UN_leave)
           (set_readerCount n m)
  | UN_set =>                        (* SetEvent(mutex->noReaders); *)
      Next a_set_event UN_leave (set_noReaders true m)
  | UN_leave =>                      (* LeaveCriticalSection(&mutex->readerCountLock); *)
      match LeaveCriticalSection self (readerCountLock m) with
      | Some c => Return a_leave_readerCountLock 0 (set_readerCountLock c m)
      | None => Fatal
      end
  | UN_clear =>                      (* mutex->writer = NULL; *)
      Next (a_writer_store 0) UN_leave_w (set_writer 0 m)
  | UN_leave_w =>                    (* LeaveCriticalSection(&mutex->writerLock); *)
      match LeaveCriticalSection self (writerLock m) with
      | Some c => Return a_leave_writerLock 0 (set_writerLock c m)
      | None => Fatal
      end
  end.

(** The three operations, for statements about all of them. *)
Inductive op : Type := Rdlock | Wrlock | Unlock.

Inductive pc : Type :=
| P_rdlock (p : rdlock_pc) | P_wrlock (p : wrlock_pc) | P_unlock (p : unlock_pc).

Definition entry (o : op) : pc :=
  match o with
  | Rdlock => P_rdlock RD_assert
  | Wrlock => P_wrlock WR_enter
  | Unlock => P_unlock UN_test
  end.

Definition op_step (self : Z) (p : pc) (m : rwmutex) : rstep pc :=
  match p with
  | P_rdlock q => tail_call (qemu_rwmutex_rdlock self q m) P_rdlock
  | P_wrlock q => tail_call (qemu_rwmutex_wrlock self q m) P_wrlock
  | P_unlock q => tail_call (qemu_rwmutex_unlock self q m) P_unlock
  end.

(** Zero-filled storage for the structure. *)
Definition zeroed : rwmutex := mkRW 0 0 (mkCS 0 0) (mkCS 0 0) false.

(** The state of the lock between operations: the recorded writer is the
    thread that holds the writer guard (none when the guard is free), the
    reader-count guard is free, and readers present means the event is
    unset. *)
Definition write_held (m : rwmutex) : Prop := cs_owner (writerLock m) <> 0.

Record rw_inv (m : rwmutex) : Prop := {
  inv_writer : writer m = cs_owner (writerLock m);
  inv_writer_depth : cs_depth (writerLock m) = if writer m =? 0 then 0 else 1;
  inv_count_guard : readerCountLock m = mkCS 0 0;
  inv_count_long : is_long (readerCount m);
  inv_event : 0 < readerCount m -> noReaders m = false
}.

(** What holds at each program point of an operation of thread [self] that
    started in a state satisfying [rw_inv] and runs with no other thread
    moving. *)
Definition count_ok (m : rwmutex) : Prop :=
  is_long (readerCount m) /\ (0 < readerCount m -> noReaders m = false).

Definition writer_ok (m : rwmutex) : Prop :=
  writer m = cs_owner (writerLock m)
  /\ cs_depth (writerLock m) = if writer m =? 0 then 0 else 1.

Definition rdlock_at (self : Z) (p : rdlock_pc) (m : rwmutex) : Prop :=
  match p with
  | RD_assert => rw_inv m
  | RD_enter_w => rw_inv m /\ writer m <> self
  | RD_enter_rc | RD_leave_w =>
      writer m = 0 /\ writerLock m = mkCS self 1
      /\ readerCountLock m = mkCS 0 0 /\ count_ok m
  | RD_inc | RD_leave_rc =>
      writer m = 0 /\ writerLock m = mkCS self 1
      /\ readerCountLock m = mkCS self 1 /\ count_ok m
  | RD_reset =>
      writer m = 0 /\ writerLock m = mkCS self 1
      /\ readerCountLock m = mkCS self 1 /\ readerCount m = 1
  end.

Definition wrlock_at (self : Z) (p : wrlock_pc) (m : rwmutex) : Prop :=
  match p with
  | WR_enter => rw_inv m
  | WR_test | WR_wait | WR_assert =>
      ((writer m = 0 /\ writerLock m = mkCS self 1)
       \/ (writer m = self /\ writerLock m = mkCS self 2))
      /\ readerCountLock m = mkCS 0 0 /\ count_ok m
  | WR_store =>
      writer m = 0 /\ writerLock m = mkCS self 1
      /\ readerCountLock m = mkCS 0 0 /\ count_ok m
  end.

Definition unlock_at (self : Z) (p : unlock_pc) (m : rwmutex) : Prop :=
  match p with
  | UN_test => rw_inv m
  | UN_assert => rw_inv m /\ writer m <> self
  | UN_enter => rw_inv m /\ 0 < readerCount m
  | UN_dec =>
      writer_ok m /\ readerCountLock m = mkCS self 1
      /\ count_ok m /\ 0 < readerCount m
  | UN_set =>
      writer_ok m /\ readerCountLock m = mkCS self 1 /\ readerCount m = 0
  | UN_leave =>
      writer_ok m /\ readerCountLock m = mkCS self 1 /\ count_ok m
  | UN_clear => rw_inv m /\ writer m = self
  | UN_leave_w =>
      writer m = 0 /\ writerLock m = mkCS self 1
      /\ readerCountLock m = mkCS 0 0 /\ count_ok m
  end.

Definition op_at (self : Z) (p : pc) (m : rwmutex) : Prop :=
  match p with
  | P_rdlock q => rdlock_at self q m
  | P_wrlock q => wrlock_at self q m
  | P_unlock q => unlock_at self q m
  end.

(** *** The process: N threads sharing one reader-writer lock *)

Inductive thread : Type := Idle | Running (p : pc).

Inductive sys : Type :=
| Live (m : rwmutex) (ts : list thread)
| Dead.

Inductive choice : Type := Enter (o : op) | Step.

Definition sys_step (i : nat) (c : choice) (s : sys) : option sys :=
  match s with
  | Dead => None
  | Live m ts =>
      match ts !! i, c with
      | Some Idle, Enter o => Some (Live m (<[i := Running (entry o)]> ts))
      | Some (Running p), Step =>
          match op_step (tid i) p m with
          | Next _ p' m' => Some (Live m' (<[i := Running p']> ts))
          | Return _ _ m' => Some (Live m' (<[i := Idle]> ts))
          | Blocked => None
          | Fatal => Some Dead
          end
      | _, _ => None
      end
  end.

(** Zero-filled storage, then [qemu_rwmutex_init]. *)
Definition init_sys (n : nat) : sys :=
  Live (qemu_rwmutex_init zeroed) (repeat Idle n).

Inductive reachable (n : nat) : sys -> Prop :=
| reach_init : reachable n (init_sys n)
| reach_step s i c s' :
    reachable n s -> sys_step i c s = Some s' -> reachable n s'.

Fixpoint run_schedule (sched : list (nat * choice)) (s : sys) : option sys :=
  match sched with
  | [] => Some s
  | (i, c) :: rest =>
      match sys_step i c s with
      | Some s' => run_schedule rest s'
      | None => None
      end
  end.

Definition does (i : nat) (o : op) (k : nat) : list (nat * choice) :=
  (i, Enter o) :: repeat (i, Step) k.

Definition steps (i : nat) (k : nat) : list (nat * choice) := repeat (i, Step) k.

(** Where thread [self] stands with respect to the writer guard: it does not
    own it; it owns it on the way in or out, with no writer recorded; it
    holds the write side; it holds the write side and has entered the guard
    a second time, in a second [qemu_rwmutex_wrlock]. *)
Definition w_away (self : Z) (m : rwmutex) : Prop :=
  cs_owner (writerLock m) <> self.
Definition w_passing (self : Z) (m : rwmutex) : Prop :=
  writerLock m = mkCS self 1 /\ writer m = 0.
Definition w_holding (self : Z) (m : rwmutex) : Prop :=
  writerLock m = mkCS self 1 /\ writer m = self.
Definition w_again (self : Z) (m : rwmutex) : Prop :=
  writerLock m = mkCS self 2 /\ writer m = self.

(** The same for the reader-count guard. *)
Definition r_away (self : Z) (m : rwmutex) : Prop :=
  cs_owner (readerCountLock m) <> self.
Definition r_inside (self : Z) (m : rwmutex) : Prop :=
  readerCountLock m = mkCS self 1.

Definition event_ok (m : rwmutex) : Prop :=
  0 < readerCount m -> noReaders m = false.

(** What holds of the shared structure when thread [self] is at a given
    program point. *)
Definition thread_ok (self : Z) (th : thread) (m : rwmutex) : Prop :=
  match th with
  | Idle
  | Running (P_rdlock RD_assert)
  | Running (P_wrlock WR_enter)
  | Running (P_unlock UN_test) =>
      (w_away self m \/ w_holding self m) /\ r_away self m
  | Running (P_rdlock RD_enter_w)
  | Running (P_unlock UN_assert)
  | Running (P_unlock UN_enter) =>
      w_away self m /\ r_away self m
  | Running (P_rdlock RD_enter_rc)
  | Running (P_rdlock RD_leave_w)
  | Running (P_wrlock WR_store)
  | Running (P_unlock UN_leave_w) =>
      w_passing self m /\ r_away self m
  | Running (P_rdlock RD_inc)
  | Running (P_rdlock RD_leave_rc) =>
      w_passing self m /\ r_inside self m /\ event_ok m
  | Running (P_rdlock RD_reset) =>
      w_passing self m /\ r_inside self m /\ readerCount m = 1
  | Running (P_wrlock WR_test)
  | Running (P_wrlock WR_wait)
  | Running (P_wrlock WR_assert) =>
      (w_passing self m \/ w_again self m) /\ r_away self m
  | Running (P_unlock UN_dec)
  | Running (P_unlock UN_leave) =>
      w_away self m /\ r_inside self m /\ event_ok m
  | Running (P_unlock UN_set) =>
      w_away self m /\ r_inside self m /\ readerCount m = 0
  | Running (P_unlock UN_clear) =>
      w_holding self m /\ r_away self m
  end.

(** Threads that have passed the assertion of a reader's unlock and have not
    decremented yet. *)
Definition pend (th : thread) : Z :=
  match th with
  | Running (P_unlock UN_enter) | Running (P_unlock UN_dec) => 1
  | _ => 0
  end.

Fixpoint pending (ts : list thread) : Z :=
  match ts with
  | [] => 0
  | th :: r => pend th + pending r
  end.

Definition owner_in_pool (n : nat) (c : critical_section) : Prop :=
  cs_owner c = 0 \/ exists i, (i < n)%nat /\ cs_owner c = tid i.

Record pool_inv (n : nat) (m : rwmutex) (ts : list thread) : Prop := {
  pi_len : length ts = n;
  pi_thread : forall i th, ts !! i = Some th -> thread_ok (tid i) th m;
  pi_wowner : owner_in_pool n (writerLock m);
  pi_rowner : owner_in_pool n (readerCountLock m);
  pi_writer : writer m = 0 \/ writer m = cs_owner (writerLock m);
  pi_wfree : cs_owner (writerLock m) = 0 -> writer m = 0;
  pi_rfree : cs_owner (readerCountLock m) = 0 -> event_ok m;
  pi_long : is_long (readerCount m);
  pi_bound : noReaders m = true -> pending ts - Z.of_nat n <= readerCount m
}.

Definition sys_inv (n : nat) (s : sys) : Prop :=
  match s with
  | Live m ts => pool_inv n m ts
  | Dead => True
  end.

(** What the other threads see of a case of thread [self]: a guard and the
    fields under it are left alone, or the guard goes between free and owned
    by [self]. *)
Definition guard_frame (self : Z) (c c' : critical_section) : Prop :=
  (cs_owner c = 0 \/ cs_owner c = self)
  /\ (cs_owner c' = 0 \/ cs_owner c' = self).

Definition frame (self : Z) (m m' : rwmutex) : Prop :=
  ((writerLock m' = writerLock m /\ writer m' = writer m)
   \/ guard_frame self (writerLock m) (writerLock m'))
  /\ ((readerCountLock m' = readerCountLock m
       /\ readerCount m' = readerCount m /\ noReaders m' = noReaders m)
      \/ guard_frame self (readerCountLock m) (readerCountLock m')).

(** The thread and the structure after a case, when there is one. *)
Definition after (o : rstep pc) : option (thread * rwmutex) :=
  match o with
  | Next _ p m => Some (Running p, m)
  | Return _ _ m => Some (Idle, m)
  | _ => None
  end.

(** The part of [pool_inv] that speaks of the structure alone. *)
Definition shared_ok (m : rwmutex) : Prop :=
  (writer m = 0 \/ writer m = cs_owner (writerLock m))
  /\ (cs_owner (writerLock m) = 0 -> writer m = 0)
  /\ (cs_owner (readerCountLock m) = 0 -> event_ok m)
  /\ is_long (readerCount m).

(** Thread [i] holds the write side: it owns the writer guard and is neither
    on its way in (a first [qemu_rwmutex_wrlock], or the registration of a
    reader) nor on its way out (past the clearing of [writer]). *)
Definition writing (depth : Z) (th : thread) : bool :=
  match th with
  | Idle
  | Running (P_rdlock RD_assert)
  | Running (P_wrlock WR_enter)
  | Running (P_unlock UN_test)
  | Running (P_unlock UN_clear) => true
  | Running (P_wrlock WR_test)
  | Running (P_wrlock WR_wait)
  | Running (P_wrlock WR_assert) => depth =? 2
  | _ => false
  end.

Definition holds_write (m : rwmutex) (i : nat) (th : thread) : Prop :=
  cs_owner (writerLock m) = tid i
  /\ writing (cs_depth (writerLock m)) th = true.

(** Threads 0 and 1 take the read side; thread 2 calls wrlock and waits for
    the event; the readers unlock, the second of them sets the event; thread
    2 becomes the writer. *)
Definition writer_waits : list (nat * choice) :=
  does 0 Rdlock 7 ++ does 1 Rdlock 6 ++ does 2 Wrlock 2.

Definition readers_then_writer : list (nat * choice) :=
  writer_waits ++ does 0 Unlock 5 ++ does 1 Unlock 6 ++ steps 2 3.

End RW.

(** ** Thread creation, exit and join *)

Module Thread.

(** Modelled from the spec: the two thread modes of [qemu_thread_create],
    joinable and detached; the macros QEMU_THREAD_JOINABLE and
    QEMU_THREAD_DETACHED are declared in a header that is not among the
    sources.  Only their being different matters. *)
Definition QEMU_THREAD_JOINABLE : Z := 0.
Definition QEMU_THREAD_DETACHED : Z := 1.

(** An [int] stored into a [short]. *)
Definition to_short (z : Z) : Z := (z + 2 ^ 15) mod 2 ^ 16 - 2 ^ 15.

(** [struct QemuThreadData], the fields used after creation. *)
Record QemuThreadData : Type := mkData {
  mode : Z;                (* short mode *)
  exited : bool;
  ret : Z                  (* void *ret *)
}.

(** One creator thread (id 1) and the thread it creates (id 2).  There is
    one descriptor block, so a pointer to it is either NULL or that block:
    [thread_data] is the creator's [thread->data], [tls] the created thread's
    slot [qemu_thread_tls_index]; [heap] is the block itself, [None] before
    [g_malloc] and after [g_free]; [cs] is [data->cs]; [alive] tells whether
    the created OS thread exists and has not terminated. *)
Record tworld : Type := mkT {
  heap : option QemuThreadData;
  thread_data : bool;
  tls : bool;
  cs : RW.critical_section;
  alive : bool
}.

Definition set_heap (v : option QemuThreadData) (w : tworld) : tworld :=
  mkT v (thread_data w) (tls w) (cs w) (alive w).
Definition set_thread_data (v : bool) (w : tworld) : tworld :=
  mkT (heap w) v (tls w) (cs w) (alive w).
Definition set_tls (v : bool) (w : tworld) : tworld :=
  mkT (heap w) (thread_data w) v (cs w) (alive w).
Definition set_cs (v : RW.critical_section) (w : tworld) : tworld :=
  mkT (heap w) (thread_data w) (tls w) v (alive w).
Definition set_alive (v : bool) (w : tworld) : tworld :=
  mkT (heap w) (thread_data w) (tls w) (cs w) v.

Inductive action : Type :=
| a_malloc | a_free | a_begin_thread | a_close_handle
| a_thread_data_store (p : bool)     (* thread->data = p *)
| a_thread_data_load (p : bool)      (* data = thread->data *)
| a_load_routine                     (* data->start_routine, data->arg *)
| a_mode_test (detached : bool)      (* data->mode == QEMU_THREAD_DETACHED *)
| a_tls_store (p : bool)             (* TlsSetValue(qemu_thread_tls_index, data) *)
| a_tls_load (p : bool)              (* TlsGetValue(qemu_thread_tls_index) *)
| a_routine (r : Z)                  (* start_routine(thread_arg) returned r *)
| a_assert
| a_ret_store (v : Z)                (* data->ret = arg *)
| a_ret_load (v : Z)                 (* ret = data->ret *)
| a_enter_cs | a_leave_cs | a_delete_cs
| a_exited_store                     (* data->exited = true *)
| a_exited_test (e : bool) (h : bool) (* if (!data->exited) handle = OpenThread(..) *)
| a_handle_test (h : bool)           (* if (handle) *)
| a_wait_thread                      (* WaitForSingleObject(handle, INFINITE) *)
| a_end_thread.                      (* _endthreadex(0) *)

Abbreviation tstep PC := (outcome tworld action PC).

Definition creator_id : Z := 1.
Definition spawned_id : Z := 2.

(** [static unsigned __stdcall win32_start_routine(void *arg)] followed by
    [void qemu_thread_exit(void *arg)].  The entry routine returns [r]; a
    field access through a freed block terminates the model ([Fatal]). *)
Inductive start_pc : Type :=
| SR_load | SR_mode | SR_tls (d : bool) | SR_run
| EX_tls (arg : Z) | EX_assert (arg : Z) | EX_ret (arg : Z)
| EX_enter | EX_exited | EX_leave | EX_end.

Definition win32_start_routine (r : Z) (pc : start_pc) (w : tworld) : tstep start_pc :=
  match pc with
  | SR_load =>                       (* start_routine = data->start_routine; thread_arg = data->arg; *)
      match heap w with
      | Some _ => Next a_load_routine SR_mode w
      | None => Fatal
      end
  | SR_mode =>                       (* if (data->mode == QEMU_THREAD_DETACHED) { g_free(data); data = NULL; } *)
      match heap w with
      | Some d =>
          if mode d =? QEMU_THREAD_DETACHED
          then Next (a_mode_test true) (SR_tls false) (set_heap None w)
          else Next (a_mode_test false) (SR_tls true) w
      | None => Fatal
      end
  | SR_tls d =>                      (* TlsSetValue(qemu_thread_tls_index, data); *)
      Next (a_tls_store d) SR_run (set_tls d w)
  | SR_run =>                        (* qemu_thread_exit(start_routine(thread_arg)); *)
      Next (a_routine r) (EX_tls r) w
  | EX_tls arg =>                    (* data = TlsGetValue(qemu_thread_tls_index); if (data) *)
      Next (a_tls_load (tls w)) (if tls w then EX_assert arg else EX_end) w
  | EX_assert arg =>                 (* assert(data->mode != QEMU_THREAD_DETACHED); *)
      match heap w with
      | Some d => if mode d =? QEMU_THREAD_DETACHED then Fatal
                  else Next a_assert (EX_ret arg) w
      | None => Fatal
      end
  | EX_ret arg =>                    (* data->ret = arg; *)
      match heap w with
      | Some d => Next (a_ret_store arg) EX_enter
                       (set_heap (Some (mkData (mode d) (exited d) arg)) w)
      | None => Fatal
      end
  | EX_enter =>                      (* EnterCriticalSection(&data->cs); *)
      match RW.EnterCriticalSection spawned_id (cs w) with
      | Some c => Next a_enter_cs EX_exited (set_cs c w)
      | None => Blocked
      end
  | EX_exited =>                     (* data->exited = true; *)
      match heap w with
      | Some d => Next a_exited_store EX_leave
                       (set_heap (Some (mkData (mode d) true (ret d))) w)
      | None => Fatal
      end
  | EX_leave =>                      (* LeaveCriticalSection(&data->cs); *)
      match RW.LeaveCriticalSection spawned_id (cs w) with
      | Some c => Next a_leave_cs EX_end (set_cs c w)
      | None => Fatal
      end
  | EX_end =>                        (* _endthreadex(0); *)
      Return a_end_thread 0 (set_alive false w)
  end.

(** [void qemu_thread_create(QemuThread *thread, .., int mode)]; [junk] is
    what [g_malloc] leaves in the field [ret]. *)
Inductive create_pc : Type := C_alloc | C_begin | C_close | C_data.

Definition qemu_thread_create (md junk : Z) (pc : create_pc) (w : tworld) : tstep create_pc :=
  match pc with
  | C_alloc =>                       (* data = g_malloc(..); data->mode = mode; data->exited = false;
                                        if (data->mode != QEMU_THREAD_DETACHED) InitializeCriticalSection(&data->cs); *)
      let m := to_short md in
      let w' := set_heap (Some (mkData m false junk)) w in
      Next a_malloc C_begin
           (if m =? QEMU_THREAD_DETACHED then w'
            else set_cs RW.InitializeCriticalSection w')
  | C_begin =>                       (* hThread = _beginthreadex(NULL, 0, win32_start_routine, data, 0, &thread->tid); *)
      Next a_begin_thread C_close (set_alive true w)
  | C_close =>                       (* CloseHandle(hThread); *)
      Next a_close_handle C_data w
  | C_data =>                        (* thread->data = (mode == QEMU_THREAD_DETACHED) ? NULL : data; *)
      let p := negb (md =? QEMU_THREAD_DETACHED) in
      Return (a_thread_data_store p) 0 (set_thread_data p w)
  end.

(** [HANDLE qemu_thread_get_handle(QemuThread *thread)]: the handle is 1, or
    0 for NULL.  [OpenThread] finds the thread while it has not terminated. *)
Inductive handle_pc : Type :=
| GH_data | GH_assert | GH_enter | GH_exited | GH_leave (h : bool).

Definition qemu_thread_get_handle (pc : handle_pc) (w : tworld) : tstep handle_pc :=
  match pc with
  | GH_data =>                       (* data = thread->data; if (!data) return NULL; *)
      if thread_data w then Next (a_thread_data_load true) GH_assert w
      else Return (a_thread_data_load false) 0 w
  | GH_assert =>                     (* assert(data->mode != QEMU_THREAD_DETACHED); *)
      match heap w with
      | Some d => if mode d =? QEMU_THREAD_DETACHED then Fatal
                  else Next a_assert GH_enter w
      | None => Fatal
      end
  | GH_enter =>                      (* EnterCriticalSection(&data->cs); *)
      match RW.EnterCriticalSection creator_id (cs w) with
      | Some c => Next a_enter_cs GH_exited (set_cs c w)
      | None => Blocked
      end
  | GH_exited =>                     (* if (!data->exited) handle = OpenThread(..); else handle = NULL; *)
      match heap w with
      | Some d =>
          let h := negb (exited d) && alive w in
          Next (a_exited_test (exited d) h) (GH_leave h) w
      | None => Fatal
      end
  | GH_leave h =>                    (* LeaveCriticalSection(&data->cs); return handle; *)
      match RW.LeaveCriticalSection creator_id (cs w) with
      | Some c => Return a_leave_cs (if h then 1 else 0) (set_cs c w)
      | None => Fatal
      end
  end.

(** [void *qemu_thread_join(QemuThread *thread)] *)
Inductive join_pc : Type :=
| J_data | J_handle (p : handle_pc) | J_wait (h : Z) | J_close
| J_ret | J_assert (r : Z) | J_delete (r : Z) | J_free (r : Z).

Definition qemu_thread_join (pc : join_pc) (w : tworld) : tstep join_pc :=
  match pc with
  | J_data =>                        (* data = thread->data; if (!data) return NULL; *)
      if thread_data w then Next (a_thread_data_load true) (J_handle GH_data) w
      else Return (a_thread_data_load false) 0 w
  | J_handle p =>                    (* handle = qemu_thread_get_handle(thread); *)
      call (qemu_thread_get_handle p w) J_handle J_wait
  | J_wait h =>                      (* if (handle) WaitForSingleObject(handle, INFINITE); *)
      if h =? 0 then Next (a_handle_test false) J_ret w
      else if alive w then Blocked else Next a_wait_thread J_close w
  | J_close =>                       (* CloseHandle(handle); *)
      Next a_close_handle J_ret w
  | J_ret =>                         (* ret = data->ret; *)
      match heap w with
      | Some d => Next (a_ret_load (ret d)) (J_assert (ret d)) w
      | None => Fatal
      end
  | J_assert r =>                    (* assert(data->mode != QEMU_THREAD_DETACHED); *)
      match heap w with
      | Some d => if mode d =? QEMU_THREAD_DETACHED then Fatal
                  else Next a_assert (J_delete r) w
      | None => Fatal
      end
  | J_delete r =>                    (* DeleteCriticalSection(&data->cs); *)
      Next a_delete_cs (J_free r) w
  | J_free r =>                      (* g_free(data); return ret; *)
      Return a_free r (set_heap None w)
  end.

(** The creator creates the thread and, some time later, joins it. *)
Inductive creator : Type :=
| Creating (p : create_pc)
| Joining (p : join_pc)
| Joined (v : Z).

(** The created thread: not yet started, running, or terminated. *)
Inductive spawned : Type :=
| Unborn
| Started (p : start_pc)
| Ended.

Inductive tsys : Type :=
| Live (w : tworld) (c : creator) (s : spawned)
| Dead.

Inductive who : Type := TheCreator | TheSpawned.

(** One move of the scheduler for parameters [md] (the mode given to
    create), [junk] and [r] (the value the entry routine returns). *)
Definition sys_step (md junk r : Z) (x : who) (s : tsys) : option tsys :=
  match s with
  | Dead => None
  | Live w c t =>
      match x with
      | TheCreator =>
          match c with
          | Creating p =>
              match qemu_thread_create md junk p w with
              | Next a p' w' =>
                  Some (Live w' (Creating p')
                          (match a with a_begin_thread => Started SR_load | _ => t end))
              | Return _ _ w' => Some (Live w' (Joining J_data) t)
              | Blocked => None
              | Fatal => Some Dead
              end
          | Joining p =>
              match qemu_thread_join p w with
              | Next _ p' w' => Some (Live w' (Joining p') t)
              | Return _ v w' => Some (Live w' (Joined v) t)
              | Blocked => None
              | Fatal => Some Dead
              end
          | Joined _ => None
          end
      | TheSpawned =>
          match t with
          | Started p =>
              match win32_start_routine r p w with
              | Next _ p' w' => Some (Live w' c (Started p'))
              | Return _ _ w' => Some (Live w' c Ended)
              | Blocked => None
              | Fatal => Some Dead
              end
          | _ => None
          end
      end
  end.

(** Before the call of [qemu_thread_create]. *)
Definition init_world : tworld := mkT None false false (RW.mkCS 0 0) false.

Definition init_sys : tsys := Live init_world (Creating C_alloc) Unborn.

Inductive reachable (md junk r : Z) : tsys -> Prop :=
| reach_init : reachable md junk r init_sys
| reach_step s x s' :
    reachable md junk r s -> sys_step md junk r x s = Some s' ->
    reachable md junk r s'.

Fixpoint run_schedule (md junk r : Z) (sched : list who) (s : tsys) : option tsys :=
  match sched with
  | [] => Some s
  | x :: rest =>
      match sys_step md junk r x s with
      | Some s' => run_schedule md junk r rest s'
      | None => None
      end
  end.

(** *** What holds in every state of a joinable creation *)

Definition exited_is (b : bool) (w : tworld) : Prop :=
  match heap w with Some d => exited d = b | None => True end.

Definition ret_is (r : Z) (w : tworld) : Prop :=
  match heap w with Some d => ret d = r | None => True end.

Definition live_heap (md : Z) (w : tworld) : Prop :=
  match heap w with Some d => mode d = md | None => False end.

(** The created thread has left [data] behind for good. *)
Definition done_with_data (t : spawned) : Prop :=
  t = Started EX_end \/ t = Ended.

Definition start_ok (r : Z) (p : start_pc) (w : tworld) : Prop :=
  match p with
  | SR_load | SR_mode => exited_is false w
  | SR_tls d => d = true /\ exited_is false w
  | SR_run => tls w = true /\ exited_is false w
  | EX_tls a | EX_assert a | EX_ret a =>
      a = r /\ tls w = true /\ exited_is false w
  | EX_enter | EX_exited => ret_is r w /\ exited_is false w
  | EX_leave | EX_end => ret_is r w /\ exited_is true w
  end.

Definition spawned_ok (r : Z) (t : spawned) (w : tworld) : Prop :=
  match t with
  | Unborn => alive w = false
  | Started p => alive w = true /\ start_ok r p w
  | Ended => alive w = false /\ ret_is r w /\ exited_is true w
  end.

Definition join_ok (r : Z) (p : join_pc) (t : spawned) : Prop :=
  match p with
  | J_handle (GH_leave h) => h = false -> done_with_data t
  | J_wait h => h = 0 -> done_with_data t
  | J_close | J_ret => done_with_data t
  | J_assert v | J_delete v | J_free v => v = r /\ done_with_data t
  | _ => True
  end.

Definition creator_ok (md r : Z) (c : creator) (t : spawned) (w : tworld) : Prop :=
  match c with
  | Creating C_alloc => t = Unborn /\ heap w = None
  | Creating C_begin => t = Unborn /\ live_heap md w /\ exited_is false w
  | Creating _ => t <> Unborn /\ live_heap md w
  | Joining p =>
      t <> Unborn /\ live_heap md w /\ thread_data w = true /\ join_ok r p t
  | Joined v => v = r /\ done_with_data t /\ heap w = None
  end.

Definition creator_in_cs (c : creator) : bool :=
  match c with
  | Joining (J_handle GH_exited) | Joining (J_handle (GH_leave _)) => true
  | _ => false
  end.

Definition spawned_in_cs (t : spawned) : bool :=
  match t with
  | Started EX_exited | Started EX_leave => true
  | _ => false
  end.

Definition cs_ok (c : creator) (t : spawned) (w : tworld) : Prop :=
  cs w = (if creator_in_cs c then RW.mkCS creator_id 1
          else if spawned_in_cs t then RW.mkCS spawned_id 1
          else RW.mkCS 0 0)
  /\ (creator_in_cs c && spawned_in_cs t = false).

Definition join_inv (md r : Z) (s : tsys) : Prop :=
  match s with
  | Live w c t => creator_ok md r c t w /\ spawned_ok r t w /\ cs_ok c t w
  | Dead => False
  end.


(** The creator creates, the created thread runs to its end, the creator
    joins. *)
Definition create_run_join : list who :=
  repeat TheCreator 4 ++ repeat TheSpawned 11 ++ repeat TheCreator 11.

(** How many steps a thread has left at most; no step goes back. *)
Definition handle_rank (p : handle_pc) : nat :=
  match p with
  | GH_data => 11 | GH_assert => 10 | GH_enter => 9 | GH_exited => 8
  | GH_leave _ => 7
  end%nat.

Definition join_rank (p : join_pc) : nat :=
  match p with
  | J_data => 12 | J_handle p => handle_rank p | J_wait _ => 6 | J_close => 5
  | J_ret => 4 | J_assert _ => 3 | J_delete _ => 2 | J_free _ => 1
  end%nat.

Definition creator_rank (c : creator) : nat :=
  match c with
  | Creating C_alloc => 16 | Creating C_begin => 15 | Creating C_close => 14
  | Creating C_data => 13
  | Joining p => join_rank p
  | Joined _ => 0
  end%nat.

Definition spawned_rank (t : spawned) : nat :=
  match t with
  | Unborn => 12
  | Started SR_load => 11 | Started SR_mode => 10 | Started (SR_tls _) => 9
  | Started SR_run => 8 | Started (EX_tls _) => 7 | Started (EX_assert _) => 6
  | Started (EX_ret _) => 5 | Started EX_enter => 4 | Started EX_exited => 3
  | Started EX_leave => 2 | Started EX_end => 1
  | Ended => 0
  end%nat.

Definition rank (s : tsys) : nat :=
  match s with
  | Live _ c t => (creator_rank c + spawned_rank t)%nat
  | Dead => 0%nat
  end.


End Thread.

(** ** The POSIX wrappers (qemu-thread-posix.c) *)

Module Posix.

(** [struct QemuMutex] of the POSIX backend: the native mutex (the id of the
    thread that has it locked, if any) and the owner field. *)
Record QemuMutex : Type := mkMutex {
  lock : option Z;
  owner : Z
}.

Definition EBUSY : Z := 16.

(** The collaborator [pthread_mutex_trylock] on an error-checking mutex:
    locks a free mutex and returns 0, returns EBUSY on a locked one. *)
Definition pthread_mutex_trylock (self : Z) (m : QemuMutex) : Z * QemuMutex :=
  match lock m with
  | None => (0, mkMutex (Some self) (owner m))
  | Some _ => (EBUSY, m)
  end.

(** [int qemu_mutex_trylock(QemuMutex *mutex)] *)
Definition qemu_mutex_trylock (self : Z) (m : QemuMutex) : Z * QemuMutex :=
  let (err, m1) := pthread_mutex_trylock self m in     (* err = pthread_mutex_trylock(&mutex->lock); *)
  let m2 := if err =? 0 then mkMutex (lock m1) self    (* if (err == 0) mutex->owner = pthread_self(); *)
            else m1 in
  (if err =? 0 then 0 else 1, m2).                     (* return !!err; *)

End Posix.

(** ** Semaphores *)

Module Sem.

(** [struct QemuSemaphore]: the handle [sem->sema] together with the kernel
    semaphore it designates.  [None] is a handle that designates nothing
    (NULL from a failed [CreateSemaphore], or closed); [Some n] a semaphore
    holding [n] units. *)
Record QemuSemaphore : Type := mkSem { sema : option Z }.

Definition WAIT_OBJECT_0 : Z := 0.
Definition WAIT_TIMEOUT : Z := 258.
Definition WAIT_FAILED : Z := 2 ^ 32 - 1.
Definition INFINITE : Z := 2 ^ 32 - 1.

(** An [int] passed where a DWORD is expected. *)
Definition to_dword (z : Z) : Z := z mod 2 ^ 32.

(** A DWORD result stored in an [int]. *)
Definition to_int (z : Z) : Z := wrap32 z.

(** [CreateSemaphore(NULL, init, max, NULL)]: fails, returning NULL, unless
    [0 <= init <= max] and [0 < max]. *)
Definition CreateSemaphore (init max : Z) : option Z :=
  if (0 <=? init) && (init <=? max) && (0 <? max) then Some init else None.

(** [ReleaseSemaphore(h, 1, NULL)]: FALSE, and nothing changed, on an invalid
    handle or when the maximum would be exceeded. *)
Definition ReleaseSemaphore (h : option Z) : bool * option Z :=
  match h with
  | Some n => if n + 1 <=? LONG_MAX then (true, Some (n + 1)) else (false, h)
  | None => (false, h)
  end.

(** [WaitForSingleObject(h, timeout)] on a semaphore, [elapsed] milliseconds
    after the call: [None] while the call is still waiting, otherwise its
    result and the object. *)
Definition WaitForSingleObject (h : option Z) (timeout elapsed : Z)
  : option (Z * option Z) :=
  match h with
  | None => Some (WAIT_FAILED, h)
  | Some n =>
      if 0 <? n then Some (WAIT_OBJECT_0, Some (n - 1))
      else if negb (timeout =? INFINITE) && (timeout <=? elapsed)
           then Some (WAIT_TIMEOUT, h)
           else None
  end.

(** [void qemu_sem_init(QemuSemaphore *sem, int init)] *)
Definition qemu_sem_init (init : Z) : QemuSemaphore :=
  mkSem (CreateSemaphore init LONG_MAX).

(** [void qemu_sem_destroy(QemuSemaphore *sem)] *)
Definition qemu_sem_destroy (s : QemuSemaphore) : QemuSemaphore :=
  mkSem None.                        (* CloseHandle(sem->sema); *)

(** [void qemu_sem_post(QemuSemaphore *sem)]: the result of
    [ReleaseSemaphore] is not looked at. *)
Definition qemu_sem_post (s : QemuSemaphore) : QemuSemaphore :=
  mkSem (snd (ReleaseSemaphore (sema s))).

Inductive action : Type :=
| a_post                             (* ReleaseSemaphore(sem->sema, 1, NULL) *)
| a_wait (rc : Z).                   (* WaitForSingleObject(sem->sema, ..) returned rc *)

(** [int qemu_sem_timedwait(QemuSemaphore *sem, int ms)], looked at
    [elapsed] milliseconds after the call. *)
Definition qemu_sem_timedwait (ms elapsed : Z) (s : QemuSemaphore)
  : outcome QemuSemaphore action unit :=
  match WaitForSingleObject (sema s) (to_dword ms) elapsed with
  | None => Blocked
  | Some (r, h) =>
      let rc := to_int r in            (* int rc = WaitForSingleObject(sem->sema, ms); *)
      if rc =? to_int WAIT_OBJECT_0    (* if (rc == WAIT_OBJECT_0) return 0; *)
      then Return (a_wait r) 0 (mkSem h)
      else if negb (rc =? to_int WAIT_TIMEOUT)
           then Fatal                  (* if (rc != WAIT_TIMEOUT) error_exit(..); *)
           else Return (a_wait r) (-1) (mkSem h)   (* return -1; *)
  end.

(** [void qemu_sem_wait(QemuSemaphore *sem)] *)
Definition qemu_sem_wait (elapsed : Z) (s : QemuSemaphore)
  : outcome QemuSemaphore action unit :=
  match WaitForSingleObject (sema s) INFINITE elapsed with
  | None => Blocked
  | Some (r, h) =>
      if negb (r =? WAIT_OBJECT_0)     (* if (.. != WAIT_OBJECT_0) error_exit(..); *)
      then Fatal
      else Return (a_wait r) 0 (mkSem h)
  end.

(** Each function is one kernel call, so an execution of several threads is
    a sequence of calls. *)
Inductive call : Type :=
| Post
| Wait (elapsed : Z)
| TimedWait (ms elapsed : Z).

Definition exec (c : call) (s : QemuSemaphore) : outcome QemuSemaphore action unit :=
  match c with
  | Post => Return a_post 0 (qemu_sem_post s)
  | Wait e => qemu_sem_wait e s
  | TimedWait ms e => qemu_sem_timedwait ms e s
  end.

(** The unit a call has taken: a wait that returned 0. *)
Definition took (c : call) (v : Z) : Z :=
  match c with
  | Post => 0
  | _ => if v =? 0 then 1 else 0
  end.

Fixpoint posts (cs : list call) : Z :=
  match cs with
  | [] => 0
  | Post :: rest => 1 + posts rest
  | _ :: rest => posts rest
  end.

(** [run cs s]: every call of [cs] has returned, in this order; the result
    is the number of units taken and the semaphore at the end.  [None] when
    a call is still waiting or has terminated the process. *)
Fixpoint run (cs : list call) (s : QemuSemaphore) : option (Z * QemuSemaphore) :=
  match cs with
  | [] => Some (0, s)
  | c :: rest =>
      match exec c s with
      | Return _ v s' =>
          match run rest s' with
          | Some (taken, s'') => Some (took c v + taken, s'')
          | None => None
          end
      | _ => None
      end
  end.

End Sem.

(** ** The mutex: kernel calls whose result the code does not look at *)

(** The other threads never take an installed semaphore handle away. *)
Definition keeps_sema (e : world -> world) : Prop :=
  forall w, m_sema w <> None -> m_sema (e w) <> None.

(** Thread 0 locks, thread 1 calls lock and goes to wait on the semaphore,
    thread 0 unlocks and releases the semaphore for it. *)
Definition handover : list (nat * choice) :=
  does 0 Lock 3 ++ does 1 Lock 5 ++ does 0 Unlock 6.

(** ** When the kernel does not create the semaphore *)

Module Creation.

(** [qemu_mutex_semaphore], [qemu_mutex_lock] and [qemu_mutex_unlock] with
    the result of [CreateSemaphore] as the kernel gives it: [created] is
    [false] when the call returns NULL.  The code does not look at the
    result.  The compare-exchange stores it, NULL or not, into a field that
    holds NULL, and the function then returns it; when the field holds a
    handle, [CloseHandle] is called on the result, NULL or not. *)
Definition qemu_mutex_semaphore (created : bool) (pc : sema_pc) (w : world)
  : mstep sema_pc :=
  match pc with
  | MS_test =>                       (* if (mutex->sema == NULL) *)
      match m_sema w with
      | None => Next (a_sema_test true) MS_create w
      | Some _ => Next (a_sema_test false) MS_load w
      end
  | MS_create =>                     (* sema = CreateSemaphore(NULL, 0, LONG_MAX, NULL) *)
      Next a_sema_create MS_cas w
  | MS_cas =>                        (* if (!InterlockedCompareExchangePointer(..)) return sema; *)
      match m_sema w with
      | None => if created
                then Return (a_sema_cas true) 1 (set_m_sema (Some 0) w)
                else Return (a_sema_cas true) 0 w
      | Some _ => Next (a_sema_cas false) MS_close w
      end
  | MS_close =>                      (* CloseHandle(sema): somebody beat us to it *)
      Next a_sema_close MS_load w
  | MS_load =>                       (* return mutex->sema; *)
      match m_sema w with
      | None => Return (a_sema_load 0) 0 w
      | Some _ => Return (a_sema_load 1) 1 w
      end
  end.

Definition qemu_mutex_lock (created : bool) (self : Z) (pc : lock_pc) (w : world)
  : mstep lock_pc :=
  match pc with
  | L_assert =>                      (* assert(mutex->owner != GetCurrentThreadId()); *)
      if m_owner w =? self then Fatal else Next a_assert L_inc w
  | L_inc =>                         (* if (InterlockedIncrement(&mutex->count) != 1) *)
      let c := wrap32 (m_count w + 1) in
      Next (a_count_inc (m_count w) c)
           (if c =? 1 then L_owner else L_sema MS_test)
           (set_m_count c w)
  | L_sema p =>                      (* qemu_mutex_semaphore(mutex) *)
      call (qemu_mutex_semaphore created p w) L_sema L_wait
  | L_wait h =>                      (* WaitForSingleObject(.., INFINITE); *)
      wait_msem h L_owner w
  | L_owner =>                       (* mutex->owner = GetCurrentThreadId(); *)
      Return (a_owner_store self) 0 (set_m_owner self w)
  end.

Definition qemu_mutex_unlock (created : bool) (self : Z) (pc : unlock_pc) (w : world)
  : mstep unlock_pc :=
  match pc with
  | U_assert =>                      (* assert(mutex->owner == GetCurrentThreadId()); *)
      if m_owner w =? self then Next a_assert U_owner w else Fatal
  | U_owner =>                       (* mutex->owner = 0; *)
      Next (a_owner_store 0) U_dec (set_m_owner 0 w)
  | U_dec =>                         (* if (InterlockedDecrement(&mutex->count) != 0) *)
      let c := wrap32 (m_count w - 1) in
      if c =? 0
      then Return (a_count_dec (m_count w) c) 0 (set_m_count c w)
      else Next (a_count_dec (m_count w) c) (U_sema MS_test) (set_m_count c w)
  | U_sema p =>                      (* qemu_mutex_semaphore(mutex) *)
      call (qemu_mutex_semaphore created p w) U_sema U_release
  | U_release h =>                   (* ReleaseSemaphore(.., 1, NULL); *)
      let (ok, w') := release_msem h w in
      Return (a_msem_release ok) 0 w'
  end.

End Creation.

(** ** qemu_mutex_lock_recursive *)

Module Recursive.

(** [struct QemuMutex] with the field [lock], the critical section that
    [qemu_mutex_lock_recursive] enters, beside the fields the other mutex
    functions use (those of [world]). *)
Record rmutex : Type := mkR {
  mx : world;
  lock : RW.critical_section
}.

Definition set_lock (c : RW.critical_section) (r : rmutex) : rmutex := mkR (mx r) c.
Definition set_mx (w : world) (r : rmutex) : rmutex := mkR w (lock r).

Inductive raction : Type :=
| a_enter_lock                       (* EnterCriticalSection(&mutex->lock) *)
| a_leave_lock                       (* LeaveCriticalSection(&mutex->lock) *)
| a_owner_test (v : Z)               (* mutex->owner != 0 *)
| a_owner_set (v : Z)                (* mutex->owner = v *)
| a_mutex (a : action).              (* a case of another mutex function *)

(** [int qemu_mutex_lock_recursive(QemuMutex *mutex)] *)
Inductive rec_pc : Type := R_enter | R_test | R_leave | R_owner.

Definition qemu_mutex_lock_recursive (self : Z) (pc : rec_pc) (r : rmutex)
  : outcome rmutex raction rec_pc :=
  match pc with
  | R_enter =>                       (* EnterCriticalSection(&mutex->lock); *)
      match RW.EnterCriticalSection self (lock r) with
      | Some c => Next a_enter_lock R_test (set_lock c r)
      | None => Blocked
      end
  | R_test =>                        (* if (mutex->owner != 0) *)
      Next (a_owner_test (m_owner (mx r)))
           (if negb (m_owner (mx r) =? 0) then R_leave else R_owner) r
  | R_leave =>                       (* LeaveCriticalSection(&mutex->lock); return 1; *)
      match RW.LeaveCriticalSection self (lock r) with
      | Some c => Return a_leave_lock 1 (set_lock c r)
      | None => Fatal
      end
  | R_owner =>                       (* mutex->owner = GetCurrentThreadId(); return 0; *)
      Return (a_owner_set self) 0 (set_mx (set_m_owner self (mx r)) r)
  end.

(** The other mutex functions on the same structure: they do not touch
    [lock]. *)
Definition on_mutex {PC : Type} (o : mstep PC) (r : rmutex)
  : outcome rmutex raction PC :=
  match o with
  | Next a p w => Next (a_mutex a) p (set_mx w r)
  | Return a v w => Return (a_mutex a) v (set_mx w r)
  | Blocked => Blocked
  | Fatal => Fatal
  end.

Definition lock_on (self : Z) (pc : lock_pc) (r : rmutex) :=
  on_mutex (qemu_mutex_lock self pc (mx r)) r.

Definition unlock_on (self : Z) (pc : unlock_pc) (r : rmutex) :=
  on_mutex (qemu_mutex_unlock self pc (mx r)) r.

(** The fields of the mutex that [qemu_mutex_lock] and [qemu_mutex_unlock]
    synchronise on. *)
Definition same_counter (r r' : rmutex) : Prop :=
  m_count (mx r') = m_count (mx r) /\ m_sema (mx r') = m_sema (mx r).

End Recursive.

(** ** Threads: the detached creation and a second join *)

Module ThreadMore.
Import Thread.

(** What holds of the created thread's program point in a detached
    creation: it reads the descriptor up to its test of the mode, frees it
    there, and never looks at it again. *)
Definition detached_start_ok (p : start_pc) (w : tworld) : Prop :=
  match p with
  | SR_load | SR_mode => live_heap QEMU_THREAD_DETACHED w
  | SR_tls d => d = false /\ heap w = None
  | SR_run | EX_tls _ | EX_end => heap w = None
  | _ => False
  end.

Definition detached_creator_ok (c : creator) : Prop :=
  match c with
  | Creating _ => True
  | Joining p => p = J_data
  | Joined v => v = 0
  end.

Definition detached_ok (s : tsys) : Prop :=
  match s with
  | Dead => False
  | Live w c t =>
      thread_data w = false /\ tls w = false /\ detached_creator_ok c
      /\ match t with
         | Unborn =>
             match c with
             | Creating C_alloc => heap w = None
             | Creating C_begin => live_heap QEMU_THREAD_DETACHED w
             | _ => False
             end
         | Started p =>
             detached_start_ok p w
             /\ c <> Creating C_alloc /\ c <> Creating C_begin
         | Ended =>
             heap w = None
             /\ c <> Creating C_alloc /\ c <> Creating C_begin
         end
  end.

(** The creation is over: the created thread has terminated and freed the
    descriptor, a join has returned NULL. *)
Definition detached_done (s : tsys) : Prop :=
  match s with
  | Live w (Joined v) Ended => v = 0 /\ heap w = None /\ thread_data w = false
  | _ => False
  end.

End ThreadMore.

(** ** The POSIX wrappers in a pool of threads *)

Module PosixPool.
Import Posix.

Definition EPERM : Z := 1.
Definition EDEADLK : Z := 35.

(** The collaborator [pthread_mutex_lock] on an error-checking mutex:
    [None] while the caller has to wait; EDEADLK when the caller has the
    mutex already. *)
Definition pthread_mutex_lock (self : Z) (m : QemuMutex) : option (Z * QemuMutex) :=
  match lock m with
  | None => Some (0, mkMutex (Some self) (owner m))
  | Some t => if t =? self then Some (EDEADLK, m) else None
  end.

(** The collaborator [pthread_mutex_unlock] on an error-checking mutex:
    EPERM unless the caller has the mutex. *)
Definition pthread_mutex_unlock (self : Z) (m : QemuMutex) : Z * QemuMutex :=
  match lock m with
  | Some t => if t =? self then (0, mkMutex None (owner m)) else (EPERM, m)
  | None => (EPERM, m)
  end.

Definition set_owner (v : Z) (m : QemuMutex) : QemuMutex := mkMutex (lock m) v.

(** [pthread_null], a static variable, is zero. *)
Definition pthread_null : Z := 0.

(** [void qemu_mutex_init(QemuMutex *mutex)] with [pthread_mutex_init]
    succeeding. *)
Definition qemu_mutex_init : QemuMutex := mkMutex None pthread_null.

Inductive paction : Type :=
| a_lock (err : Z)                   (* err = pthread_mutex_lock(&mutex->lock) *)
| a_trylock (err : Z)                (* err = pthread_mutex_trylock(&mutex->lock) *)
| a_unlock (err : Z)                 (* err = pthread_mutex_unlock(&mutex->lock) *)
| a_owner (v : Z)                    (* mutex->owner = v *)
| a_assert                           (* assert(pthread_equal(mutex->owner, pthread_self())) *)
| a_cond_release (err : Z)           (* pthread_cond_wait: the mutex is released *)
| a_cond_acquire                     (* pthread_cond_wait: woken, the mutex is taken again *)
| a_return.                          (* if (err) error_exit(..) was passed *)

Abbreviation pstep PC := (outcome QemuMutex paction PC).

(** [void qemu_mutex_lock(QemuMutex *mutex)] *)
Inductive lock_pc : Type := PL_lock | PL_owner (err : Z) | PL_check (err : Z).

Definition qemu_mutex_lock (self : Z) (pc : lock_pc) (m : QemuMutex) : pstep lock_pc :=
  match pc with
  | PL_lock =>                       (* err = pthread_mutex_lock(&mutex->lock); *)
      match pthread_mutex_lock self m with
      | Some (err, m') => Next (a_lock err) (PL_owner err) m'
      | None => Blocked
      end
  | PL_owner err =>                  (* mutex->owner = pthread_self(); *)
      Next (a_owner self) (PL_check err) (set_owner self m)
  | PL_check err =>                  (* if (err) error_exit(err, __func__); *)
      if err =? 0 then Return a_return 0 m else Fatal
  end.

(** [int qemu_mutex_trylock(QemuMutex *mutex)], its two accesses apart. *)
Inductive trylock_pc : Type := PT_try | PT_owner (err : Z).

Definition trylock_step (self : Z) (pc : trylock_pc) (m : QemuMutex)
  : pstep trylock_pc :=
  match pc with
  | PT_try =>                        (* err = pthread_mutex_trylock(&mutex->lock); *)
      let (err, m') := pthread_mutex_trylock self m in
      Next (a_trylock err) (PT_owner err) m'
  | PT_owner err =>                  (* if (err == 0) mutex->owner = pthread_self(); return !!err; *)
      if err =? 0 then Return (a_owner self) 0 (set_owner self m)
      else Return a_return 1 m
  end.

(** [void qemu_mutex_unlock(QemuMutex *mutex)] *)
Inductive unlock_pc : Type := PU_owner | PU_unlock.

Definition qemu_mutex_unlock (self : Z) (pc : unlock_pc) (m : QemuMutex)
  : pstep unlock_pc :=
  match pc with
  | PU_owner =>                      (* mutex->owner = pthread_null; *)
      Next (a_owner pthread_null) PU_unlock (set_owner pthread_null m)
  | PU_unlock =>                     (* err = pthread_mutex_unlock(&mutex->lock); if (err) error_exit(..); *)
      let (err, m') := pthread_mutex_unlock self m in
      if err =? 0 then Return (a_unlock err) 0 m' else Fatal
  end.

(** [void qemu_cond_wait(QemuCond *cond, QemuMutex *mutex)].  The
    collaborator [pthread_cond_wait] releases the mutex (EPERM unless the
    caller has it), waits, and takes the mutex again before it returns; as
    POSIX lets it wake up without a signal, the wait can end at any time. *)
Inductive wait_pc : Type :=
| PW_assert | PW_clear | PW_release | PW_acquire
| PW_owner (err : Z) | PW_check (err : Z).

Definition qemu_cond_wait (self : Z) (pc : wait_pc) (m : QemuMutex) : pstep wait_pc :=
  match pc with
  | PW_assert =>                     (* assert(pthread_equal(mutex->owner, pthread_self())); *)
      if owner m =? self then Next a_assert PW_clear m else Fatal
  | PW_clear =>                      (* mutex->owner = pthread_null; *)
      Next (a_owner pthread_null) PW_release (set_owner pthread_null m)
  | PW_release =>                    (* err = pthread_cond_wait(&cond->cond, &mutex->lock); *)
      let (err, m') := pthread_mutex_unlock self m in
      Next (a_cond_release err) (if err =? 0 then PW_acquire else PW_owner err) m'
  | PW_acquire =>
      match lock m with
      | None => Next a_cond_acquire (PW_owner 0) (mkMutex (Some self) (owner m))
      | Some _ => Blocked
      end
  | PW_owner err =>                  (* mutex->owner = pthread_self(); *)
      Next (a_owner self) (PW_check err) (set_owner self m)
  | PW_check err =>                  (* if (err) error_exit(err, __func__); *)
      if err =? 0 then Return a_return 0 m else Fatal
  end.

Inductive api : Type := Lock | Trylock | Unlock | CondWait.

Inductive pc : Type :=
| P_lock (p : lock_pc) | P_trylock (p : trylock_pc)
| P_unlock (p : unlock_pc) | P_wait (p : wait_pc).

Definition entry (f : api) : pc :=
  match f with
  | Lock => P_lock PL_lock
  | Trylock => P_trylock PT_try
  | Unlock => P_unlock PU_owner
  | CondWait => P_wait PW_assert
  end.

Definition thread_step (self : Z) (p : pc) (m : QemuMutex) : pstep pc :=
  match p with
  | P_lock q => tail_call (qemu_mutex_lock self q m) P_lock
  | P_trylock q => tail_call (trylock_step self q m) P_trylock
  | P_unlock q => tail_call (qemu_mutex_unlock self q m) P_unlock
  | P_wait q => tail_call (qemu_cond_wait self q m) P_wait
  end.

Inductive thread : Type := Idle | Running (p : pc).

Inductive sys : Type :=
| Live (m : QemuMutex) (ts : list thread)
| Dead.

Inductive choice : Type := Enter (f : api) | Step.

Definition sys_step (i : nat) (c : choice) (s : sys) : option sys :=
  match s with
  | Dead => None
  | Live m ts =>
      match ts !! i, c with
      | Some Idle, Enter f => Some (Live m (<[i := Running (entry f)]> ts))
      | Some (Running p), Step =>
          match thread_step (tid i) p m with
          | Next _ p' m' => Some (Live m' (<[i := Running p']> ts))
          | Return _ _ m' => Some (Live m' (<[i := Idle]> ts))
          | Blocked => None
          | Fatal => Some Dead
          end
      | _, _ => None
      end
  end.

Definition init_sys (n : nat) : sys := Live qemu_mutex_init (repeat Idle n).

Inductive reachable (n : nat) : sys -> Prop :=
| reach_init : reachable n (init_sys n)
| reach_step s i c s' :
    reachable n s -> sys_step i c s = Some s' -> reachable n s'.

Fixpoint run_schedule (sched : list (nat * choice)) (s : sys) : option sys :=
  match sched with
  | [] => Some s
  | (i, c) :: rest =>
      match sys_step i c s with
      | Some s' => run_schedule rest s'
      | None => None
      end
  end.

Definition does (i : nat) (f : api) (k : nat) : list (nat * choice) :=
  (i, Enter f) :: repeat (i, Step) k.

(** What holds of the mutex when thread [self] is at a given point. *)
Definition has_lock (self : Z) (m : QemuMutex) : Prop := lock m = Some self.

Definition thread_ok (self : Z) (th : thread) (m : QemuMutex) : Prop :=
  match th with
  | Idle => True
  | Running (P_lock PL_lock) => True
  | Running (P_lock (PL_owner _)) | Running (P_lock (PL_check _)) => has_lock self m
  | Running (P_trylock PT_try) => True
  | Running (P_trylock (PT_owner err)) => err = 0 -> has_lock self m
  | Running (P_unlock PU_owner) => True
  | Running (P_unlock PU_unlock) => has_lock self m -> owner m = 0
  | Running (P_wait PW_assert) => True
  | Running (P_wait PW_clear) => has_lock self m
  | Running (P_wait PW_release) => has_lock self m /\ owner m = 0
  | Running (P_wait PW_acquire) => True
  | Running (P_wait (PW_owner err)) | Running (P_wait (PW_check err)) =>
      err = 0 /\ has_lock self m
  end.

Record pool_inv (n : nat) (m : QemuMutex) (ts : list thread) : Prop := {
  pp_len : length ts = n;
  pp_thread : forall i th, ts !! i = Some th -> thread_ok (tid i) th m;
  pp_owner : owner m = 0 \/ lock m = Some (owner m);
  pp_holder : forall t, lock m = Some t -> exists i, (i < n)%nat /\ t = tid i
}.

Definition sys_inv (n : nat) (s : sys) : Prop :=
  match s with
  | Live m ts => pool_inv n m ts
  | Dead => True
  end.

(** The thread and the mutex after a case, when there is one. *)
Definition after (o : pstep pc) : option (thread * QemuMutex) :=
  match o with
  | Next _ p m => Some (Running p, m)
  | Return _ _ m => Some (Idle, m)
  | _ => None
  end.

(** What the other threads see of a case of thread [self]: the native mutex
    goes between free and locked by [self] or is left alone; the owner field
    is left alone, cleared, or set to [self] while [self] has the native
    mutex. *)
Definition frame (self : Z) (m m' : QemuMutex) : Prop :=
  (lock m' = lock m
   \/ (lock m = None /\ lock m' = Some self)
   \/ (lock m = Some self /\ lock m' = None))
  /\ (owner m' = owner m
      \/ owner m' = 0
      \/ (owner m' = self /\ lock m = Some self /\ lock m' = Some self)).

(** Thread 0 locks and waits on the condition variable; thread 1 locks. *)
Definition wait_and_lock : list (nat * choice) :=
  does 0 Lock 3 ++ does 0 CondWait 3 ++ does 1 Lock 3.

End PosixPool.

(** ** The reader-writer lock used as intended *)

Module RWClients.
Import RW.

(** What a thread holds between two calls. *)
Inductive mode : Type := Nothing | Read | Write.

(** A client thread is between two calls, or inside a call it made while
    holding [h].  It calls rdlock or wrlock only when it holds nothing, and
    unlock only when it holds a side of the lock. *)
Inductive client : Type :=
| Between (h : mode)
| Inside (h : mode) (p : pc).

Definition allowed (h : mode) (o : op) : bool :=
  match h, o with
  | Nothing, Rdlock | Nothing, Wrlock | Read, Unlock | Write, Unlock => true
  | _, _ => false
  end.

(** What the thread holds when the call returns. *)
Definition result_mode (p : pc) : mode :=
  match p with
  | P_rdlock _ => Read
  | P_wrlock _ => Write
  | P_unlock _ => Nothing
  end.

Inductive csys : Type :=
| CLive (m : rwmutex) (ts : list client)
| CDead.

Definition sys_step (i : nat) (c : choice) (s : csys) : option csys :=
  match s with
  | CDead => None
  | CLive m ts =>
      match ts !! i, c with
      | Some (Between h), Enter o =>
          if allowed h o then Some (CLive m (<[i := Inside h (entry o)]> ts))
          else None
      | Some (Inside h p), Step =>
          match op_step (tid i) p m with
          | Next _ p' m' => Some (CLive m' (<[i := Inside h p']> ts))
          | Return _ _ m' => Some (CLive m' (<[i := Between (result_mode p)]> ts))
          | Blocked => None
          | Fatal => Some CDead
          end
      | _, _ => None
      end
  end.

Definition init_sys (n : nat) : csys :=
  CLive (qemu_rwmutex_init zeroed) (repeat (Between Nothing) n).

Inductive reachable (n : nat) : csys -> Prop :=
| reach_init : reachable n (init_sys n)
| reach_step s i c s' :
    reachable n s -> sys_step i c s = Some s' -> reachable n s'.

Fixpoint run_schedule (sched : list (nat * choice)) (s : csys) : option csys :=
  match sched with
  | [] => Some s
  | (i, c) :: rest =>
      match sys_step i c s with
      | Some s' => run_schedule rest s'
      | None => None
      end
  end.

(** The client as a thread of the pool of [RW.sys]. *)
Definition erase (c : client) : thread :=
  match c with
  | Between _ => Idle
  | Inside _ p => Running p
  end.

(** The client is counted in [readerCount]: from its increment in rdlock to
    its decrement in unlock. *)
Definition reads (c : client) : Z :=
  match c with
  | Between Read => 1
  | Inside _ (P_rdlock RD_reset)
  | Inside _ (P_rdlock RD_leave_rc)
  | Inside _ (P_rdlock RD_leave_w) => 1
  | Inside Read (P_unlock UN_test)
  | Inside Read (P_unlock UN_assert)
  | Inside Read (P_unlock UN_enter)
  | Inside Read (P_unlock UN_dec) => 1
  | _ => 0
  end.

Fixpoint readers (ts : list client) : Z :=
  match ts with
  | [] => 0
  | c :: r => reads c + readers r
  end.

(** What the client's state says of the writer guard and of the count. *)
Definition client_ok (self : Z) (c : client) (m : rwmutex) : Prop :=
  match c with
  | Between Nothing | Between Read => w_away self m
  | Between Write => w_holding self m /\ readerCount m = 0
  | Inside Nothing (P_rdlock RD_assert)
  | Inside Nothing (P_wrlock WR_enter) => w_away self m
  | Inside Nothing (P_rdlock _) => True
  | Inside Nothing (P_wrlock WR_test)
  | Inside Nothing (P_wrlock WR_wait) => w_passing self m
  | Inside Nothing (P_wrlock WR_assert)
  | Inside Nothing (P_wrlock WR_store) => w_passing self m /\ readerCount m = 0
  | Inside Read (P_unlock UN_test) => w_away self m
  | Inside Read (P_unlock UN_assert)
  | Inside Read (P_unlock UN_enter)
  | Inside Read (P_unlock UN_dec)
  | Inside Read (P_unlock UN_set)
  | Inside Read (P_unlock UN_leave) => True
  | Inside Write (P_unlock UN_test)
  | Inside Write (P_unlock UN_clear) => w_holding self m /\ readerCount m = 0
  | Inside Write (P_unlock UN_leave_w) => w_passing self m /\ readerCount m = 0
  | _ => False
  end.

Record clients_inv (n : nat) (m : rwmutex) (ts : list client) : Prop := {
  ci_pool : pool_inv n m (map erase ts);
  ci_count : readerCount m = readers ts;
  ci_client : forall i c, ts !! i = Some c -> client_ok (tid i) c m
}.

Definition csys_inv (n : nat) (s : csys) : Prop :=
  match s with
  | CLive m ts => clients_inv n m ts
  | CDead => False
  end.

(** The client and the structure after a case, when there is one. *)
Definition cafter (h : mode) (p : pc) (o : rstep pc) : option (client * rwmutex) :=
  match o with
  | Next _ p' m => Some (Inside h p', m)
  | Return _ _ m => Some (Between (result_mode p), m)
  | _ => None
  end.

(** A case changes [readerCount] only in rdlock under the writer guard, or
    in the unlock of a thread that is counted in it. *)
Definition count_frame (self : Z) (m m' : rwmutex) : Prop :=
  readerCount m' = readerCount m
  \/ cs_owner (writerLock m) = self
  \/ 1 <= readerCount m.

(** The event follows the count: when nobody is inside the reader-count
    guard, an unset event means that readers are present.  A thread about to
    leave the guard in unlock knows as much. *)
Definition event_follows (m : rwmutex) : Prop :=
  noReaders m = false -> 0 < readerCount m.

Definition leaving_ok (c : client) (m : rwmutex) : Prop :=
  match c with
  | Inside _ (P_unlock UN_leave) => event_follows m
  | _ => True
  end.

Record live_inv (m : rwmutex) (ts : list client) : Prop := {
  li_free : cs_owner (readerCountLock m) = 0 -> event_follows m;
  li_leaving : forall i c, ts !! i = Some c -> leaving_ok c m
}.

(** The client holds a side of the lock between two calls. *)
Definition holds_side (c : client) : bool :=
  match c with
  | Between Read | Between Write => true
  | _ => false
  end.

(** Thread [i] is inside a call and its next case can be taken. *)
Definition moves (m : rwmutex) (ts : list client) (i : nat) : bool :=
  match sys_step i Step (CLive m ts) with
  | Some _ => true
  | None => false
  end.

Definition cdoes (i : nat) (o : op) (k : nat) : list (nat * choice) :=
  (i, Enter o) :: repeat (i, Step) k.

(** Two readers, then a writer that has to wait for both to unlock. *)
Definition two_readers_one_writer : list (nat * choice) :=
  cdoes 0 Rdlock 7 ++ cdoes 1 Rdlock 6 ++ cdoes 2 Wrlock 2 ++
  cdoes 0 Unlock 5 ++ cdoes 1 Unlock 6 ++ repeat (2%nat, Step) 3.

(** A reader holds the lock; a writer waits for the event and a second
    reader waits for the writer guard. *)
Definition reader_holds_others_wait : list (nat * choice) :=
  cdoes 0 Rdlock 7 ++ cdoes 1 Wrlock 2 ++ cdoes 2 Rdlock 1.

End RWClients.

(** * Proofs *)

(** ** Arithmetic of [LONG] *)

Lemma wrap32_small z : is_long z -> wrap32 z = z.
Proof.
  unfold is_long, wrap32. intros H.
  rewrite Z.mod_small by lia. lia.
Qed.

Lemma wrap32_is_long z : is_long (wrap32 z).
Proof.
  unfold is_long, wrap32.
  pose proof (Z.mod_pos_bound (z + 2 ^ 31) (2 ^ 32) ltac:(lia)). lia.
Qed.

Lemma wrap32_add_l a b : wrap32 (wrap32 a + b) = wrap32 (a + b).
Proof.
  unfold wrap32.
  replace ((a + 2 ^ 31) mod 2 ^ 32 - 2 ^ 31 + b + 2 ^ 31)
    with ((a + 2 ^ 31) mod 2 ^ 32 + b) by lia.
  rewrite Zplus_mod_idemp_l. f_equal. f_equal. lia.
Qed.

Lemma wrap32_eq_iff c k :
  0 <= c < 2 ^ 32 -> 0 <= k < 2 ^ 31 -> wrap32 c = k <-> c = k.
Proof.
  intros Hc Hk. unfold wrap32. split; [|intros ->; rewrite Z.mod_small; lia].
  intros H.
  destruct (Z_lt_ge_dec c (2 ^ 31)) as [Hlt|Hge].
  - rewrite Z.mod_small in H by lia. lia.
  - replace (c + 2 ^ 31) with (c - 2 ^ 31 + 1 * 2 ^ 32) in H by lia.
    rewrite Z_mod_plus_full, Z.mod_small in H by lia. lia.
Qed.

(** ** Sums over the thread pool *)

Lemma wsum_update g g' k (ts : list thread) j th th' :
  ts !! j = Some th ->
  (forall i x, i <> j -> ts !! i = Some x -> g' (tid (k + i)) x = g (tid (k + i)) x) ->
  wsum g' k (<[j := th']> ts) = wsum g k ts - g (tid (k + j)) th + g' (tid (k + j)) th'.
Proof.
  revert k j. induction ts as [|x r IH]; intros k j Hj Hother; [discriminate|].
  destruct j as [|j]; simpl in *.
  - injection Hj as ->. rewrite Nat.add_0_r.
    assert (wsum g' (S k) r = wsum g (S k) r) as ->; [|lia].
    clear IH. 
    assert (forall i y, r !! i = Some y -> g' (tid (S k + i)) y = g (tid (S k + i)) y) as H.
    { intros i y Hi. specialize (Hother (S i) y ltac:(lia) Hi).
      replace (k + S i)%nat with (S k + i)%nat in Hother by lia. exact Hother. }
    clear Hother. generalize dependent (S k). 
    induction r as [|y r IHr]; intros m H; simpl; [reflexivity|].
    rewrite (IHr (S m)).
    + specialize (H 0%nat y eq_refl). rewrite Nat.add_0_r in H. lia.
    + intros i z Hi. specialize (H (S i) z Hi).
      replace (m + S i)%nat with (S m + i)%nat in H by lia. exact H.
  - rewrite (IH (S k) j Hj).
    + specialize (Hother 0%nat x ltac:(lia) eq_refl). rewrite Nat.add_0_r in Hother.
      replace (S k + j)%nat with (k + S j)%nat by lia. lia.
    + intros i y Hne Hi. specialize (Hother (S i) y ltac:(lia) Hi).
      replace (k + S i)%nat with (S k + i)%nat in Hother by lia. exact Hother.
Qed.

Lemma wsum_bounds g k (ts : list thread) :
  (forall s th, 0 <= g s th <= 1) -> 0 <= wsum g k ts <= Z.of_nat (length ts).
Proof.
  intros Hg. revert k. induction ts as [|x r IH]; intros k; simpl; [lia|].
  specialize (IH (S k)). specialize (Hg (tid k) x). lia.
Qed.

Lemma wsum_nonneg g k (ts : list thread) :
  (forall s x, 0 <= g s x) -> 0 <= wsum g k ts.
Proof.
  intros Hg. revert k. induction ts as [|x r IH]; intros k; simpl; [lia|].
  specialize (IH (S k)). specialize (Hg (tid k) x). lia.
Qed.

Lemma wsum_ge_one g k (ts : list thread) j th :
  (forall s x, 0 <= g s x) -> ts !! j = Some th -> g (tid (k + j)) th <= wsum g k ts.
Proof.
  intros Hg. revert k j. induction ts as [|x r IH]; intros k j Hj; [discriminate|].
  destruct j as [|j]; simpl in *.
  - injection Hj as ->. rewrite Nat.add_0_r.
    pose proof (wsum_nonneg g (S k) r Hg). lia.
  - specialize (IH (S k) j Hj). specialize (Hg (tid k) x).
    replace (S k + j)%nat with (k + S j)%nat in IH by lia. lia.
Qed.

Lemma wsum_ge_two g k (ts : list thread) i j thi thj :
  (forall s x, 0 <= g s x) -> i <> j ->
  ts !! i = Some thi -> ts !! j = Some thj ->
  g (tid (k + i)) thi + g (tid (k + j)) thj <= wsum g k ts.
Proof.
  intros Hg. revert k i j. induction ts as [|x r IH]; intros k i j Hne Hi Hj; [discriminate|].
  destruct i as [|i], j as [|j]; simpl in *; try lia.
  - injection Hi as ->. rewrite Nat.add_0_r.
    pose proof (wsum_ge_one g (S k) r j thj Hg Hj) as H.
    replace (S k + j)%nat with (k + S j)%nat in H by lia. lia.
  - injection Hj as ->. rewrite Nat.add_0_r.
    pose proof (wsum_ge_one g (S k) r i thi Hg Hi) as H.
    replace (S k + i)%nat with (k + S i)%nat in H by lia. lia.
  - specialize (IH (S k) i j ltac:(lia) Hi Hj). specialize (Hg (tid k) x).
    replace (S k + i)%nat with (k + S i)%nat in IH by lia.
    replace (S k + j)%nat with (k + S j)%nat in IH by lia. lia.
Qed.

Lemma wrap32_sub_l a b : wrap32 (wrap32 a - b) = wrap32 (a - b).
Proof. unfold Z.sub. apply wrap32_add_l. Qed.

(** ** The mutex invariant *)

Lemma tid_inj i j : tid i = tid j -> i = j.
Proof. unfold tid. lia. Qed.

Lemma tid_pos i : 0 < tid i.
Proof. unfold tid. lia. Qed.

Lemma counted_range ph : 0 <= counted ph <= 1.
Proof. destruct ph; simpl; lia. Qed.

Lemma token_range ph : 0 <= token ph <= 1.
Proof. destruct ph; simpl; lia. Qed.

Lemma thread_req_mono o hs hs' th :
  (hs = true -> hs' = true) ->
  thread_req o hs th = true -> thread_req o hs' th = true.
Proof.
  intros Hhs.
  assert (forall p, sema_req hs p = true -> sema_req hs' p = true) as Hs
    by (intros []; simpl; auto).
  destruct th as [|[q|q|q|q|q|q]]; simpl; auto.
  - destruct q; simpl; auto; rewrite !andb_true_iff; intuition auto.
  - destruct q; simpl; auto; rewrite !andb_true_iff; intuition auto.
  - destruct q as [|q| | | | |q]; simpl; auto; destruct q; simpl; auto;
      rewrite !andb_true_iff; intuition auto.
Qed.

(** A thread the owner field names has the lock. *)
Lemma owner_is_holding hs th :
  thread_req true hs th = true -> thread_phase true th = Holding.
Proof.
  destruct th as [|[q|q|q|q|q|q]]; simpl; auto;
    try (destruct q; simpl; auto; discriminate).
  destruct q as [|q| | | | |q]; simpl; auto; try discriminate;
    destruct q; simpl; auto; discriminate.
Qed.

Lemma owner_is_holder hs th :
  thread_req true hs th = true -> token (thread_phase true th) = 1.
Proof. intros H. now rewrite (owner_is_holding hs th H). Qed.

Lemma others_own n w w' (ts : list thread) j th :
  mutex_inv n w ts -> ts !! j = Some th ->
  owner_discipline w w' j th ->
  forall i x, i <> j -> ts !! i = Some x -> own w' (tid i) = own w (tid i).
Proof.
  intros Hinv Hj [Heq|[[Heq Htok]|[Heq Hold]]] i x Hne Hi; unfold own.
  - now rewrite Heq.
  - rewrite Heq.
    assert ((tid j =? tid i) = false) as -> by (apply Z.eqb_neq; intros E; apply tid_inj in E; lia).
    symmetry. apply Z.eqb_neq. intros Hown.
    pose proof (inv_req _ _ _ Hinv i x Hi) as Hreq.
    unfold own in Hreq. rewrite (proj2 (Z.eqb_eq _ _) Hown) in Hreq.
    apply owner_is_holder in Hreq.
    pose proof (wsum_ge_two (token_in w) 0 ts i j x th
                  (fun s y => proj1 (token_range _)) Hne Hi Hj) as Hsum.
    simpl in Hsum. unfold token_in at 1 in Hsum. unfold own in Hsum.
    rewrite (proj2 (Z.eqb_eq _ _) Hown), Hreq, Htok in Hsum.
    pose proof (inv_token _ _ _ Hinv). pose proof (inv_units _ _ _ Hinv).
    destruct (wsum (counted_in w) 0 ts =? 0); lia.
  - rewrite Heq, Hold.
    assert ((tid j =? tid i) = false) as -> by (apply Z.eqb_neq; intros E; apply tid_inj in E; lia).
    apply Z.eqb_neq. pose proof (tid_pos i). lia.
Qed.

Lemma mutex_inv_update n w w' (ts : list thread) j th th' :
  mutex_inv n w ts ->
  ts !! j = Some th ->
  owner_discipline w w' j th ->
  (has_sema w = true -> has_sema w' = true) ->
  thread_req (own w' (tid j)) (has_sema w') th' = true ->
  (forall C T,
      0 <= C <= Z.of_nat n ->
      0 <= C - counted_in w (tid j) th + counted_in w' (tid j) th' <= Z.of_nat n ->
      counted_in w (tid j) th <= C ->
      token_in w (tid j) th <= T ->
      m_count w = wrap32 C ->
      0 <= units w ->
      T + units w = (if C =? 0 then 0 else 1) ->
      m_count w' = wrap32 (C - counted_in w (tid j) th + counted_in w' (tid j) th')
      /\ 0 <= units w'
      /\ (T - token_in w (tid j) th + token_in w' (tid j) th') + units w'
         = (if C - counted_in w (tid j) th + counted_in w' (tid j) th' =? 0
            then 0 else 1)) ->
  mutex_inv n w' (<[j := th']> ts).
Proof.
  intros Hinv Hj Hown Hhs Hreq Harith.
  pose proof (others_own _ _ _ _ _ _ Hinv Hj Hown) as Hoth.
  assert (wsum (counted_in w') 0 (<[j := th']> ts)
          = wsum (counted_in w) 0 ts - counted_in w (tid j) th + counted_in w' (tid j) th') as HC.
  { apply (wsum_update (counted_in w) (counted_in w') 0 ts j th th' Hj).
    intros i x Hne Hi. simpl. unfold counted_in. now rewrite (Hoth i x Hne Hi). }
  assert (wsum (token_in w') 0 (<[j := th']> ts)
          = wsum (token_in w) 0 ts - token_in w (tid j) th + token_in w' (tid j) th') as HT.
  { apply (wsum_update (token_in w) (token_in w') 0 ts j th th' Hj).
    intros i x Hne Hi. simpl. unfold token_in. now rewrite (Hoth i x Hne Hi). }
  pose proof (wsum_bounds (counted_in w) 0 ts (fun s x => counted_range _)) as HbC.
  pose proof (wsum_bounds (counted_in w') 0 (<[j := th']> ts)
                (fun s x => counted_range _)) as HbC'.
  rewrite length_insert, HC in HbC'.
  rewrite (inv_len _ _ _ Hinv) in HbC, HbC'.
  pose proof (wsum_ge_one (counted_in w) 0 ts j th
                (fun s x => proj1 (counted_range _)) Hj) as HgC.
  pose proof (wsum_ge_one (token_in w) 0 ts j th
                (fun s x => proj1 (token_range _)) Hj) as HgT.
  simpl in HgC, HgT.
  destruct (Harith _ _ HbC HbC' HgC HgT (inv_count _ _ _ Hinv)
              (inv_units _ _ _ Hinv) (inv_token _ _ _ Hinv)) as (Hc & Hu & Ht).
  split.
  - rewrite length_insert. apply (inv_len _ _ _ Hinv).
  - intros i x Hi. destruct (decide (i = j)) as [->|Hne].
    + rewrite list_lookup_insert_eq in Hi by (eapply lookup_lt_Some; eauto).
      injection Hi as <-. exact Hreq.
    + rewrite list_lookup_insert_ne in Hi by auto.
      rewrite (Hoth i x Hne Hi).
      eapply thread_req_mono; [exact Hhs|]. apply (inv_req _ _ _ Hinv i x Hi).
  - rewrite HC. exact Hc.
  - exact Hu.
  - rewrite HT, HC. exact Ht.
Qed.

Lemma zero_is_not_tid j : (0 =? tid j) = false.
Proof. apply Z.eqb_neq. pose proof (tid_pos j). lia. Qed.

Lemma tid_match_zero j : match tid j with 0 => true | _ => false end = false.
Proof. pose proof (tid_pos j). destruct (tid j); auto; lia. Qed.

(** Case analysis on one transition: split every test the case makes. *)
Ltac split_step H :=
  repeat (cbn in H; unfold wait_msem, release_msem, wait_event in H;
          match type of H with
          | context [match ?x with _ => _ end] =>
              lazymatch x with
              | context [match _ with _ => _ end] => fail
              | _ => destruct x eqn:?
              end
          end);
  cbn in H; try discriminate H.

Ltac destruct_pcs :=
  repeat match goal with
         | p : pc |- _ => destruct p
         | p : wait_pc |- _ => destruct p
         | p : lock_pc |- _ => destruct p
         | p : trylock_pc |- _ => destruct p
         | p : unlock_pc |- _ => destruct p
         | p : signal_pc |- _ => destruct p
         | p : broadcast_pc |- _ => destruct p
         | p : sema_pc |- _ => destruct p
         end.

Ltac norm_bools :=
  repeat match goal with
         | H : _ && _ = true |- _ => apply andb_true_iff in H; destruct H
         | H : negb _ = true |- _ => apply negb_true_iff in H
         | H : negb _ = false |- _ => apply negb_false_iff in H
         end.

Ltac use_bits :=
  repeat match goal with
         | H : (m_owner ?w =? ?t) = _ |- _ => rewrite H in *; clear H
         | H : m_sema ?w = _ |- _ => rewrite H in *; clear H
         end.

Ltac wrap_facts :=
  repeat match goal with
         | H : (_ =? _) = true |- _ => apply Z.eqb_eq in H
         | H : (_ =? _) = false |- _ => apply Z.eqb_neq in H
         | H : (_ <? _) = true |- _ => apply Z.ltb_lt in H
         | H : (_ <? _) = false |- _ => apply Z.ltb_ge in H
         | H : (_ <=? _) = true |- _ => apply Z.leb_le in H
         | H : (_ <=? _) = false |- _ => apply Z.leb_gt in H
         end.

Lemma enter_preserves n w (ts : list thread) i f :
  mutex_inv n w ts -> ts !! i = Some Idle ->
  mutex_inv n w (<[i := Running (entry f)]> ts).
Proof.
  intros Hinv Hi.
  apply (mutex_inv_update n w w ts i Idle); auto.
  - left; reflexivity.
  - destruct f; reflexivity.
  - intros C T HC HC' Hc Ht Hcount Hu Htok.
    assert (counted_in w (tid i) (Running (entry f)) = counted_in w (tid i) Idle) as ->
      by (destruct f; reflexivity).
    assert (token_in w (tid i) (Running (entry f)) = token_in w (tid i) Idle) as ->
      by (destruct f; reflexivity).
    replace (C - counted_in w (tid i) Idle + counted_in w (tid i) Idle) with C by lia.
    repeat split; auto; lia.
Qed.

Ltac wrap_elim :=
  repeat match goal with
         | H : wrap32 ?X = ?k |- _ => apply (wrap32_eq_iff X k) in H; [|lia|lia]
         | H : wrap32 ?X <> ?k |- _ => rewrite (wrap32_eq_iff X k) in H by lia
         end.

Ltac split_ifs :=
  repeat match goal with
         | |- context [if ?b then _ else _] => destruct b eqn:?
         | H : context [if ?b then _ else _] |- _ => destruct b eqn:?
         end.

Ltac unfold_inv :=
  unfold counted_in, token_in, units, has_sema, LONG_MAX in *; unfold own in *; cbn in *;
  use_bits; cbn in *;
  rewrite ?Z.eqb_refl, ?zero_is_not_tid, ?tid_match_zero in *; cbn in *.

Ltac inv_arith :=
  let C := fresh "C" in let T := fresh "T" in
  let HC := fresh "HC" in let HC' := fresh "HC'" in
  let Hc := fresh "Hc" in let Ht := fresh "Ht" in
  let Hcount := fresh "Hcount" in let Hu := fresh "Hu" in let Htok := fresh "Htok" in
  intros C T HC HC' Hc Ht Hcount Hu Htok;
  unfold_inv; wrap_facts;
  rewrite ?Hcount in *; rewrite ?wrap32_add_l, ?wrap32_sub_l in *;
  wrap_elim; split_ifs; wrap_facts;
  repeat split; try lia; try (f_equal; lia); try (subst; reflexivity).

Ltac inv_side :=
  first
    [ left; reflexivity
    | right; left; split; [reflexivity | unfold_inv; reflexivity]
    | right; right; split; [reflexivity | unfold_inv; wrap_facts; congruence ] ].

Lemma next_preserves n w (ts : list thread) i p a p' w' :
  Z.of_nat n < 2 ^ 32 ->
  mutex_inv n w ts -> ts !! i = Some (Running p) ->
  thread_step (tid i) p w = Next a p' w' ->
  mutex_inv n w' (<[i := Running p']> ts).
Proof.
  intros Hn Hinv Hi Hstep.
  pose proof (inv_req _ _ _ Hinv i _ Hi) as Hr.
  revert a p' w' Hstep. destruct_pcs; intros a p' w' Hstep.
  all: split_step Hstep; injection Hstep as <- <- <-.
  all: cbn in Hr; unfold own in Hr; norm_bools.
  all: apply (mutex_inv_update n w _ ts i _ _ Hinv Hi); clear Hinv Hi.
  all: try solve [inv_side].
  all: try solve [unfold_inv; auto; congruence].
  all: solve [inv_arith].
Qed.

Lemma return_preserves n w (ts : list thread) i p a rv w' :
  Z.of_nat n < 2 ^ 32 ->
  mutex_inv n w ts -> ts !! i = Some (Running p) ->
  thread_step (tid i) p w = Return a rv w' ->
  mutex_inv n w' (<[i := Idle]> ts).
Proof.
  intros Hn Hinv Hi Hstep.
  pose proof (inv_req _ _ _ Hinv i _ Hi) as Hr.
  revert a rv w' Hstep. destruct_pcs; intros a rv w' Hstep.
  all: split_step Hstep; injection Hstep as <- <- <-.
  all: cbn in Hr; unfold own in Hr; norm_bools.
  all: apply (mutex_inv_update n w _ ts i _ _ Hinv Hi); clear Hinv Hi.
  all: try solve [inv_side].
  all: try solve [unfold_inv; auto; congruence].
  all: solve [inv_arith].
Qed.

(** Every case respects the owner discipline. *)
Lemma step_discipline n w (ts : list thread) i p :
  mutex_inv n w ts -> ts !! i = Some (Running p) ->
  match thread_step (tid i) p w with
  | Next _ _ w' | Return _ _ w' => owner_discipline w w' i (Running p)
  | _ => True
  end.
Proof.
  intros Hinv Hi.
  pose proof (inv_req _ _ _ Hinv i _ Hi) as Hr. clear Hinv Hi.
  destruct (thread_step (tid i) p w) as [a p' w'|a rv w'| |] eqn:Hstep; auto.
  - revert a p' w' Hstep. destruct_pcs; intros a p' w' Hstep.
    all: split_step Hstep; injection Hstep as <- <- <-.
    all: cbn in Hr; unfold own in Hr; norm_bools.
    all: solve [inv_side].
  - revert a rv w' Hstep. destruct_pcs; intros a rv w' Hstep.
    all: split_step Hstep; injection Hstep as <- <- <-.
    all: cbn in Hr; unfold own in Hr; norm_bools.
    all: solve [inv_side].
Qed.

Lemma wsum_idle g k n :
  (forall i, g (tid i) Idle = 0) -> wsum g k (repeat Idle n) = 0.
Proof.
  intros Hg. revert k. induction n as [|n IH]; intros k; simpl; [reflexivity|].
  rewrite Hg, IH. reflexivity.
Qed.

Lemma init_inv n : mutex_inv n init_world (repeat Idle n).
Proof.
  assert (forall i, counted_in init_world (tid i) Idle = 0) as Hc.
  { intros i. unfold counted_in, own. cbn. now rewrite tid_match_zero. }
  assert (forall i, token_in init_world (tid i) Idle = 0) as Ht.
  { intros i. unfold token_in, own. cbn. now rewrite tid_match_zero. }
  split.
  - apply repeat_length.
  - intros i th Hi. apply list_elem_of_lookup_2, list_elem_of_In in Hi.
    apply repeat_spec in Hi as ->. reflexivity.
  - rewrite wsum_idle by exact Hc. reflexivity.
  - cbn. lia.
  - rewrite !wsum_idle by assumption. reflexivity.
Qed.

Lemma step_preserves n s i c s' :
  Z.of_nat n < 2 ^ 32 -> sys_inv n s -> sys_step i c s = Some s' -> sys_inv n s'.
Proof.
  intros Hn Hinv Hstep. destruct s as [w ts|]; [|discriminate]. simpl in *.
  destruct (ts !! i) as [[|p]|] eqn:Hi; destruct c as [f|]; try discriminate.
  - injection Hstep as <-. now apply enter_preserves.
  - destruct (thread_step (tid i) p w) as [a p' w'|a rv w'| |] eqn:Hth;
      try discriminate; injection Hstep as <-; simpl; auto.
    + eapply next_preserves; eauto.
    + eapply return_preserves; eauto.
Qed.

Lemma reachable_inv n s :
  Z.of_nat n < 2 ^ 32 -> reachable n s -> sys_inv n s.
Proof.
  intros Hn H. induction H as [|s i c s' _ IH Hstep].
  - apply init_inv.
  - eapply step_preserves; eauto.
Qed.

Lemma run_schedule_reachable n sched s s' :
  reachable n s -> run_schedule sched s = Some s' -> reachable n s'.
Proof.
  revert s. induction sched as [|[i c] rest IH]; intros s Hs Hrun; simpl in Hrun.
  - now injection Hrun as <-.
  - destruct (sys_step i c s) as [s1|] eqn:Hstep; [|discriminate].
    eapply IH; [|exact Hrun]. eapply reach_step; eauto.
Qed.

(** At most one thread has the lock. *)
Lemma holder_unique n w (ts : list thread) i j thi thj :
  mutex_inv n w ts ->
  ts !! i = Some thi -> ts !! j = Some thj ->
  holds w i thi -> holds w j thj -> i = j.
Proof.
  intros Hinv Hi Hj Hhi Hhj.
  destruct (decide (i = j)) as [|Hne]; [assumption|exfalso].
  pose proof (wsum_ge_two (token_in w) 0 ts i j thi thj
                (fun s y => proj1 (token_range _)) Hne Hi Hj) as Hsum.
  simpl in Hsum. unfold token_in at 1 2 in Hsum.
  unfold holds in Hhi, Hhj. rewrite Hhi, Hhj in Hsum. simpl in Hsum.
  pose proof (inv_token _ _ _ Hinv). pose proof (inv_units _ _ _ Hinv).
  destruct (wsum (counted_in w) 0 ts =? 0); lia.
Qed.

Lemma owner_holds n w (ts : list thread) i th :
  mutex_inv n w ts -> ts !! i = Some th -> m_owner w = tid i -> holds w i th.
Proof.
  intros Hinv Hi Hown.
  pose proof (inv_req _ _ _ Hinv i th Hi) as Hr.
  unfold holds, own in *. rewrite (proj2 (Z.eqb_eq _ _) Hown) in *.
  eapply owner_is_holding; eauto.
Qed.

(** No thread changes what another thread reads when it compares the owner
    field with its own id. *)
Lemma owner_stable n s i j c w ts w' ts' :
  Z.of_nat n < 2 ^ 32 -> reachable n s ->
  s = Live w ts -> sys_step j c s = Some (Live w' ts') ->
  i <> j -> (i < n)%nat ->
  (m_owner w' = tid i <-> m_owner w = tid i).
Proof.
  intros Hn Hreach -> Hstep Hne Hi.
  pose proof (reachable_inv n _ Hn Hreach) as Hinv. simpl in Hinv.
  simpl in Hstep.
  destruct (ts !! j) as [[|p]|] eqn:Hj; destruct c as [f|]; try discriminate.
  - injection Hstep as <- <-. tauto.
  - pose proof (step_discipline n w ts j p Hinv Hj) as Hd.
    assert (exists x, ts !! i = Some x) as [x Hx].
    { apply lookup_lt_is_Some_2. rewrite (inv_len _ _ _ Hinv). exact Hi. }
    destruct (thread_step (tid j) p w) as [a p' w1|a rv w1| |] eqn:Hth;
      try discriminate; injection Hstep as <- <-.
    all: pose proof (others_own n w w1 ts j _ Hinv Hj Hd i x Hne Hx) as Ho.
    all: unfold own in Ho.
    all: rewrite <- !Z.eqb_eq, Ho; tauto.
Qed.


(** ** Consequences of the invariant of the mutex *)

Lemma wsum_pos_elem g : forall (ts : list thread) k,
  (forall s x, 0 <= g s x) -> 0 < wsum g k ts ->
  exists j th, ts !! j = Some th /\ 0 < g (tid (k + j)) th.
Proof.
  induction ts as [|x r IH]; intros k Hg Hs; cbn [wsum] in Hs; [lia|].
  destruct (Z_lt_ge_dec 0 (g (tid k) x)) as [Hx|Hx].
  - exists 0%nat, x. rewrite Nat.add_0_r. auto.
  - destruct (IH (S k) Hg ltac:(lia)) as (j & th & Hj & Hp).
    exists (S j), th. replace (k + S j)%nat with (S k + j)%nat by lia. auto.
Qed.

Lemma wsum_zero_elem g (ts : list thread) j th :
  (forall s x, 0 <= g s x) -> wsum g 0 ts = 0 -> ts !! j = Some th ->
  g (tid j) th = 0.
Proof.
  intros Hg Hs Hj.
  pose proof (wsum_ge_one g 0 ts j th Hg Hj) as H. cbn in H.
  pose proof (Hg (tid j) th). lia.
Qed.

Lemma token_nonneg (w : world) s x : 0 <= token_in w s x.
Proof. unfold token_in. apply token_range. Qed.

Lemma counted_nonneg (w : world) s x : 0 <= counted_in w s x.
Proof. unfold counted_in. apply counted_range. Qed.

Lemma units_le_one n w ts : mutex_inv n w ts -> 0 <= units w <= 1.
Proof.
  intros [_ _ _ Hu Ht].
  pose proof (wsum_nonneg (token_in w) 0 ts (token_nonneg w)).
  destruct (wsum (counted_in w) 0 ts =? 0); lia.
Qed.

(** Another thread has the lock, or is handing it over, whenever one is
    queued and the semaphore is empty. *)
Lemma queued_has_peer n w ts i th :
  mutex_inv n w ts -> ts !! i = Some th ->
  thread_phase (own w (tid i)) th = Queued -> units w = 0 ->
  exists j thj, j <> i /\ ts !! j = Some thj /\ token_in w (tid j) thj = 1.
Proof.
  intros Hinv Hi Hq Hu.
  pose proof (inv_token n w ts Hinv) as Ht.
  pose proof (wsum_ge_one (counted_in w) 0 ts i th (counted_nonneg w) Hi) as Hc.
  cbn in Hc. unfold counted_in in Hc at 1. rewrite Hq in Hc. cbn in Hc.
  assert ((wsum (counted_in w) 0 ts =? 0) = false) as E by (apply Z.eqb_neq; lia).
  rewrite E in Ht.
  destruct (wsum_pos_elem (token_in w) ts 0 (token_nonneg w) ltac:(lia))
    as (j & thj & Hj & Hp).
  cbn in Hp. exists j, thj. split; [|split; [exact Hj|]].
  - intros ->. rewrite Hi in Hj. injection Hj as <-.
    unfold token_in in Hp. rewrite Hq in Hp. cbn in Hp. lia.
  - unfold token_in in *. pose proof (token_range (thread_phase (own w (tid j)) thj)). lia.
Qed.

Lemma handing_empties n w ts i th :
  mutex_inv n w ts -> ts !! i = Some th ->
  token_in w (tid i) th = 1 -> units w = 0.
Proof.
  intros Hinv Hi Ht.
  pose proof (inv_token n w ts Hinv) as Hsum.
  pose proof (inv_units n w ts Hinv) as Hu.
  pose proof (wsum_ge_one (token_in w) 0 ts i th (token_nonneg w) Hi) as Hge.
  cbn in Hge.
  destruct (wsum (counted_in w) 0 ts =? 0); lia.
Qed.


(** ** Executions of one function *)

Section Runs.
Context {W A PC : Type} (step : PC -> W -> outcome W A PC).

(** A run that returned is an execution. *)
Lemma run_with_runs env : forall pc w tr v w',
  run_with step pc w env = (tr, Returned v w') -> runs step pc tr v w'.
Proof.
  induction env as [|e env IH]; intros pc w tr v w' H; simpl in H; [discriminate|].
  destruct (step pc (e w)) as [a pc1 w1|a v1 w1| |] eqn:Hs.
  - destruct (run_with step pc1 w1 env) as [tr1 r1] eqn:Hr.
    injection H as <- ->. eapply runs_next; eauto.
  - injection H as <- <- <-. eapply runs_return; eauto.
  - eauto.
  - discriminate.
Qed.

(** A thread that stays blocked keeps its place, however many slots it gets. *)
Lemma blocked_stays pc w :
  step pc w = Blocked ->
  forall k, run_with step pc w (alone k) = ([], Pending pc w).
Proof.
  intros Hb k. induction k as [|k IH]; [reflexivity|].
  unfold alone in *. simpl. rewrite Hb. exact IH.
Qed.

(** Two descriptions of the same cases run alike. *)
Lemma run_with_ext (step' : PC -> W -> outcome W A PC) :
  (forall pc w, step' pc w = step pc w) ->
  forall env pc w, run_with step' pc w env = run_with step pc w env.
Proof.
  intros He. induction env as [|e env IH]; intros pc w; simpl; [reflexivity|].
  rewrite He. destruct (step pc (e w)); auto; rewrite IH; reflexivity.
Qed.

(** A run continued. *)
Lemma run_with_app env1 : forall pc w env2,
  run_with step pc w (env1 ++ env2)
  = match run_with step pc w env1 with
    | (tr1, Pending pc1 w1) =>
        let (tr2, r) := run_with step pc1 w1 env2 in (tr1 ++ tr2, r)
    | x => x
    end.
Proof.
  induction env1 as [|e env1 IH]; intros pc w env2; simpl.
  - destruct (run_with step pc w env2); reflexivity.
  - destruct (step pc (e w)) as [a pc1 w1|a v1 w1| |]; auto.
    rewrite IH.
    destruct (run_with step pc1 w1 env1) as [tr1 [v w'| |pc2 w2]]; auto.
    destruct (run_with step pc2 w2 env2); reflexivity.
Qed.
End Runs.

Section Calls.
Context {W A P Q : Type}.
Context (callee : P -> W -> outcome W A P) (caller : Q -> W -> outcome W A Q).
Context (inj : P -> Q).

(** A call in the middle of a function: the caller's execution from a
    point inside the callee is an execution of the callee followed by an
    execution of the caller from the return point. *)
Lemma runs_call (k : Z -> Q) :
  (forall p w, caller (inj p) w = call (callee p w) inj k) ->
  forall q tr v w', runs caller q tr v w' -> forall p, q = inj p ->
  exists tr1 v1 w1 tr2,
    runs callee p tr1 v1 w1 /\ runs caller (k v1) tr2 v w' /\ tr = tr1 ++ tr2.
Proof.
  intros Hcall q tr v w' H.
  induction H as [pc w a v w' Hs|pc w a pc' w1 tr v w' Hs Hr IH]; intros p ->.
  - rewrite Hcall in Hs. destruct (callee p w); discriminate.
  - rewrite Hcall in Hs. destruct (callee p w) as [a0 p0 w0|a0 v0 w0| |] eqn:Hc;
      try discriminate; injection Hs as <- <- <-.
    + destruct (IH p0 eq_refl) as (tr1 & v1 & w2 & tr2 & H1 & H2 & ->).
      exists (a0 :: tr1), v1, w2, tr2. split; [|split]; auto.
      eapply runs_next; eauto.
    + exists [a0], v0, w0, tr. split; [|split]; auto.
      eapply runs_return; eauto.
Qed.

(** A call in tail position. *)
Lemma runs_tail_call :
  (forall p w, caller (inj p) w = tail_call (callee p w) inj) ->
  forall q tr v w', runs caller q tr v w' -> forall p, q = inj p ->
  runs callee p tr v w'.
Proof.
  intros Hcall q tr v w' H.
  induction H as [pc w a v w' Hs|pc w a pc' w1 tr v w' Hs Hr IH]; intros p ->.
  - rewrite Hcall in Hs. destruct (callee p w) eqn:Hc; try discriminate.
    injection Hs as <- <- <-. eapply runs_return; eauto.
  - rewrite Hcall in Hs. destruct (callee p w) as [a0 p0 w0|a0 v0 w0| |] eqn:Hc;
      try discriminate; injection Hs as <- <- <-.
    eapply runs_next; eauto.
Qed.
End Calls.

Section Histories.
Context {W A P Q : Type}.
Context (callee : P -> W -> outcome W A P) (caller : Q -> W -> outcome W A Q).
Context (inj : P -> Q).

(** The same for executions with their states. *)
Lemma history_call (k : Z -> Q) :
  (forall p w, caller (inj p) w = call (callee p w) inj k) ->
  forall q h v, history caller q h v -> forall p, q = inj p ->
  exists h1 v1 h2,
    history callee p h1 v1 /\ history caller (k v1) h2 v /\ h = h1 ++ h2.
Proof.
  intros Hcall q h v H.
  induction H as [pc w a v w' Hs|pc w a pc' w1 h v Hs Hr IH]; intros p ->.
  - rewrite Hcall in Hs. destruct (callee p w); discriminate.
  - rewrite Hcall in Hs. destruct (callee p w) as [a0 p0 w0|a0 v0 w0| |] eqn:Hc;
      try discriminate; injection Hs as <- <- <-.
    + destruct (IH p0 eq_refl) as (h1 & v1 & h2 & H1 & H2 & ->).
      exists ((w, a0, w0) :: h1), v1, h2. split; [|split]; auto.
      eapply history_next; eauto.
    + exists [(w, a0, w0)], v0, h. split; [|split]; auto.
      eapply history_return; eauto.
Qed.

Lemma history_tail_call :
  (forall p w, caller (inj p) w = tail_call (callee p w) inj) ->
  forall q h v, history caller q h v -> forall p, q = inj p ->
  history callee p h v.
Proof.
  intros Hcall q h v H.
  induction H as [pc w a v w' Hs|pc w a pc' w1 h v Hs Hr IH]; intros p ->.
  - rewrite Hcall in Hs. destruct (callee p w) eqn:Hc; try discriminate.
    injection Hs as <- <- <-. eapply history_return; eauto.
  - rewrite Hcall in Hs. destruct (callee p w) as [a0 p0 w0|a0 v0 w0| |] eqn:Hc;
      try discriminate; injection Hs as <- <- <-.
    eapply history_next; eauto.
Qed.
End Histories.

(** Inversion of an execution at a known program point. *)
Ltac runs_inv H :=
  let Hs := fresh "Hs" in
  inversion H as [? ? ? ? ? Hs|? ? ? ? ? ? ? ? Hs ?]; subst; clear H;
  split_step Hs;
  first [ injection Hs as <- <- <- | idtac ].

(** ** Mutex: lock and unlock (thread-local view) *)

Lemma lock_runs_from_owner self tr v w' :
  runs (qemu_mutex_lock self) L_owner tr v w' ->
  tr = [a_owner_store self] /\ v = 0 /\ m_owner w' = self.
Proof. intros H. runs_inv H. auto. Qed.

Lemma lock_runs_from_wait self h tr v w' :
  runs (qemu_mutex_lock self) (L_wait h) tr v w' ->
  exists ok, tr = [a_msem_wait ok; a_owner_store self] /\ v = 0 /\ m_owner w' = self.
Proof.
  intros H. runs_inv H.
  all: match goal with H : runs _ L_owner _ _ _ |- _ =>
         apply lock_runs_from_owner in H as (-> & -> & ?) end.
  all: eauto.
Qed.

Lemma lock_runs self tr v w' :
  runs (qemu_mutex_lock self) L_assert tr v w' ->
  v = 0 /\ m_owner w' = self /\
  exists old,
    (wrap32 (old + 1) = 1 /\
     tr = [a_assert; a_count_inc old (wrap32 (old + 1)); a_owner_store self])
    \/ (wrap32 (old + 1) <> 1 /\
        exists ts h w1 ok,
          runs qemu_mutex_semaphore MS_test ts h w1 /\
          tr = [a_assert; a_count_inc old (wrap32 (old + 1))] ++ ts
               ++ [a_msem_wait ok; a_owner_store self]).
Proof.
  intros H. runs_inv H.
  match goal with H : runs _ L_inc _ _ _ |- _ => runs_inv H end.
  - match goal with H : runs _ L_owner _ _ _ |- _ =>
      apply lock_runs_from_owner in H as (-> & -> & ?) end.
    match goal with Hc : (_ =? 1) = true |- _ => apply Z.eqb_eq in Hc; rename Hc into Hc' end.
    split; [|split]; auto.
    eexists. left. split; [exact Hc'|reflexivity].
  - match goal with H : runs _ (L_sema _) _ _ _ |- _ =>
      apply (runs_call qemu_mutex_semaphore (qemu_mutex_lock self) L_sema L_wait
               (fun p w => eq_refl) _ _ _ _) with (p := MS_test) in H
        as (ts & h & ws & tr2 & Hsem & Hrest & ->); [|reflexivity] end.
    apply lock_runs_from_wait in Hrest as (ok & -> & -> & ?).
    match goal with Hc : (_ =? 1) = false |- _ => apply Z.eqb_neq in Hc; rename Hc into Hc' end.
    split; [|split]; auto.
    eexists. right. split; [exact Hc'|].
    exists ts, h, ws, ok. split; [assumption|reflexivity].
Qed.

Lemma unlock_runs self tr v w' :
  runs (qemu_mutex_unlock self) U_assert tr v w' ->
  v = 0 /\
  exists old,
    (wrap32 (old - 1) = 0 /\
     tr = [a_assert; a_owner_store 0; a_count_dec old (wrap32 (old - 1))])
    \/ (wrap32 (old - 1) <> 0 /\
        exists ts h w1 ok,
          runs qemu_mutex_semaphore MS_test ts h w1 /\
          tr = [a_assert; a_owner_store 0; a_count_dec old (wrap32 (old - 1))]
               ++ ts ++ [a_msem_release ok]).
Proof.
  intros H. runs_inv H.
  match goal with H : runs _ U_owner _ _ _ |- _ => runs_inv H end.
  match goal with H : runs _ U_dec _ _ _ |- _ => runs_inv H end.
  - match goal with Hc : (_ =? 0) = true |- _ => apply Z.eqb_eq in Hc; rename Hc into Hc' end.
    split; auto. eexists. left. split; [exact Hc'|reflexivity].
  - match goal with Hc : (_ =? 0) = false |- _ => apply Z.eqb_neq in Hc; rename Hc into Hc' end.
    match goal with H : runs _ (U_sema _) _ _ _ |- _ =>
      apply (runs_call qemu_mutex_semaphore (qemu_mutex_unlock self) U_sema U_release
               (fun p w => eq_refl) _ _ _ _) with (p := MS_test) in H
        as (ts & h & ws & tr2 & Hsem & Hrest & ->); [|reflexivity] end.
    assert (v = 0 /\ exists ok, tr2 = [a_msem_release ok]) as (-> & ok & ->).
    { runs_inv Hrest; split; eauto. }
    split; auto. eexists. right. split; [exact Hc'|].
    exists ts, h, ws, ok. split; [assumption|reflexivity].
Qed.

(** ** Executions with their states: the mutex *)

Ltac hist_inv H :=
  let Hs := fresh "Hs" in
  inversion H as [? ? ? ? ? Hs|? ? ? ? ? ? ? Hs ?]; subst; clear H;
  split_step Hs;
  first [ injection Hs as <- <- <- | idtac ].

Ltac shape_side :=
  repeat match goal with H : m_sema _ = _ |- _ => rewrite H end;
  first [ reflexivity | congruence | discriminate | assumption ].

Lemma sema_history h v :
  history qemu_mutex_semaphore MS_test h v -> semaphore_history h v.
Proof.
  intros H. hist_inv H.
  all: repeat match goal with
              | H : history _ MS_load _ _ |- _ => hist_inv H
              | H : history _ MS_create _ _ |- _ => hist_inv H
              | H : history _ MS_cas _ _ |- _ => hist_inv H
              | H : history _ MS_close _ _ |- _ => hist_inv H
              end.
  all: unfold semaphore_history, handle_of.
  all: first
         [ left; do 2 eexists; split; [|split; [|reflexivity]]; shape_side
         | right; left; do 3 eexists;
           split; [|split; [|split; [|reflexivity]]]; shape_side
         | right; right; do 5 eexists;
           split; [|split; [|split; [|reflexivity]]]; shape_side ].
Qed.

Lemma lock_history_from_owner self h v :
  history (qemu_mutex_lock self) L_owner h v ->
  v = 0 /\ exists w, h = [(w, a_owner_store self, set_m_owner self w)].
Proof. intros H. hist_inv H. eauto. Qed.

Lemma lock_history_from_wait self hv h v :
  history (qemu_mutex_lock self) (L_wait hv) h v ->
  v = 0 /\ exists w3 ok w3' w2,
    unit_taken hv w3 ok w3'
    /\ h = [(w3, a_msem_wait ok, w3')]
           ++ [(w2, a_owner_store self, set_m_owner self w2)].
Proof.
  intros H. hist_inv H.
  all: match goal with H : history _ L_owner _ _ |- _ =>
         apply lock_history_from_owner in H as (-> & w2 & ->) end.
  all: split; [reflexivity|]; do 4 eexists; split; [|reflexivity].
  all: unfold unit_taken; wrap_facts.
  - auto.
  - split; [assumption|]. eexists. split; [eassumption|]. split; [assumption|reflexivity].
  - auto.
Qed.

Lemma lock_histories self h v :
  history (qemu_mutex_lock self) L_assert h v -> v = 0 /\ lock_history self h.
Proof.
  intros H. hist_inv H.
  match goal with H : history _ L_inc _ _ |- _ => hist_inv H end.
  - match goal with H : history _ L_owner _ _ |- _ =>
      apply lock_history_from_owner in H as (-> & w2 & ->) end.
    wrap_facts. split; [reflexivity|].
    do 3 eexists. split; [eassumption|]. left. split; [eassumption|reflexivity].
  - match goal with H : history _ (L_sema _) _ _ |- _ =>
      apply (history_call qemu_mutex_semaphore (qemu_mutex_lock self) L_sema L_wait
               (fun p w => eq_refl) _ _ _) with (p := MS_test) in H
        as (hs & hv & h2 & Hsem & Hrest & ->); [|reflexivity] end.
    apply sema_history in Hsem.
    apply lock_history_from_wait in Hrest as (-> & w3 & ok & w3' & w2 & Hu & ->).
    wrap_facts. split; [reflexivity|].
    exists w, w0, w2. split; [assumption|]. right. split; [assumption|].
    exists hs, hv, w3, ok, w3'. split; [assumption|]. split; [assumption|reflexivity].
Qed.

Lemma unlock_histories self h v :
  history (qemu_mutex_unlock self) U_assert h v -> v = 0 /\ unlock_history self h.
Proof.
  intros H. hist_inv H.
  match goal with H : history _ U_owner _ _ |- _ => hist_inv H end.
  match goal with H : history _ U_dec _ _ |- _ => hist_inv H end.
  - wrap_facts. split; [reflexivity|].
    do 3 eexists. split; [eassumption|]. left. split; [eassumption|reflexivity].
  - match goal with H : history _ (U_sema _) _ _ |- _ =>
      apply (history_call qemu_mutex_semaphore (qemu_mutex_unlock self) U_sema U_release
               (fun p w => eq_refl) _ _ _) with (p := MS_test) in H
        as (hs & hv & h2 & Hsem & Hrest & ->); [|reflexivity] end.
    apply sema_history in Hsem.
    wrap_facts.
    assert (v = 0 /\ exists w3 ok w3',
               unit_released hv w3 ok w3' /\ h2 = [(w3, a_msem_release ok, w3')])
      as (-> & w3 & ok & w3' & Hu & ->).
    { hist_inv Hrest.
      all: split; [reflexivity|]; do 3 eexists; split; [|reflexivity].
      all: unfold unit_released; wrap_facts.
      - auto.
      - split; [assumption|]. eexists. split; [eassumption|].
        split; [unfold LONG_MAX in *; lia|reflexivity].
      - split; [|reflexivity]. right. right. eexists. split; [eassumption|].
        unfold LONG_MAX in *. lia.
      - auto. }
    split; [reflexivity|].
    exists w, w0, w1. split; [assumption|]. right. split; [assumption|].
    exists hs, hv, w3, ok, w3'. split; [assumption|]. split; [assumption|reflexivity].
Qed.

(** *** The wait and the release in a pool of threads *)

Lemma lock_wait_in_pool n w (ts : list thread) i p h :
  mutex_inv n w ts -> ts !! i = Some (Running p) -> at_lock_wait p = Some h ->
  h <> 0
  /\ ((m_sema w = Some 0 /\ thread_step (tid i) p w = Blocked
       /\ exists j th, j <> i /\ ts !! j = Some th
            /\ (thread_phase (own w (tid j)) th = Holding
                \/ thread_phase (own w (tid j)) th = Handing))
      \/ (m_sema w = Some 1
          /\ exists p', thread_step (tid i) p w
                        = Next (a_msem_wait true) p' (set_m_sema (Some 0) w))).
Proof.
  intros Hinv Hi Hat.
  pose proof (inv_req n w ts Hinv i _ Hi) as Hr.
  pose proof (units_le_one n w ts Hinv) as Hu.
  assert (Hq : thread_phase (own w (tid i)) (Running p) = Queued).
  { destruct p as [q|q|q|q|q|q]; try discriminate Hat; destruct q; try discriminate Hat.
    - reflexivity.
    - destruct p; try discriminate Hat. reflexivity. }
  assert (Hreq : h <> 0 /\ has_sema w = true).
  { destruct p as [q|q|q|q|q|q]; try discriminate Hat; destruct q; try discriminate Hat.
    - injection Hat as ->. cbn in Hr. norm_bools. wrap_facts. auto.
    - destruct p; try discriminate Hat. injection Hat as ->.
      cbn in Hr. norm_bools. wrap_facts. auto. }
  destruct Hreq as [Hh Hs]. split; [exact Hh|].
  unfold has_sema, units in *. destruct (m_sema w) as [k|] eqn:Hm; [|discriminate].
  assert (Hb : (h =? 0) = false) by (apply Z.eqb_neq; exact Hh).
  destruct (Z.eq_dec k 0) as [->|Hk].
  - left. split; [reflexivity|]. split.
    + destruct p as [q|q|q|q|q|q]; try discriminate Hat; destruct q; try discriminate Hat.
      * injection Hat as ->. cbn. unfold wait_msem. rewrite Hb, Hm. reflexivity.
      * destruct p; try discriminate Hat. injection Hat as ->.
        cbn. unfold wait_msem. rewrite Hb, Hm. reflexivity.
    + assert (Hz : units w = 0) by (unfold units; rewrite Hm; reflexivity).
      destruct (queued_has_peer n w ts i _ Hinv Hi Hq Hz) as (j & th & Hne & Hj & Ht).
      exists j, th. split; [exact Hne|]. split; [exact Hj|].
      unfold token_in in Ht.
      destruct (thread_phase (own w (tid j)) th); cbn in Ht; auto; lia.
  - right. assert (k = 1) as -> by lia. split; [reflexivity|].
    destruct p as [q|q|q|q|q|q]; try discriminate Hat; destruct q; try discriminate Hat.
    + injection Hat as ->. eexists. cbn. unfold wait_msem. rewrite Hb, Hm. reflexivity.
    + destruct p; try discriminate Hat. injection Hat as ->.
      eexists. cbn. unfold wait_msem. rewrite Hb, Hm. reflexivity.
Qed.

Lemma release_in_pool n w (ts : list thread) i p h :
  mutex_inv n w ts -> ts !! i = Some (Running p) -> at_release p = Some h ->
  h <> 0 /\ m_sema w = Some 0
  /\ match thread_step (tid i) p w with
     | Next a _ w' | Return a _ w' =>
         a = a_msem_release true /\ w' = set_m_sema (Some 1) w
     | _ => False
     end.
Proof.
  intros Hinv Hi Hat.
  pose proof (inv_req n w ts Hinv i _ Hi) as Hr.
  pose proof (inv_units n w ts Hinv) as Hu.
  assert (Ht : token_in w (tid i) (Running p) = 1).
  { destruct p as [q|q|q|q|q|q]; try discriminate Hat; destruct q; try discriminate Hat.
    - reflexivity.
    - destruct p; try discriminate Hat. reflexivity. }
  pose proof (handing_empties n w ts i _ Hinv Hi Ht) as Hz.
  assert (Hreq : h <> 0 /\ has_sema w = true).
  { destruct p as [q|q|q|q|q|q]; try discriminate Hat; destruct q; try discriminate Hat.
    - injection Hat as ->. cbn in Hr. norm_bools. wrap_facts. auto.
    - destruct p; try discriminate Hat. injection Hat as ->.
      cbn in Hr. norm_bools. wrap_facts. auto. }
  destruct Hreq as [Hh Hs]. split; [exact Hh|].
  unfold has_sema, units in *. destruct (m_sema w) as [k|] eqn:Hm; [|discriminate].
  subst k. split; [reflexivity|].
  assert (Hb : (h =? 0) = false) by (apply Z.eqb_neq; exact Hh).
  destruct p as [q|q|q|q|q|q]; try discriminate Hat; destruct q; try discriminate Hat.
  - injection Hat as ->. cbn. unfold release_msem. rewrite Hb, Hm.
    replace (0 + 1 <=? LONG_MAX) with true by reflexivity. cbn. auto.
  - destruct p; try discriminate Hat. injection Hat as ->.
    cbn. unfold release_msem. rewrite Hb, Hm.
    replace (0 + 1 <=? LONG_MAX) with true by reflexivity. cbn. auto.
Qed.

(** A contended lock on a mutex that has no semaphore yet: it creates one
    and waits on it, however long, until a unit is released. *)
Lemma lock_contended_alone self w k :
  m_owner w <> self -> wrap32 (m_count w + 1) <> 1 -> m_sema w = None ->
  let c := wrap32 (m_count w + 1) in
  let tr := [a_assert; a_count_inc (m_count w) c;
             a_sema_test true; a_sema_create; a_sema_cas true] in
  run_with (qemu_mutex_lock self) L_assert w (alone (5 + k))
  = (tr, Pending (L_wait 1) (set_m_sema (Some 0) (set_m_count c w)))
  /\ run_with (qemu_mutex_lock self) L_assert w
       (alone (5 + k) ++ [set_m_sema (Some 1)] ++ alone 1)
     = (tr ++ [a_msem_wait true; a_owner_store self],
        Returned 0 (set_m_owner self (set_m_sema (Some 0) (set_m_count c w)))).
Proof.
  intros Ho Hc Hs c tr.
  apply Z.eqb_neq in Ho. apply Z.eqb_neq in Hc.
  assert (Hfront : run_with (qemu_mutex_lock self) L_assert w (alone 5)
                   = (tr, Pending (L_wait 1)
                            (set_m_sema (Some 0) (set_m_count c w)))).
  { subst c tr. unfold alone. cbn. rewrite Ho. cbn. rewrite Hc. cbn.
    rewrite Hs. cbn. rewrite Hs. reflexivity. }
  assert (Hwait : run_with (qemu_mutex_lock self) L_assert w (alone (5 + k))
                  = (tr, Pending (L_wait 1)
                           (set_m_sema (Some 0) (set_m_count c w)))).
  { unfold alone. rewrite repeat_app. fold (@alone world 5) (@alone world k).
    rewrite run_with_app, Hfront.
    rewrite blocked_stays by reflexivity.
    rewrite app_nil_r. reflexivity. }
  split; [exact Hwait|].
  rewrite run_with_app, Hwait. reflexivity.
Qed.

(** C4.  On the emulation backend [qemu_mutex_lock] increments the shared
    counter atomically and acquires at once, without touching the semaphore,
    exactly when the increment is the transition 0 -> 1; for any other result
    it obtains the semaphore and waits on it, and that wait blocks while the
    semaphore is empty and takes one unit when it goes through.
    [qemu_mutex_unlock] clears the owner, then decrements the counter
    atomically, and releases one unit of the semaphore if and only if the
    decremented value is not zero.  Every complete execution is given with
    its states, whatever the other threads do in between.  Without
    contention lock and unlock run through in three cases each and never
    call the kernel.  In a pool of threads, in every reachable state, the
    wait of a lock is on the installed semaphore, which holds no unit (the
    thread is blocked, and another thread has the mutex or is handing it
    over) or one unit (which the wait takes); and the release of an unlock
    puts one unit into the installed, empty semaphore.  [CreateSemaphore],
    whose result the code does not check, is taken to succeed. *)
Theorem mutex_counter_protocol (self : Z) :
  (forall h v, history (qemu_mutex_lock self) L_assert h v ->
     v = 0 /\ lock_history self h)
  /\ (forall h v, history (qemu_mutex_unlock self) U_assert h v ->
        v = 0 /\ unlock_history self h)
  /\ (forall h v, history qemu_mutex_semaphore MS_test h v -> semaphore_history h v)
  /\ (forall old, is_long old -> wrap32 (old + 1) = 1 <-> old = 0)
  /\ (forall h w, h <> 0 -> m_sema w = Some 0 ->
        qemu_mutex_lock self (L_wait h) w = Blocked)
  /\ (forall h n w, h <> 0 -> m_sema w = Some n -> 0 < n ->
        qemu_mutex_lock self (L_wait h) w
        = Next (a_msem_wait true) L_owner (set_m_sema (Some (n - 1)) w))
  /\ (forall w, m_owner w <> self -> m_count w = 0 ->
        run_with (qemu_mutex_lock self) L_assert w (alone 3)
        = ([a_assert; a_count_inc 0 1; a_owner_store self],
           Returned 0 (set_m_owner self (set_m_count 1 w))))
  /\ (forall w k, m_owner w <> self -> wrap32 (m_count w + 1) <> 1 ->
        m_sema w = None ->
        let c := wrap32 (m_count w + 1) in
        let tr := [a_assert; a_count_inc (m_count w) c;
                   a_sema_test true; a_sema_create; a_sema_cas true] in
        run_with (qemu_mutex_lock self) L_assert w (alone (5 + k))
        = (tr, Pending (L_wait 1) (set_m_sema (Some 0) (set_m_count c w)))
        /\ run_with (qemu_mutex_lock self) L_assert w
             (alone (5 + k) ++ [set_m_sema (Some 1)] ++ alone 1)
           = (tr ++ [a_msem_wait true; a_owner_store self],
              Returned 0 (set_m_owner self
                            (set_m_sema (Some 0) (set_m_count c w)))))
  /\ (forall h n w, h <> 0 -> m_sema w = Some n -> n < LONG_MAX ->
        qemu_mutex_unlock self (U_release h) w
        = Return (a_msem_release true) 0 (set_m_sema (Some (n + 1)) w))
  /\ (forall w, m_owner w = self -> m_count w = 1 ->
        run_with (qemu_mutex_unlock self) U_assert w (alone 3)
        = ([a_assert; a_owner_store 0; a_count_dec 1 0],
           Returned 0 (set_m_count 0 (set_m_owner 0 w))))
  /\ (forall w, m_owner w = self -> wrap32 (m_count w - 1) <> 0 ->
        m_sema w = Some 0 ->
        let c := wrap32 (m_count w - 1) in
        run_with (qemu_mutex_unlock self) U_assert w (alone 6)
        = ([a_assert; a_owner_store 0; a_count_dec (m_count w) c;
            a_sema_test false; a_sema_load 1; a_msem_release true],
           Returned 0 (set_m_sema (Some 1) (set_m_count c (set_m_owner 0 w)))))
  /\ (forall n s, Z.of_nat n < 2 ^ 32 -> reachable n s ->
        match s with
        | Dead => True
        | Live w ts =>
            forall i p h, ts !! i = Some (Running p) ->
              (at_lock_wait p = Some h ->
               h <> 0
               /\ ((m_sema w = Some 0 /\ thread_step (tid i) p w = Blocked
                    /\ exists j th, j <> i /\ ts !! j = Some th
                         /\ (thread_phase (own w (tid j)) th = Holding
                             \/ thread_phase (own w (tid j)) th = Handing))
                   \/ (m_sema w = Some 1
                       /\ exists p', thread_step (tid i) p w
                                     = Next (a_msem_wait true) p'
                                         (set_m_sema (Some 0) w))))
              /\ (at_release p = Some h ->
                  h <> 0 /\ m_sema w = Some 0
                  /\ match thread_step (tid i) p w with
                     | Next a _ w' | Return a _ w' =>
                         a = a_msem_release true /\ w' = set_m_sema (Some 1) w
                     | _ => False
                     end)
        end).
Proof.
  split; [|split; [|split; [|split; [|split; [|split; [|split; [|split;
    [|split; [|split; [|split]]]]]]]]]].
  - apply lock_histories.
  - apply unlock_histories.
  - apply sema_history.
  - intros old H. split.
    + intros H0. unfold is_long in H.
      destruct (Z_lt_ge_dec (old + 1) (2 ^ 31)).
      * rewrite wrap32_small in H0 by (unfold is_long; lia). lia.
      * assert (old = 2 ^ 31 - 1) as -> by lia. vm_compute in H0. discriminate.
    + intros ->. reflexivity.
  - intros h w Hh Hs. cbn. unfold wait_msem.
    apply Z.eqb_neq in Hh. rewrite Hh, Hs. reflexivity.
  - intros h n w Hh Hs Hn. cbn. unfold wait_msem.
    apply Z.eqb_neq in Hh. rewrite Hh, Hs.
    apply Z.ltb_lt in Hn. rewrite Hn. reflexivity.
  - intros w Ho Hc. cbn. apply Z.eqb_neq in Ho. rewrite Ho. cbn.
    rewrite Hc. reflexivity.
  - intros w k. apply lock_contended_alone.
  - intros h n w Hh Hs Hn. cbn. unfold release_msem.
    apply Z.eqb_neq in Hh. rewrite Hh, Hs.
    assert ((n + 1 <=? LONG_MAX) = true) as -> by (apply Z.leb_le; lia).
    reflexivity.
  - intros w Ho Hc. cbn. apply Z.eqb_eq in Ho. rewrite Ho. cbn.
    rewrite Hc. reflexivity.
  - intros w Ho Hc Hs c. subst c.
    apply Z.eqb_eq in Ho. apply Z.eqb_neq in Hc.
    unfold alone. cbn. rewrite Ho. cbn. rewrite Hc. cbn.
    rewrite Hs. cbn. rewrite Hs. cbn. unfold release_msem. cbn. rewrite Hs.
    reflexivity.
  - intros n s Hn Hreach.
    pose proof (reachable_inv n s Hn Hreach) as Hinv.
    destruct s as [w ts|]; [|exact I]. cbn in Hinv.
    intros i p h Hi. split; intros Hat.
    + exact (lock_wait_in_pool n w ts i p h Hinv Hi Hat).
    + exact (release_in_pool n w ts i p h Hinv Hi Hat).
Qed.

(** ** Mutex: trylock *)

Lemma trylock_runs self tr v w' :
  runs (qemu_mutex_trylock self) T_assert tr v w' ->
  (v = 0 /\ m_owner w' = self /\
   tr = [a_assert; a_count_cas 0; a_owner_store self])
  \/ (v = 1 /\ exists old, old <> 0 /\ tr = [a_assert; a_count_cas old]).
Proof.
  intros H. runs_inv H.
  match goal with H : runs _ T_cas _ _ _ |- _ => runs_inv H end.
  - right. split; auto. eexists. split; [|reflexivity].
    match goal with Hc : (_ =? 0) = false |- _ => apply Z.eqb_neq in Hc; exact Hc end.
  - match goal with H : runs _ T_owner _ _ _ |- _ => runs_inv H end.
    left. match goal with Hc : (_ =? 0) = true |- _ => apply Z.eqb_eq in Hc; rewrite Hc end.
    auto.
Qed.

Lemma trylock_never_crashes_on_contention self env : forall w,
  Forall (respects_owner self) env -> m_owner w <> self ->
  forall tr, run_with (qemu_mutex_trylock self) T_assert w env <> (tr, Crashed).
Proof.
  destruct env as [|e1 env]; intros w Hrely Ho tr; simpl; [discriminate|].
  inversion Hrely as [|? ? He1 Hrely1]; subst.
  assert ((m_owner (e1 w) =? self) = false) as ->
    by (apply Z.eqb_neq; rewrite (He1 w); exact Ho).
  destruct env as [|e2 env]; cbn; [discriminate|].
  destruct (m_count (e2 (e1 w)) =? 0); [|discriminate].
  destruct env as [|e3 env]; cbn; discriminate.
Qed.

Lemma trylock_completes self env : forall w,
  (3 <= length env)%nat ->
  forall tr pc w', run_with (qemu_mutex_trylock self) T_assert w env <> (tr, Pending pc w').
Proof.
  destruct env as [|e1 [|e2 [|e3 env]]]; cbn; intros w Hlen tr pc w'; try lia.
  destruct (m_owner (e1 w) =? self); [discriminate|]. cbn.
  destruct (m_count (e2 (e1 w)) =? 0); cbn; discriminate.
Qed.

(** The counter is 0 exactly when no thread has the lock, waits for it or
    is handing it over. *)
Lemma wsum_zero g k (ts : list thread) :
  (forall s x, 0 <= g s x) ->
  wsum g k ts = 0 <-> (forall i th, ts !! i = Some th -> g (tid (k + i)) th = 0).
Proof.
  intros Hg. split.
  - intros H0 i th Hi. pose proof (wsum_ge_one g k ts i th Hg Hi).
    specialize (Hg (tid (k + i)) th). lia.
  - revert k. induction ts as [|x r IH]; intros k H; simpl; [reflexivity|].
    rewrite (IH (S k)).
    + specialize (H 0%nat x eq_refl). rewrite Nat.add_0_r in H. lia.
    + intros i th Hi. specialize (H (S i) th Hi).
      replace (k + S i)%nat with (S k + i)%nat in H by lia. exact H.
Qed.

Lemma counter_zero_iff_free n w (ts : list thread) :
  Z.of_nat n < 2 ^ 32 -> mutex_inv n w ts ->
  m_count w = 0 <->
  (forall i th, ts !! i = Some th -> thread_phase (own w (tid i)) th = Out).
Proof.
  intros Hn Hinv.
  pose proof (wsum_bounds (counted_in w) 0 ts (fun s x => counted_range _)) as Hb.
  rewrite (inv_len _ _ _ Hinv) in Hb.
  pose proof (inv_token _ _ _ Hinv) as Ht. pose proof (inv_units _ _ _ Hinv) as Hu.
  pose proof (wsum_nonneg (token_in w) 0 ts (fun s x => proj1 (token_range _))) as HT.
  rewrite (inv_count _ _ _ Hinv). split.
  - intros H0. apply (wrap32_eq_iff (wsum (counted_in w) 0 ts) 0) in H0; [|lia|lia].
    rewrite H0 in Ht. cbn in Ht.
    assert (wsum (token_in w) 0 ts = 0) as HT0 by lia.
    intros i th Hi.
    pose proof (proj1 (wsum_zero _ 0 ts (fun s x => proj1 (counted_range _))) H0 i th Hi) as Hc.
    pose proof (proj1 (wsum_zero _ 0 ts (fun s x => proj1 (token_range _))) HT0 i th Hi) as Hk.
    simpl in Hc, Hk. unfold counted_in in Hc. unfold token_in in Hk.
    destruct (thread_phase (own w (tid i)) th); simpl in *; try discriminate; reflexivity.
  - intros Hall.
    assert (wsum (counted_in w) 0 ts = 0) as ->; [|reflexivity].
    apply wsum_zero; [intros; apply counted_range|].
    intros i th Hi. simpl. unfold counted_in. now rewrite (Hall i th Hi).
Qed.

(** C6.  [qemu_mutex_trylock] never blocks: no case of it can be blocked,
    and three scheduling slots always finish it.  It is one compare-exchange
    of the counter from 0 to 1: it succeeds (returns 0, having recorded the
    caller as owner) exactly when the counter was 0 at the exchange, and in a
    process of any number of threads the counter is 0 exactly when no thread
    has the lock, queues for it or hands it over.  Failing because the lock
    is taken gives the return value 1 and leaves the mutex untouched; it is
    never fatal for a caller that is not the owner. *)
Theorem trylock_protocol (self : Z) :
  (forall pc w, qemu_mutex_trylock self pc w <> Blocked)
  /\ (forall w env, (3 <= length env)%nat ->
        forall tr pc w',
          run_with (qemu_mutex_trylock self) T_assert w env <> (tr, Pending pc w'))
  /\ (forall tr v w', runs (qemu_mutex_trylock self) T_assert tr v w' ->
        (v = 0 /\ m_owner w' = self /\
         tr = [a_assert; a_count_cas 0; a_owner_store self])
        \/ (v = 1 /\ exists old, old <> 0 /\ tr = [a_assert; a_count_cas old]))
  /\ (forall w, m_owner w <> self ->
        run_with (qemu_mutex_trylock self) T_assert w (alone 3)
        = if m_count w =? 0
          then ([a_assert; a_count_cas 0; a_owner_store self],
                Returned 0 (set_m_owner self (set_m_count 1 w)))
          else ([a_assert; a_count_cas (m_count w)], Returned 1 w))
  /\ (forall w env, Forall (respects_owner self) env -> m_owner w <> self ->
        forall tr, run_with (qemu_mutex_trylock self) T_assert w env <> (tr, Crashed))
  /\ (forall n s w ts, Z.of_nat n < 2 ^ 32 -> reachable n s -> s = Live w ts ->
        m_count w = 0 <->
        (forall i th, ts !! i = Some th -> thread_phase (own w (tid i)) th = Out)).
Proof.
  split; [|split; [|split; [|split; [|split]]]].
  - intros pc w. destruct pc; cbn.
    + destruct (m_owner w =? self); discriminate.
    + destruct (m_count w =? 0); discriminate.
    + discriminate.
  - intros w env. apply trylock_completes.
  - apply trylock_runs.
  - intros w Ho. cbn. apply Z.eqb_neq in Ho. rewrite Ho. cbn.
    destruct (m_count w =? 0) eqn:Hc; cbn; [|reflexivity].
    apply Z.eqb_eq in Hc. now rewrite Hc.
  - intros w env. apply trylock_never_crashes_on_contention.
  - intros n s w ts Hn Hreach ->.
    apply (counter_zero_iff_free n w ts Hn).
    apply (reachable_inv n _ Hn Hreach).
Qed.

(** C10.  [qemu_mutex_trylock] reports success as false: on both backends
    it returns 0 when it acquires the lock and 1, a true value, when the
    lock is already taken. *)
Theorem trylock_returns_false_on_success (self : Z) :
  (forall w, m_owner w <> self -> m_count w = 0 ->
     exists tr w', run_with (qemu_mutex_trylock self) T_assert w (alone 3)
                   = (tr, Returned 0 w')
                   /\ m_owner w' = self /\ m_count w' = 1)
  /\ (forall w, m_owner w <> self -> m_count w <> 0 ->
        exists tr, run_with (qemu_mutex_trylock self) T_assert w (alone 3)
                   = (tr, Returned 1 w))
  /\ (forall tr v w', runs (qemu_mutex_trylock self) T_assert tr v w' ->
        (v = 0 <-> In (a_owner_store self) tr) /\ (v = 1 <-> ~ In (a_owner_store self) tr))
  /\ (forall m, Posix.lock m = None ->
        Posix.qemu_mutex_trylock self m = (0, Posix.mkMutex (Some self) self))
  /\ (forall m t, Posix.lock m = Some t ->
        Posix.qemu_mutex_trylock self m = (1, m)).
Proof.
  split; [|split; [|split; [|split]]].
  - intros w Ho Hc. cbn. apply Z.eqb_neq in Ho. rewrite Ho. cbn.
    rewrite Hc. cbn. eauto.
  - intros w Ho Hc. cbn. apply Z.eqb_neq in Ho. rewrite Ho. cbn.
    apply Z.eqb_neq in Hc. rewrite Hc. eauto.
  - intros tr v w' H.
    apply trylock_runs in H as [(-> & _ & ->)|(-> & old & _ & ->)]; simpl.
    + split; split; intros; try discriminate; auto.
      exfalso. tauto.
    + split; split; try discriminate; auto.
      * intros [H|[H|[]]]; discriminate.
      * intros _ [H|[H|[]]]; discriminate.
  - intros m Hm. unfold Posix.qemu_mutex_trylock, Posix.pthread_mutex_trylock.
    rewrite Hm. reflexivity.
  - intros m t Hm. unfold Posix.qemu_mutex_trylock, Posix.pthread_mutex_trylock.
    rewrite Hm. reflexivity.
Qed.

(** ** Mutex: destroy *)

(** C8, as the claim states it, fails: on a free mutex whose owner field is
    0 the call passes both assertions whichever thread makes it, although no
    caller is the current owner; and a call by the recorded owner fires the
    second assertion even when the counter is 0. *)
Lemma destroy_does_not_check_the_caller :
  ~ (forall self w, self <> 0 ->
       qemu_mutex_destroy w <> None <-> (m_count w = 0 /\ m_owner w = self)).
Proof.
  intros H.
  destruct (H 1 zero_world ltac:(lia)) as [H1 _].
  assert (qemu_mutex_destroy zero_world <> None) as Hd by (cbn; discriminate).
  destruct (H1 Hd) as [_ Ho]. cbn in Ho. discriminate.
Qed.

(** C8, amended.  [qemu_mutex_destroy] passes its assertions exactly when
    the counter is 0 and the owner field is 0: the lock must be free and no
    owner recorded; the identity of the caller is not looked at.  In
    particular it fires when the recorded owner itself calls it.  When it
    returns it has written to no field: counter and owner are the zeros it
    found, and [mutex->sema] is NULL only if it was NULL, otherwise it still
    holds the handle that has just been closed. *)
Theorem destroy_requires_free_mutex :
  (forall w, qemu_mutex_destroy w <> None <-> (m_count w = 0 /\ m_owner w = 0))
  /\ (forall self w, self <> 0 -> m_owner w = self -> qemu_mutex_destroy w = None)
  /\ (forall w d, qemu_mutex_destroy w = Some d ->
        d_count d = m_count w /\ d_owner d = m_owner w
        /\ d_count d = 0 /\ d_owner d = 0
        /\ (d_sema d = H_null <-> m_sema w = None)
        /\ (d_sema d = H_closed <-> exists n, m_sema w = Some n)).
Proof.
  split; [|split].
  - intros w. unfold qemu_mutex_destroy.
    destruct (m_count w =? 0) eqn:Hc, (m_owner w =? 0) eqn:Ho; cbn;
      wrap_facts; split; intros; try tauto; try discriminate; lia.
  - intros self w Hs Ho. unfold qemu_mutex_destroy.
    destruct (m_count w =? 0); cbn; [|reflexivity].
    assert ((m_owner w =? 0) = false) as -> by (apply Z.eqb_neq; lia). reflexivity.
  - intros w d. unfold qemu_mutex_destroy.
    destruct (m_count w =? 0) eqn:Hc, (m_owner w =? 0) eqn:Ho; cbn; try discriminate.
    wrap_facts. intros H; injection H as <-; cbn.
    repeat split; auto; destruct (m_sema w) eqn:Hs;
      try discriminate; try reflexivity; eauto.
    intros [n Hn]. discriminate.
Qed.

(** ** Condition variable: wait *)

Lemma wait_runs self tr v w' :
  runs (qemu_cond_wait self) W_inc tr v w' ->
  m_owner w' = self /\
  exists n tu vu wu d g tl,
    runs (qemu_mutex_unlock self) U_assert tu vu wu /\
    runs (qemu_mutex_lock self) L_assert tl v w' /\
    tr = [a_waiters_inc n] ++ tu
         ++ [a_csem_wait; a_waiters_dec d; a_target_load g]
         ++ (if d =? g then [a_event_set] else []) ++ tl.
Proof.
  intros H. runs_inv H.
  match goal with H : runs _ (W_unlock _) _ _ _ |- _ =>
    apply (runs_call (qemu_mutex_unlock self) (qemu_cond_wait self) W_unlock
             (fun _ => W_wait) (fun p w => eq_refl) _ _ _ _) with (p := U_assert) in H
      as (tu & vu & wu & tr2 & Hun & Hrest & ->); [|reflexivity] end.
  runs_inv Hrest.
  match goal with H : runs _ W_dec _ _ _ |- _ => runs_inv H end.
  match goal with H : runs _ (W_cmp _) _ _ _ |- _ => runs_inv H end.
  - match goal with H : runs _ W_set _ _ _ |- _ => runs_inv H end.
    match goal with H : runs _ (W_lock _) _ _ _ |- _ =>
      apply (runs_tail_call (qemu_mutex_lock self) (qemu_cond_wait self) W_lock
               (fun p w => eq_refl) _ _ _ _) with (p := L_assert) in H; [|reflexivity];
      rename H into Hl end.
    pose proof (lock_runs _ _ _ _ Hl) as (_ & Ho & _).
    split; [exact Ho|].
    do 7 eexists. split; [exact Hun|]. split; [exact Hl|].
    match goal with Hc : (_ =? _) = true |- _ => rewrite Hc end.
    cbn. reflexivity.
  - match goal with H : runs _ (W_lock _) _ _ _ |- _ =>
      apply (runs_tail_call (qemu_mutex_lock self) (qemu_cond_wait self) W_lock
               (fun p w => eq_refl) _ _ _ _) with (p := L_assert) in H; [|reflexivity];
      rename H into Hl end.
    pose proof (lock_runs _ _ _ _ Hl) as (_ & Ho & _).
    split; [exact Ho|].
    do 7 eexists. split; [exact Hun|]. split; [exact Hl|].
    match goal with Hc : (_ =? _) = false |- _ => rewrite Hc end.
    cbn. reflexivity.
Qed.

Lemma wait_step_ok self p w :
  self <> 0 -> wait_owner_ok self p w ->
  match qemu_cond_wait self p w with
  | Fatal => False
  | Next _ p' w' => wait_owner_ok self p' w'
  | _ => True
  end.
Proof.
  intros Hs Hok.
  destruct (qemu_cond_wait self p w) as [a p' w'|a rv w'| |] eqn:Hstep; auto.
  - revert a p' w' Hstep. destruct_pcs; intros a p' w' Hstep.
    all: split_step Hstep; injection Hstep as <- <- <-.
    all: cbn in *; wrap_facts; auto; try congruence.
  - destruct_pcs; split_step Hstep.
    all: cbn in *; wrap_facts; auto; try congruence.
Qed.

Lemma wait_never_crashes self env : forall p w,
  self <> 0 -> Forall (respects_owner self) env -> wait_owner_ok self p w ->
  forall tr, run_with (qemu_cond_wait self) p w env <> (tr, Crashed).
Proof.
  induction env as [|e env IH]; intros p w Hs Hrely Hok tr; simpl; [discriminate|].
  inversion Hrely as [|? ? He Hrely']; subst.
  assert (wait_owner_ok self p (e w)) as Hok'.
  { revert Hok. unfold wait_owner_ok. specialize (He w).
    destruct_pcs; tauto. }
  pose proof (wait_step_ok self p (e w) Hs Hok') as Hstep.
  destruct (qemu_cond_wait self p (e w)) as [a p' w'|a rv w'| |]; try discriminate.
  - destruct (run_with (qemu_cond_wait self) p' w' env) as [tr1 r1] eqn:Hrun.
    intros Heq. injection Heq as _ ->.
    apply (IH p' w' Hs Hrely' Hstep tr1). exact Hrun.
  - apply IH; auto.
  - contradiction.
Qed.

Lemma wait_histories self h v :
  history (qemu_cond_wait self) W_inc h v -> v = 0 /\ wait_history self h.
Proof.
  intros H. hist_inv H.
  match goal with H : history _ (W_unlock _) _ _ |- _ =>
    apply (history_call (qemu_mutex_unlock self) (qemu_cond_wait self) W_unlock
             (fun _ => W_wait) (fun p w => eq_refl) _ _ _) with (p := U_assert) in H
      as (hu & vu & h2 & Hun & Hrest & ->); [|reflexivity] end.
  apply unlock_histories in Hun as (_ & Hun).
  hist_inv Hrest.
  match goal with H : history _ W_dec _ _ |- _ => hist_inv H end.
  match goal with H : history _ (W_cmp _) _ _ |- _ => hist_inv H end.
  - match goal with H : history _ W_set _ _ |- _ => hist_inv H end.
    match goal with H : history _ (W_lock _) _ _ |- _ =>
      apply (history_tail_call (qemu_mutex_lock self) (qemu_cond_wait self) W_lock
               (fun p w => eq_refl) _ _ _) with (p := L_assert) in H; [|reflexivity];
      apply lock_histories in H as (-> & Hl) end.
    wrap_facts. split; [reflexivity|].
    eexists _, _, _, _, _, [_], _. split; [exact Hun|]. split; [exact Hl|].
    split; [eassumption|]. split; [|cbn; reflexivity].
    left. split; [eassumption|]. eexists. reflexivity.
  - match goal with H : history _ (W_lock _) _ _ |- _ =>
      apply (history_tail_call (qemu_mutex_lock self) (qemu_cond_wait self) W_lock
               (fun p w => eq_refl) _ _ _) with (p := L_assert) in H; [|reflexivity];
      apply lock_histories in H as (-> & Hl) end.
    wrap_facts. split; [reflexivity|].
    eexists _, _, _, _, _, [], _. split; [exact Hun|]. split; [exact Hl|].
    split; [eassumption|]. split; [|cbn; reflexivity].
    right. split; [eassumption|reflexivity].
Qed.

(** A holder of the uncontended mutex waits: it is blocked on the empty
    semaphore with the mutex released, and completes once a unit is there. *)
Lemma wait_alone self w k :
  self <> 0 -> m_owner w = self -> m_count w = 1 -> c_sema w = 0 ->
  let n := wrap32 (c_waiters w + 1) in
  let d := wrap32 (n - 1) in
  let waiting := mkWorld 0 0 (m_sema w) n (c_target w) 0 (c_event w) in
  run_with (qemu_cond_wait self) W_inc w (alone (4 + k))
  = ([a_waiters_inc n; a_assert; a_owner_store 0; a_count_dec 1 0],
     Pending W_wait waiting)
  /\ exists tr,
       run_with (qemu_cond_wait self) W_inc w
         (alone (4 + k) ++ [set_c_sema 1] ++ alone 6)
       = (tr, Returned 0
                (mkWorld 1 self (m_sema w) d (c_target w) 0
                   (if d =? c_target w then true else c_event w)))
       /\ (In a_event_set tr <-> d = c_target w).
Proof.
  intros Hs Ho Hc Hz n d waiting.
  assert (Hse : (0 =? self) = false) by (apply Z.eqb_neq; lia).
  assert (Hfront : run_with (qemu_cond_wait self) W_inc w (alone 4)
                   = ([a_waiters_inc n; a_assert; a_owner_store 0; a_count_dec 1 0],
                      Pending W_wait waiting)).
  { subst n d waiting. destruct w as [mc mo ms cw ct cs ce]. cbn in *. subst.
    unfold alone. cbn. rewrite Z.eqb_refl. cbn. reflexivity. }
  assert (Hwait : run_with (qemu_cond_wait self) W_inc w (alone (4 + k))
                  = ([a_waiters_inc n; a_assert; a_owner_store 0; a_count_dec 1 0],
                     Pending W_wait waiting)).
  { unfold alone. rewrite repeat_app. fold (@alone world 4) (@alone world k).
    rewrite run_with_app, Hfront.
    rewrite blocked_stays by reflexivity.
    rewrite app_nil_r. reflexivity. }
  split; [exact Hwait|].
  rewrite run_with_app, Hwait.
  subst waiting. clear Hfront Hwait Hse. unfold alone.
  destruct self as [|sp|sp]; [lia| |].
  all: cbn; fold d.
  all: destruct (d =? c_target w) eqn:Hd; cbn.
  all: eexists; (split; [reflexivity|]); cbn.
  all: wrap_facts.
  all: first [ tauto
             | split; [|contradiction];
               intros H; repeat (destruct H as [H|H]; [discriminate|]);
               contradiction ].
Qed.

(** C1.  What holds of [qemu_cond_wait].  Called by the thread that holds
    the bound mutex, with the other threads leaving the caller's ownership
    alone, it never aborts, and when it returns the owner field names the
    caller.  Every complete execution, whatever the other threads do in
    between, is: [waiters] incremented; a complete [qemu_mutex_unlock]; the
    wait on [cond->sema], which takes one unit of a semaphore that holds
    one; [waiters] decremented; [cond->target] read, and [SetEvent] exactly
    when the decremented value is the value read; a complete
    [qemu_mutex_lock].  The wait on [cond->sema] is blocked exactly while
    the semaphore is empty: a holder of the uncontended mutex stays there,
    registered and with the mutex released, however long, and completes once
    a unit arrives.
    What fails is that the event is set only for the target recorded by the
    signaller that woke the waiter: the decrement and the read of
    [cond->target] are two memory accesses.  At [decremented_early] thread 1,
    woken by a broadcast (target 0), has decremented [waiters] to 1, so it
    is not the waiter the broadcast waits for.  During [later_signal] the
    broadcast completes and a signal for two new waiters stores target 1.
    Thread 1 then reads 1, finds it equal to its old decrement, and sets the
    event, with the unit of the signal still in the semaphore and both new
    waiters still registered. *)
Theorem wait_sets_the_event_for_a_later_signal :
  (forall self w env,
     self <> 0 -> m_owner w = self -> Forall (respects_owner self) env ->
     match run_with (qemu_cond_wait self) W_inc w env with
     | (_, Crashed) => False
     | (_, Pending _ _) => True
     | (tr, Returned v w') =>
         m_owner w' = self /\
         exists n tu vu wu d g tl,
           runs (qemu_mutex_unlock self) U_assert tu vu wu /\
           runs (qemu_mutex_lock self) L_assert tl v w' /\
           tr = [a_waiters_inc n] ++ tu
                ++ [a_csem_wait; a_waiters_dec d; a_target_load g]
                ++ (if d =? g then [a_event_set] else []) ++ tl
     end)
  /\ (forall self h v, history (qemu_cond_wait self) W_inc h v ->
        v = 0 /\ wait_history self h)
  /\ (forall self w, qemu_cond_wait self W_wait w = Blocked <-> c_sema w <= 0)
  /\ (forall self w, 0 < c_sema w ->
        qemu_cond_wait self W_wait w
        = Next a_csem_wait W_dec (set_c_sema (c_sema w - 1) w))
  /\ (forall self w k,
        self <> 0 -> m_owner w = self -> m_count w = 1 -> c_sema w = 0 ->
        let n := wrap32 (c_waiters w + 1) in
        let d := wrap32 (n - 1) in
        run_with (qemu_cond_wait self) W_inc w (alone (4 + k))
        = ([a_waiters_inc n; a_assert; a_owner_store 0; a_count_dec 1 0],
           Pending W_wait (mkWorld 0 0 (m_sema w) n (c_target w) 0 (c_event w)))
        /\ exists tr,
             run_with (qemu_cond_wait self) W_inc w
               (alone (4 + k) ++ [set_c_sema 1] ++ alone 6)
             = (tr, Returned 0
                      (mkWorld 1 self (m_sema w) d (c_target w) 0
                         (if d =? c_target w then true else c_event w)))
             /\ (In a_event_set tr <-> d = c_target w))
  /\ decremented_early ++ later_signal = signal_waiting
  /\ (exists w1 ts1 w2 ts2 w3 ts3,
        run_schedule decremented_early (init_sys 5) = Some (Live w1 ts1)
        /\ ts1 !! 0%nat = Some (Running (P_broadcast B_wait))
        /\ ts1 !! 1%nat = Some (Running (P_wait (W_cmp 1)))
        /\ c_waiters w1 = 1 /\ c_target w1 = 0
        /\ run_schedule later_signal (Live w1 ts1) = Some (Live w2 ts2)
        /\ ts2 !! 0%nat = Some (Running (P_signal S_wait))
        /\ ts2 !! 1%nat = Some (Running (P_wait (W_cmp 1)))
        /\ c_target w2 = 1 /\ c_event w2 = false
        /\ run_schedule (steps 1 2) (Live w2 ts2) = Some (Live w3 ts3)
        /\ ts3 !! 1%nat = Some (Running (P_wait (W_lock L_assert)))
        /\ ts3 !! 3%nat = Some (Running (P_wait W_wait))
        /\ ts3 !! 4%nat = Some (Running (P_wait W_wait))
        /\ c_event w3 = true /\ c_sema w3 = 1 /\ c_waiters w3 = 2).
Proof.
  split; [|split; [|split; [|split; [|split; [|split]]]]].
  - intros self w env Hs Ho Hrely.
    destruct (run_with (qemu_cond_wait self) W_inc w env) as [tr [v w'| |p w']] eqn:Hrun.
    + apply wait_runs. apply (run_with_runs _ env W_inc w). exact Hrun.
    + exact (wait_never_crashes self env W_inc w Hs Hrely Ho tr Hrun).
    + exact I.
  - apply wait_histories.
  - intros self w. cbn. destruct (0 <? c_sema w) eqn:E; wrap_facts.
    + split; [discriminate|lia].
    + split; [lia|reflexivity].
  - intros self w H. cbn. apply Z.ltb_lt in H. rewrite H. reflexivity.
  - intros self w k. apply wait_alone.
  - reflexivity.
  - eexists _, _, _, _, _, _.
    split; [vm_compute; reflexivity|].
    do 4 (split; [reflexivity|]).
    split; [vm_compute; reflexivity|].
    do 4 (split; [reflexivity|]).
    split; [vm_compute; reflexivity|].
    repeat split.
Qed.

(** ** Mutual exclusion *)

(** C5.  In every state that any interleaving of any number [n] of threads
    calling lock, trylock, unlock (and the condition variable) can reach, at
    most one thread has the lock, and a thread that reads its own id in the
    owner field has it.  Locking a mutex one owns and unlocking a mutex one
    does not own fail their assertion: the process is terminated, and a
    terminated process makes no further move. *)
Theorem mutual_exclusion (n : nat) (s : sys) :
  Z.of_nat n < 2 ^ 32 -> reachable n s ->
  match s with
  | Dead => True
  | Live w ts =>
      (forall i j thi thj, ts !! i = Some thi -> ts !! j = Some thj ->
         holds w i thi -> holds w j thj -> i = j)
      /\ (forall i th, ts !! i = Some th -> m_owner w = tid i -> holds w i th)
      /\ (forall i, m_owner w = tid i ->
            (ts !! i = Some (Running (P_lock L_assert)) ->
             sys_step i Step s = Some Dead)
            /\ (ts !! i = Some (Running (P_trylock T_assert)) ->
                sys_step i Step s = Some Dead))
      /\ (forall i, m_owner w <> tid i ->
            ts !! i = Some (Running (P_unlock U_assert)) ->
            sys_step i Step s = Some Dead)
  end
  /\ (forall self w, m_owner w = self ->
        qemu_mutex_lock self L_assert w = Fatal
        /\ qemu_mutex_trylock self T_assert w = Fatal)
  /\ (forall self w, m_owner w <> self ->
        qemu_mutex_unlock self U_assert w = Fatal)
  /\ (forall i c, sys_step i c Dead = None).
Proof.
  intros Hn Hreach. split; [|split; [|split]].
  - pose proof (reachable_inv n s Hn Hreach) as Hinv.
    destruct s as [w ts|]; [|exact I]. simpl in Hinv.
    split; [|split; [|split]].
    + intros i j thi thj. apply (holder_unique n w ts); assumption.
    + intros i th. apply (owner_holds n w ts); assumption.
    + intros i Ho. split; intros Hi; simpl; rewrite Hi; cbn;
        rewrite (proj2 (Z.eqb_eq _ _) Ho); reflexivity.
    + intros i Ho Hi. simpl. rewrite Hi. cbn.
      rewrite (proj2 (Z.eqb_neq _ _) Ho). reflexivity.
  - intros self w Ho. cbn. rewrite (proj2 (Z.eqb_eq _ _) Ho). auto.
  - intros self w Ho. cbn. rewrite (proj2 (Z.eqb_neq _ _) Ho). auto.
  - reflexivity.
Qed.

(** Two threads: thread 0 locks, thread 1 calls lock and is queued behind
    it.  Thread 0 alone has the lock. *)
Lemma mutual_exclusion_witness :
  exists w ts,
    run_schedule (does 0 Lock 3 ++ does 1 Lock 2) (init_sys 2) = Some (Live w ts)
    /\ holds w 0 Idle /\ ts !! 0%nat = Some Idle
    /\ forall j thj, ts !! j = Some thj -> holds w j thj -> 0%nat = j.
Proof.
  assert (Z.of_nat 2 < 2 ^ 32) as Hn by (vm_compute; reflexivity).
  destruct (run_schedule (does 0 Lock 3 ++ does 1 Lock 2) (init_sys 2))
    as [[w ts|]|] eqn:Hrun; try (vm_compute in Hrun; discriminate).
  pose proof (mutual_exclusion 2 (Live w ts) Hn
                (run_schedule_reachable 2 _ _ _ (reach_init 2) Hrun)) as [[Hex _] _].
  exists w, ts. vm_compute in Hrun. injection Hrun as <- <-.
  split; [reflexivity|]. split; [reflexivity|]. split; [reflexivity|].
  intros j thj Hj Hh. exact (Hex 0%nat j Idle thj eq_refl Hj eq_refl Hh).
Defined.

(** ** Signal and broadcast *)

Lemma signal_runs self tr v w' :
  runs (qemu_cond_signal self) S_assert tr v w' ->
  v = 0 /\
  (tr = [a_assert; a_waiters_test 0]
   \/ exists n t, n <> 0 /\
        tr = [a_assert; a_waiters_test n; a_target_store t;
              a_csem_release 1; a_event_wait]).
Proof.
  intros H. runs_inv H.
  match goal with H : runs _ S_test _ _ _ |- _ => runs_inv H end.
  - auto.
  - match goal with H : runs _ S_target _ _ _ |- _ => runs_inv H end.
    match goal with H : runs _ S_signal _ _ _ |- _ => runs_inv H end.
    match goal with H : runs _ S_wait _ _ _ |- _ => runs_inv H end.
    match goal with Hc : (_ =? 0) = false |- _ => apply Z.eqb_neq in Hc end.
    split; [reflexivity|]. right. eauto.
Qed.

Lemma broadcast_runs self tr v w' :
  runs (qemu_cond_broadcast self) B_assert tr v w' ->
  v = 0 /\
  (tr = [a_assert; a_waiters_test 0]
   \/ exists n k, n <> 0 /\ 0 < k /\
        tr = [a_assert; a_waiters_test n; a_target_store 0;
              a_csem_release k; a_event_wait]).
Proof.
  intros H. runs_inv H.
  match goal with H : runs _ B_test _ _ _ |- _ => runs_inv H end.
  - auto.
  - match goal with H : runs _ B_target _ _ _ |- _ => runs_inv H end.
    match goal with H : runs _ B_release _ _ _ |- _ => runs_inv H end.
    match goal with H : runs _ B_wait _ _ _ |- _ => runs_inv H end.
    match goal with Hc : (_ =? 0) = false |- _ => apply Z.eqb_neq in Hc end.
    split; [reflexivity|]. right. do 2 eexists.
    split; [eassumption|]. split; [|reflexivity].
    norm_bools. lia.
Qed.

Lemma signal_alone self w k :
  m_owner w = self -> c_waiters w <> 0 -> c_sema w < LONG_MAX ->
  c_event w = false ->
  run_with (qemu_cond_signal self) S_assert w (alone (4 + k))
  = ([a_assert; a_waiters_test (c_waiters w);
      a_target_store (wrap32 (c_waiters w - 1)); a_csem_release 1],
     Pending S_wait
       (set_c_sema (c_sema w + 1) (set_c_target (wrap32 (c_waiters w - 1)) w))).
Proof.
  intros Ho Hw Hs He.
  apply Z.eqb_eq in Ho. apply Z.eqb_neq in Hw.
  assert ((c_sema w + 1 <=? LONG_MAX) = true) as Hle by (apply Z.leb_le; lia).
  unfold alone. cbn [repeat Nat.add run_with]. cbn.
  rewrite Ho. cbn. rewrite Hw. cbn. rewrite Hle. cbn.
  fold (@alone world k).
  rewrite blocked_stays; [reflexivity|].
  cbn. unfold wait_event. cbn. rewrite He. reflexivity.
Qed.

Lemma broadcast_alone self w k :
  m_owner w = self -> 0 < c_waiters w -> c_sema w + c_waiters w <= LONG_MAX ->
  c_event w = false ->
  run_with (qemu_cond_broadcast self) B_assert w (alone (4 + k))
  = ([a_assert; a_waiters_test (c_waiters w); a_target_store 0;
      a_csem_release (c_waiters w)],
     Pending B_wait
       (set_c_sema (c_sema w + c_waiters w) (set_c_target 0 w))).
Proof.
  intros Ho Hw Hs He.
  apply Z.eqb_eq in Ho.
  assert ((c_waiters w =? 0) = false) as Hz by (apply Z.eqb_neq; lia).
  assert ((0 <? c_waiters w) = true) as Hp by (apply Z.ltb_lt; lia).
  assert ((c_sema w + c_waiters w <=? LONG_MAX) = true) as Hle by (apply Z.leb_le; lia).
  unfold alone. cbn [repeat Nat.add run_with]. cbn.
  rewrite Ho. cbn. rewrite Hz. cbn. rewrite Hp, Hle. cbn.
  fold (@alone world k).
  rewrite blocked_stays; [reflexivity|].
  cbn. unfold wait_event. cbn. rewrite He. reflexivity.
Qed.

(** C2.  What holds of [qemu_cond_signal]: with no waiter it returns at once
    and changes nothing; otherwise it stores [waiters - 1] into the target,
    releases one unit of the semaphore and waits for the event, blocked while
    the event is unset.  What fails is that the event is set by the matching
    waiter only.  At the schedule [early_signal]: when thread 0 is in the
    wait of [qemu_cond_signal] (target 1, one unit released, event unset),
    thread 1 is between its decrement of an earlier broadcast, which gave 1,
    and its read of [cond->target].  It reads 1, sets the event, and the
    signal returns while its unit is still in the semaphore and neither
    waiter has moved or decremented. *)
Theorem signal_returns_before_the_waiter_decrements :
  (forall self w, m_owner w = self -> c_waiters w = 0 ->
     run_with (qemu_cond_signal self) S_assert w (alone 2)
     = ([a_assert; a_waiters_test 0], Returned 0 w))
  /\ (forall self tr v w', runs (qemu_cond_signal self) S_assert tr v w' ->
        tr = [a_assert; a_waiters_test 0]
        \/ exists n t, n <> 0 /\
             tr = [a_assert; a_waiters_test n; a_target_store t;
                   a_csem_release 1; a_event_wait])
  /\ (forall self w k,
        m_owner w = self -> c_waiters w <> 0 -> c_sema w < LONG_MAX ->
        c_event w = false ->
        run_with (qemu_cond_signal self) S_assert w (alone (4 + k))
        = ([a_assert; a_waiters_test (c_waiters w);
            a_target_store (wrap32 (c_waiters w - 1)); a_csem_release 1],
           Pending S_wait
             (set_c_sema (c_sema w + 1)
                (set_c_target (wrap32 (c_waiters w - 1)) w))))
  /\ (exists w ts,
        run_schedule signal_waiting (init_sys 5) = Some (Live w ts)
        /\ ts !! 0%nat = Some (Running (P_signal S_wait))
        /\ ts !! 1%nat = Some (Running (P_wait (W_cmp 1)))
        /\ c_target w = 1 /\ c_sema w = 1 /\ c_waiters w = 2 /\ c_event w = false)
  /\ (exists w ts,
        run_schedule early_signal (init_sys 5) = Some (Live w ts)
        /\ ts !! 0%nat = Some Idle
        /\ ts !! 3%nat = Some (Running (P_wait W_wait))
        /\ ts !! 4%nat = Some (Running (P_wait W_wait))
        /\ c_sema w = 1 /\ c_waiters w = 2).
Proof.
  split; [|split; [|split; [|split]]].
  - intros self w Ho Hw. apply Z.eqb_eq in Ho.
    cbn. rewrite Ho. cbn. rewrite Hw. reflexivity.
  - intros self tr v w' H. apply signal_runs in H as (_ & H). exact H.
  - intros self w k. apply signal_alone.
  - eexists _, _. (split; [vm_compute; reflexivity|]); repeat split.
  - eexists _, _. (split; [vm_compute; reflexivity|]); repeat split.
Qed.

(** C3.  What holds of [qemu_cond_broadcast]: with no waiter it returns at
    once and changes nothing; otherwise it stores 0 into the target, releases
    as many units as there are waiters and waits for the event, blocked while
    the event is unset.  What fails is that it stays blocked until the last
    waiter has decremented, and that later waiters take none of its units.
    At the schedule [stolen_broadcast]: the event set twice for one signal
    is still set when thread 0 broadcasts for the single waiter, thread 4:
    the broadcast returns with its unit in the semaphore and thread 4 not
    yet woken.  Thread 0 then calls [qemu_cond_wait], registers as a new
    waiter and takes that unit; thread 4, registered when the broadcast was
    called, stays blocked on the empty semaphore. *)
Theorem broadcast_unit_taken_by_a_later_waiter :
  (forall self w, m_owner w = self -> c_waiters w = 0 ->
     run_with (qemu_cond_broadcast self) B_assert w (alone 2)
     = ([a_assert; a_waiters_test 0], Returned 0 w))
  /\ (forall self tr v w', runs (qemu_cond_broadcast self) B_assert tr v w' ->
        tr = [a_assert; a_waiters_test 0]
        \/ exists n k, n <> 0 /\ 0 < k /\
             tr = [a_assert; a_waiters_test n; a_target_store 0;
                   a_csem_release k; a_event_wait])
  /\ (forall self w k,
        m_owner w = self -> 0 < c_waiters w ->
        c_sema w + c_waiters w <= LONG_MAX -> c_event w = false ->
        run_with (qemu_cond_broadcast self) B_assert w (alone (4 + k))
        = ([a_assert; a_waiters_test (c_waiters w); a_target_store 0;
            a_csem_release (c_waiters w)],
           Pending B_wait
             (set_c_sema (c_sema w + c_waiters w) (set_c_target 0 w))))
  /\ (exists w ts,
        run_schedule broadcast_returned (init_sys 5) = Some (Live w ts)
        /\ ts !! 0%nat = Some Idle
        /\ ts !! 4%nat = Some (Running (P_wait W_wait))
        /\ c_sema w = 1 /\ c_waiters w = 1)
  /\ (exists w ts,
        run_schedule stolen_broadcast (init_sys 5) = Some (Live w ts)
        /\ ts !! 0%nat = Some (Running (P_wait W_dec))
        /\ ts !! 4%nat = Some (Running (P_wait W_wait))
        /\ c_sema w = 0
        /\ sys_step 4 Step (Live w ts) = None).
Proof.
  split; [|split; [|split; [|split]]].
  - intros self w Ho Hw. apply Z.eqb_eq in Ho.
    cbn. rewrite Ho. cbn. rewrite Hw. reflexivity.
  - intros self tr v w' H. apply broadcast_runs in H as (_ & H). exact H.
  - intros self w k. apply broadcast_alone.
  - eexists _, _. (split; [vm_compute; reflexivity|]); repeat split.
  - eexists _, _. (split; [vm_compute; reflexivity|]); repeat split.
Qed.

(** ** Running alone *)

Section Alone.
Context {W A PC : Type} (step : PC -> W -> outcome W A PC).
Context (at_pc : PC -> W -> Prop) (post : W -> Prop).

(** Floyd-style reasoning for a thread nobody interferes with: an
    annotation of the program points that every case carries forward holds
    of the state in which the function returns. *)
Lemma run_alone_post n : forall pc w,
  (forall pc w, at_pc pc w ->
     match step pc w with
     | Next _ pc' w' => at_pc pc' w'
     | Return _ _ w' => post w'
     | _ => True
     end) ->
  at_pc pc w ->
  forall tr v w', run_with step pc w (alone n) = (tr, Returned v w') -> post w'.
Proof.
  induction n as [|n IH]; intros pc w Hstep Hat tr v w' Hrun;
    unfold alone in Hrun; simpl in Hrun; [discriminate|].
  fold (@alone W n) in Hrun.
  pose proof (Hstep pc w Hat) as Hs.
  destruct (step pc w) as [a pc1 w1|a v1 w1| |].
  - destruct (run_with step pc1 w1 (alone n)) as [tr1 r1] eqn:Hr.
    injection Hrun as <- ->. eapply IH; eauto.
  - injection Hrun as <- <- <-. exact Hs.
  - eapply IH; eauto.
  - discriminate.
Qed.
End Alone.

(** ** Reader-writer lock *)

Module RWProofs.
Import RW.

Lemma cs_eq (c : critical_section) o d :
  cs_owner c = o -> cs_depth c = d -> c = mkCS o d.
Proof. destruct c; simpl; congruence. Qed.

Ltac rw_cases H :=
  repeat (cbn in H;
          unfold enter_writerLock, enter_readerCountLock,
                 EnterCriticalSection, LeaveCriticalSection in H;
          match type of H with
          | context [match ?x with _ => _ end] =>
              lazymatch x with
              | context [match _ with _ => _ end] => fail
              | _ => destruct x eqn:?
              end
          end);
  cbn in H.

Ltac rw_open :=
  unfold op_at, rdlock_at, wrlock_at, unlock_at, count_ok, writer_ok in *;
  cbn in *;
  repeat match goal with
         | H : rw_inv _ |- _ => destruct H
         | H : _ /\ _ |- _ => destruct H
         | H : _ \/ _ |- _ => destruct H
         end;
  wrap_facts;
  repeat match goal with
         | H : writerLock ?m = _ |- _ => rewrite H in *
         | H : readerCountLock ?m = _ |- _ => rewrite H in *
         end;
  cbn in *.

Ltac rw_leaf :=
  intros; cbn in *;
  repeat match goal with
         | H : writerLock ?m = _ |- context [writerLock ?m] => rewrite H
         | H : readerCountLock ?m = _ |- context [readerCountLock ?m] => rewrite H
         end;
  cbn in *;
  first
    [ assumption
    | reflexivity
    | congruence
    | lia
    | unfold is_long in *; lia
    | apply wrap32_is_long
    | apply cs_eq; cbn; split_ifs; wrap_facts; (congruence || lia)
    | f_equal; split_ifs; wrap_facts; (congruence || lia)
    | match goal with
      | H : 0 < readerCount ?m -> noReaders ?m = false |- noReaders ?m = false =>
          apply H;
          first [ lia
                | destruct (Z_lt_ge_dec 0 (readerCount m)); [assumption|];
                  rewrite wrap32_small in * by (unfold is_long in *; lia); lia ]
      end
    | split_ifs; wrap_facts; (congruence || lia) ].

Ltac rw_close :=
  repeat match goal with
         | |- rw_inv _ => constructor; cbn
         | |- _ /\ _ => split
         end;
  first [ rw_leaf | left; rw_close | right; rw_close ].

Lemma op_step_carries self p m :
  self <> 0 -> op_at self p m ->
  match op_step self p m with
  | Next _ p' m' => op_at self p' m'
  | Return _ _ m' => rw_inv m'
  | _ => True
  end.
Proof.
  intros Hself Hat.
  destruct (op_step self p m) as [a p' m'|a v m'| |] eqn:Hs; auto.
  - revert a p' m' Hs.
    destruct p as [q|q|q]; destruct q; intros a p' m' Hs.
    all: rw_cases Hs; try discriminate Hs; injection Hs as <- <- <-.
    all: rw_open; solve [rw_close].
  - revert a v m' Hs.
    destruct p as [q|q|q]; destruct q; intros a v m' Hs.
    all: rw_cases Hs; try discriminate Hs; injection Hs as <- <- <-.
    all: rw_open; solve [rw_close].
Qed.

Ltac rsimp :=
  cbn [readerCount writer readerCountLock writerLock noReaders
       set_readerCount set_writer set_readerCountLock set_writerLock
       set_noReaders cs_owner cs_depth].

Lemma rw_unlock_runs self tr v m' :
  runs (qemu_rwmutex_unlock self) UN_test tr v m' ->
  tr = [a_writer_test true; a_writer_store 0; a_leave_writerLock]
  \/ exists new,
       tr = [a_writer_test false; a_assert; a_enter_readerCountLock; a_count_dec new]
            ++ (if new =? 0 then [a_set_event] else []) ++ [a_leave_readerCountLock].
Proof.
  intros H.
  repeat match goal with
         | H : runs _ _ _ _ _ |- _ =>
             let Hs := fresh "Hs" in
             inversion H as [? ? ? ? ? Hs|? ? ? ? ? ? ? ? Hs ?]; subst; clear H;
             rw_cases Hs; try discriminate Hs; injection Hs as <- <- <-
         end.
  all: first [ left; reflexivity
             | right;
               match goal with |- context [a_count_dec ?n] => exists n end;
               match goal with H : (_ =? 0) = _ |- _ => rewrite H end; reflexivity ].
Qed.

Lemma rw_reader_unlock_alone self m :
  self <> 0 -> rw_inv m -> writer m <> self -> 0 < readerCount m ->
  exists tr m',
    run_with (qemu_rwmutex_unlock self) UN_test m (alone 6) = (tr, Returned 0 m')
    /\ readerCount m' = readerCount m - 1
    /\ noReaders m' = (readerCount m - 1 =? 0)
    /\ (In a_set_event tr <-> readerCount m = 1).
Proof.
  intros Hself [Hw Hd Hg Hl He] Hnw Hpos.
  unfold alone. cbn.
  rewrite (proj2 (Z.eqb_neq _ _) Hnw). cbn.
  rewrite (proj2 (Z.ltb_lt _ _) Hpos). cbn.
  unfold enter_readerCountLock, EnterCriticalSection. rsimp. rewrite Hg. cbn.
  rewrite (wrap32_small (readerCount m - 1)) by (unfold is_long in *; lia).
  destruct (readerCount m - 1 =? 0) eqn:Hz; cbn;
    unfold LeaveCriticalSection; cbn; rewrite Z.eqb_refl; cbn.
  - eexists _, _. split; [reflexivity|]. cbn. apply Z.eqb_eq in Hz.
    repeat split; auto; try lia. intros _. tauto.
  - eexists _, _. split; [reflexivity|]. cbn. apply Z.eqb_neq in Hz.
    repeat split; auto; try lia.
    + intros [H|[H|[H|[H|[H|[]]]]]]; discriminate.
Qed.

Lemma rw_rdlock_alone self m :
  self <> 0 -> rw_inv m -> writer m = 0 ->
  exists tr m',
    (run_with (qemu_rwmutex_rdlock self) RD_assert m (alone 7) = (tr, Returned 0 m')
     \/ run_with (qemu_rwmutex_rdlock self) RD_assert m (alone 6) = (tr, Returned 0 m'))
    /\ readerCount m' = wrap32 (readerCount m + 1)
    /\ (readerCount m' = 1 -> noReaders m' = false).
Proof.
  intros Hself [Hw Hd Hg Hl He] Hw0.
  assert (writerLock m = mkCS 0 0) as Hwl.
  { apply cs_eq; [congruence|]. rewrite Hd, Hw0. reflexivity. }
  unfold alone. cbn.
  rewrite Hw0. rewrite (proj2 (Z.eqb_neq 0 self)) by lia. cbn.
  unfold enter_writerLock, EnterCriticalSection. rewrite Hwl. cbn.
  unfold enter_readerCountLock, EnterCriticalSection. rsimp. rewrite Hg. cbn.
  destruct (wrap32 (readerCount m + 1) =? 1) eqn:Hone; cbn;
    repeat (unfold LeaveCriticalSection; cbn; rewrite ?Z.eqb_refl; cbn).
  - eexists _, _. split; [left; reflexivity|]. cbn. auto.
  - eexists _, _. split; [right; reflexivity|]. cbn.
    apply Z.eqb_neq in Hone. split; auto. intros; contradiction.
Qed.

Lemma rw_wrlock_alone self m :
  self <> 0 -> rw_inv m -> writer m = 0 -> readerCount m <= 0 ->
  exists tr m',
    run_with (qemu_rwmutex_wrlock self) WR_enter m (alone 4) = (tr, Returned 0 m')
    /\ writer m' = self /\ write_held m'.
Proof.
  intros Hself [Hw Hd Hg Hl He] Hw0 Hrc.
  assert (writerLock m = mkCS 0 0) as Hwl.
  { apply cs_eq; [congruence|]. rewrite Hd, Hw0. reflexivity. }
  unfold alone. cbn.
  unfold enter_writerLock, EnterCriticalSection. rewrite Hwl. cbn.
  rewrite (proj2 (Z.ltb_ge 0 (readerCount m))) by lia. cbn.
  rewrite Hw0. cbn.
  eexists _, _. split; [reflexivity|]. unfold write_held. cbn. auto.
Qed.

End RWProofs.


(** ** Reader-writer lock: any number of threads *)

Module RWPool.
Import RW.

Lemma pend_range th : 0 <= pend th <= 1.
Proof. destruct th as [|[q|q|q]]; try destruct q; cbn; lia. Qed.

Lemma pending_update : forall ts i th th',
  ts !! i = Some th ->
  pending (<[i := th']> ts) = pending ts - pend th + pend th'.
Proof.
  induction ts as [|t ts IH]; intros i th th' Hi; [discriminate|].
  destruct i as [|i]; simpl in Hi.
  - injection Hi as ->. change (pend th' + pending ts = pend th + pending ts - pend th + pend th'). lia.
  - change (pend t + pending (<[i := th']> ts) = pend t + pending ts - pend th + pend th').
    rewrite (IH i th th' Hi). lia.
Qed.

Lemma pending_others : forall ts i th,
  ts !! i = Some th ->
  0 <= pending ts - pend th <= Z.of_nat (length ts) - 1.
Proof.
  assert (Hall : forall ts, 0 <= pending ts <= Z.of_nat (length ts)).
  { induction ts as [|t ts IH]; cbn [pending length]; [lia|].
    pose proof (pend_range t). lia. }
  induction ts as [|t ts IH]; intros i th Hi; [discriminate|].
  destruct i as [|i]; cbn [pending length] in *.
  - injection Hi as ->. specialize (Hall ts). lia.
  - specialize (IH i th Hi). pose proof (pend_range t). lia.
Qed.

Ltac pool_cases H :=
  repeat (cbn in H;
          unfold enter_writerLock, enter_readerCountLock,
                 EnterCriticalSection, LeaveCriticalSection in H;
          cbn in H;
          match type of H with
          | context [match ?x with _ => _ end] =>
              lazymatch x with
              | context [match _ with _ => _ end] => fail
              | _ => destruct x eqn:?
              end
          end);
  cbn in H.

Ltac pool_open :=
  unfold thread_ok, shared_ok, frame, guard_frame, event_ok,
    w_away, w_passing, w_holding, w_again, r_away, r_inside in *;
  cbn in *.

Ltac pool_split :=
  repeat first
    [ progress subst
    | match goal with
      | H : _ /\ _ |- _ => destruct H
      | H : mkCS _ _ = mkCS _ _ |- _ => injection H; clear H; intros
      | H : Some _ = Some _ |- _ => injection H as H
      | H : (_, _) = (_, _) |- _ => injection H as ? ?
      | H : (_ =? _) = true |- _ => apply Z.eqb_eq in H
      | H : (_ =? _) = false |- _ => apply Z.eqb_neq in H
      | H : (_ <? _) = true |- _ => apply Z.ltb_lt in H
      | H : (_ <? _) = false |- _ => apply Z.ltb_ge in H
      | H : ?a = ?a -> _ |- _ => specialize (H eq_refl)
      | H : _ \/ _ |- _ => destruct H
      end ].

Lemma wrap32_inc_cases c :
  is_long c ->
  (c < 2 ^ 31 - 1 /\ wrap32 (c + 1) = c + 1)
  \/ (c = 2 ^ 31 - 1 /\ wrap32 (c + 1) = - 2 ^ 31).
Proof.
  intros H. unfold is_long in H.
  destruct (Z_lt_ge_dec c (2 ^ 31 - 1)).
  - left. split; [assumption|]. apply wrap32_small. unfold is_long. lia.
  - right. assert (c = 2 ^ 31 - 1) as -> by lia. split; reflexivity.
Qed.

Lemma wrap32_dec_cases c :
  is_long c ->
  (- 2 ^ 31 < c /\ wrap32 (c - 1) = c - 1)
  \/ (c = - 2 ^ 31 /\ wrap32 (c - 1) = 2 ^ 31 - 1).
Proof.
  intros H. unfold is_long in H.
  destruct (Z_lt_ge_dec (- 2 ^ 31) c).
  - left. split; [assumption|]. apply wrap32_small. unfold is_long. lia.
  - right. assert (c = - 2 ^ 31) as -> by lia. split; reflexivity.
Qed.

#[local] Arguments wrap32 : simpl never.

Ltac pool_leaf :=
  cbn in *; intros; pool_split;
  first [ assumption | reflexivity | congruence | lia
        | unfold is_long in *; lia
        | match goal with
          | H : _ -> ?P |- ?P => apply H; first [assumption | lia | congruence]
          end
        | match goal with
          | |- ?e = false =>
              is_var e; destruct e; [exfalso; pool_split; lia|reflexivity]
          end ].

Ltac pool_close :=
  cbn in *; intros; pool_split;
  repeat match goal with |- _ /\ _ => split end;
  first [ pool_leaf | left; pool_close | right; pool_close ].

Lemma step_self self p m th' m' B :
  self <> 0 -> - 2 ^ 31 < B -> B <= -1 ->
  thread_ok self (Running p) m ->
  shared_ok m ->
  (noReaders m = true -> B + pend (Running p) <= readerCount m) ->
  after (op_step self p m) = Some (th', m') ->
  thread_ok self th' m' /\ shared_ok m' /\ frame self m m'
  /\ (noReaders m' = true -> B + pend th' <= readerCount m').
Proof.
  intros Hself HB1 HB2 Hok Hsh Hb Hstep.
  destruct m as [cnt wr [ro rd] [wo wd] ev].
  assert (Hl : is_long cnt) by apply Hsh.
  destruct p as [q|q|q]; destruct q.
  all: pool_cases Hstep; try discriminate.
  all: pool_open; pool_split.
  all: try lia; try congruence.
  all: try (destruct (wrap32_inc_cases cnt Hl) as [[Hi1 Hi2]|[Hi1 Hi2]];
            rewrite ?Hi2 in *).
  all: try (destruct (wrap32_dec_cases cnt Hl) as [[Hd1 Hd2]|[Hd1 Hd2]];
            rewrite ?Hd2 in *).
  all: solve [pool_close].
Qed.

Lemma others_preserved self other th m m' :
  other <> self -> other <> 0 -> frame self m m' ->
  thread_ok other th m -> thread_ok other th m'.
Proof.
  intros Hne Hnz Hf Hok.
  destruct m as [cnt wr [ro rd] [wo wd] ev].
  destruct m' as [cnt' wr' [ro' rd'] [wo' wd'] ev'].
  destruct th as [|[q|q|q]]; try destruct q.
  all: pool_open; pool_split.
  all: try congruence.
  all: solve [pool_close].
Qed.

Lemma owner_frame n i (c c' : critical_section) :
  (i < n)%nat -> owner_in_pool n c ->
  c' = c \/ guard_frame (tid i) c c' ->
  owner_in_pool n c'.
Proof.
  intros Hi Ho [->|[_ [H|H]]]; [exact Ho|left; exact H|].
  right. exists i. auto.
Qed.

Lemma enter_ok self o m :
  thread_ok self Idle m -> thread_ok self (Running (entry o)) m.
Proof. destruct o; exact (fun H => H). Qed.

Lemma pool_step n m ts i th th' m' :
  Z.of_nat n < 2 ^ 31 ->
  pool_inv n m ts -> ts !! i = Some th ->
  thread_ok (tid i) th' m' -> shared_ok m' -> frame (tid i) m m' ->
  (noReaders m' = true ->
   pending ts - pend th - Z.of_nat n + pend th' <= readerCount m') ->
  pool_inv n m' (<[i := th']> ts).
Proof.
  intros Hn [Hlen Hth Hwo Hro Hwr Hwf Hrf Hlong Hb] Hi Hok' Hsh' Hf Hb'.
  assert (Hin : (i < n)%nat) by (rewrite <- Hlen; eapply lookup_lt_Some; eauto).
  destruct Hsh' as (Hwr' & Hwf' & Hrf' & Hlong').
  constructor; auto.
  - rewrite length_insert. exact Hlen.
  - intros j thj Hj.
    destruct (Nat.eq_dec j i) as [->|Hne].
    + rewrite list_lookup_insert_eq in Hj by (rewrite Hlen; exact Hin).
      injection Hj as <-. exact Hok'.
    + rewrite list_lookup_insert_ne in Hj by auto.
      apply (others_preserved (tid i) (tid j) thj m m'); auto.
      * intros E. apply tid_inj in E. auto.
      * pose proof (tid_pos j). lia.
  - apply (owner_frame n i (writerLock m)); auto.
    destruct Hf as [[[H _]|H] _]; auto.
  - apply (owner_frame n i (readerCountLock m)); auto.
    destruct Hf as [_ [[H _]|H]]; auto.
  - intros He. rewrite (pending_update ts i th th' Hi).
    specialize (Hb' He). lia.
Qed.

Lemma pool_step_preserves n s i c s' :
  Z.of_nat n < 2 ^ 31 ->
  sys_inv n s -> sys_step i c s = Some s' -> sys_inv n s'.
Proof.
  intros Hn Hinv Hstep.
  destruct s as [m ts|]; [|discriminate]. cbn in Hinv, Hstep.
  destruct (ts !! i) as [th|] eqn:Hi; [|discriminate].
  pose proof (pi_thread n m ts Hinv i th Hi) as Hok.
  assert (Hsh : shared_ok m).
  { destruct Hinv. repeat split; auto; apply pi_long0. }
  pose proof (pending_others ts i th Hi) as Hp.
  rewrite (pi_len n m ts Hinv) in Hp.
  destruct th as [|p], c as [o|]; try discriminate.
  - injection Hstep as <-. cbn.
    apply (pool_step n m ts i Idle); auto.
    + apply enter_ok. exact Hok.
    + destruct Hok as [_ Hr]. split; [left; auto|left; auto].
    + intros He. pose proof (pi_bound n m ts Hinv He).
      replace (pend (Running (entry o))) with 0 by (destruct o; reflexivity).
      cbn. lia.
  - destruct (after (op_step (tid i) p m)) as [[th' m']|] eqn:Ha.
    + assert (s' = Live m' (<[i := th']> ts)) as ->.
      { unfold after in Ha.
        destruct (op_step (tid i) p m); try discriminate;
          injection Ha as <- <-; injection Hstep as <-; reflexivity. }
      cbn.
      assert (Hself : tid i <> 0) by (pose proof (tid_pos i); lia).
      assert (Hb : noReaders m = true ->
                   pending ts - pend (Running p) - Z.of_nat n + pend (Running p)
                   <= readerCount m).
      { intros He. pose proof (pi_bound n m ts Hinv He). lia. }
      destruct (step_self (tid i) p m th' m'
                  (pending ts - pend (Running p) - Z.of_nat n)
                  Hself ltac:(lia) ltac:(lia) Hok Hsh Hb Ha)
        as (Hok' & Hsh' & Hf & Hb').
      apply (pool_step n m ts i (Running p)); auto.
    + unfold after in Ha.
      destruct (op_step (tid i) p m); try discriminate.
      injection Hstep as <-. exact I.
Qed.

Lemma pool_init_inv n : sys_inv n (init_sys n).
Proof.
  cbn. constructor; cbn.
  - apply repeat_length.
  - intros i th Hi.
    assert (th = Idle) as ->.
    { apply list_elem_of_lookup_2 in Hi. apply list_elem_of_In in Hi.
      now apply repeat_spec in Hi. }
    pose proof (tid_pos i). cbn. unfold w_away, r_away. cbn.
    split; [left|]; lia.
  - left. reflexivity.
  - left. reflexivity.
  - left. reflexivity.
  - reflexivity.
  - intros _ H. cbn in H. lia.
  - unfold is_long. lia.
  - intros _.
    assert (pending (repeat Idle n) = 0) as ->
      by (induction n as [|k IH]; cbn; [reflexivity|exact IH]).
    lia.
Qed.

Lemma pool_reachable_inv n s :
  Z.of_nat n < 2 ^ 31 -> reachable n s -> sys_inv n s.
Proof.
  intros Hn H. induction H as [|s i c s' _ IH Hstep].
  - apply pool_init_inv.
  - exact (pool_step_preserves n s i c s' Hn IH Hstep).
Qed.

Lemma pool_schedule_reachable n : forall sched s s',
  reachable n s -> run_schedule sched s = Some s' -> reachable n s'.
Proof.
  induction sched as [|[i c] rest IH]; intros s s' Hr Hrun; cbn in Hrun.
  - injection Hrun as <-. exact Hr.
  - destruct (sys_step i c s) as [s1|] eqn:Hs; [|discriminate].
    apply (IH s1 s'); [|exact Hrun].
    exact (reach_step n s i c s1 Hr Hs).
Qed.

(** The writer field is not NULL exactly when some thread holds the write
    side, and it then names that thread. *)
Lemma writer_iff_held n m ts :
  pool_inv n m ts ->
  (writer m <> 0 <-> exists i th, ts !! i = Some th /\ holds_write m i th)
  /\ (forall i th, ts !! i = Some th -> holds_write m i th -> writer m = tid i).
Proof.
  intros [Hlen Hth Hwo Hro Hwr Hwf Hrf Hlong Hb].
  assert (Hheld : forall i th, ts !! i = Some th -> holds_write m i th ->
                              writer m = tid i).
  { intros i th Hi [Ho Hw].
    pose proof (Hth i th Hi) as Hok.
    destruct m as [cnt wr [ro rd] [wo wd] ev].
    destruct th as [|[q|q|q]]; try destruct q; try discriminate Hw.
    all: pool_open; pool_split; try congruence; try lia. }
  split; [split|exact Hheld].
  - intros Hw.
    destruct Hwr as [Hwr|Hwr]; [contradiction|].
    destruct Hwo as [Hwo|(i & Hi & Hwo)]; [congruence|].
    destruct (lookup_lt_is_Some_2 ts i ltac:(lia)) as [th Hth_i].
    exists i, th. split; [exact Hth_i|]. split; [exact Hwo|].
    pose proof (Hth i th Hth_i) as Hok.
    destruct m as [cnt wr [ro rd] [wo wd] ev].
    destruct th as [|[q|q|q]]; try destruct q.
    all: pool_open; pool_split; try congruence; try reflexivity.
  - intros (i & th & Hi & Hh).
    rewrite (Hheld i th Hi Hh). pose proof (tid_pos i). lia.
Qed.

(** Readers present means the event is unset, except while the first reader
    stands between its increment and its [ResetEvent]. *)
Lemma event_unset_with_readers n m ts :
  pool_inv n m ts ->
  (forall i, ts !! i <> Some (Running (P_rdlock RD_reset))) ->
  0 < readerCount m -> noReaders m = false.
Proof.
  intros [Hlen Hth Hwo Hro Hwr Hwf Hrf Hlong Hb] Hno.
  destruct Hro as [Hro|(i & Hi & Hro)]; [exact (Hrf Hro)|].
  destruct (lookup_lt_is_Some_2 ts i ltac:(lia)) as [th Hth_i].
  pose proof (Hth i th Hth_i) as Hok.
  pose proof (Hno i) as Hni. rewrite Hth_i in Hni.
  destruct m as [cnt wr [ro rd] [wo wd] ev].
  destruct th as [|[q|q|q]]; try destruct q.
  all: pool_open; pool_split; try congruence; try lia; auto.
Qed.

End RWPool.

(** C7, as the claim states it, fails in two places.  [qemu_rwmutex_init]
    does not establish the invariant: it writes neither [readerCount] nor
    [writer], so on storage that held a count of 1 and a writer id of 7 it
    leaves a positive count with the event set and a writer recorded with
    the writer guard free.  And the invariant does not hold in every state
    the operations go through: the first reader, after [++readerCount] and
    before [ResetEvent], leaves a count of 1 with the event still set. *)
Lemma init_leaves_count_and_writer :
  ~ (forall m, (RW.writer (RW.qemu_rwmutex_init m) <> 0
                <-> RW.write_held (RW.qemu_rwmutex_init m))
               /\ (0 < RW.readerCount (RW.qemu_rwmutex_init m) ->
                   RW.noReaders (RW.qemu_rwmutex_init m) = false))
  /\ ~ (forall n s, RW.reachable n s ->
          match s with
          | RW.Live m _ => 0 < RW.readerCount m -> RW.noReaders m = false
          | RW.Dead => True
          end).
Proof.
  split.
  - intros H.
    destruct (H (RW.mkRW 1 7 (RW.mkCS 0 0) (RW.mkCS 0 0) false)) as [_ He].
    cbn in He. specialize (He ltac:(lia)). discriminate.
  - intros H.
    assert (RW.reachable 1
              (RW.Live (RW.mkRW 1 0 (RW.mkCS (tid 0) 1) (RW.mkCS (tid 0) 1) true)
                 [RW.Running (RW.P_rdlock RW.RD_reset)])) as Hr.
    { apply (RWPool.pool_schedule_reachable 1 (RW.does 0 RW.Rdlock 4)
               (RW.init_sys 1)); [apply RW.reach_init|reflexivity]. }
    specialize (H _ _ Hr). cbn in H. specialize (H ltac:(lia)). discriminate.
Qed.

(** C7, amended.  The reader-writer lock keeps this invariant: the writer
    field is not NULL if and only if a writer holds the lock, and a positive
    reader count implies that the no-readers event is unset.
    [qemu_rwmutex_init] initialises the two guards and creates the event,
    signaled; it leaves [readerCount] and [writer] as it finds them, so it
    establishes the invariant on zero-filled storage.
    Between operations: rdlock, wrlock and unlock, run to their return from
    a state that satisfies the invariant, end in a state that satisfies it.
    An unlock by a reader sets the event exactly when its decrement gives 0.
    For fewer than 2^31 threads calling the three operations in any order
    and any interleaving, starting from the initialised zero-filled
    structure: in every reachable state the writer field is not NULL exactly
    when some thread holds the write side, whose id it then is; and readers
    present means the event is unset, except while the first reader stands
    between its increment and its [ResetEvent], under both guards. *)
Theorem rwlock_invariant (self : Z) :
  (forall m, RW.qemu_rwmutex_init m
             = RW.mkRW (RW.readerCount m) (RW.writer m)
                 (RW.mkCS 0 0) (RW.mkCS 0 0) true)
  /\ (forall m, RW.readerCount m = 0 -> RW.writer m = 0 ->
        RW.rw_inv (RW.qemu_rwmutex_init m))
  /\ RW.rw_inv (RW.qemu_rwmutex_init RW.zeroed)
  /\ (forall m, RW.rw_inv m -> RW.writer m <> 0 <-> RW.write_held m)
  /\ (forall m, RW.rw_inv m -> 0 < RW.readerCount m -> RW.noReaders m = false)
  /\ (self <> 0 -> forall o m n tr v m',
        RW.rw_inv m ->
        run_with (RW.op_step self) (RW.entry o) m (alone n) = (tr, Returned v m') ->
        RW.rw_inv m')
  /\ (forall tr v m', runs (RW.qemu_rwmutex_unlock self) RW.UN_test tr v m' ->
        tr = [RW.a_writer_test true; RW.a_writer_store 0; RW.a_leave_writerLock]
        \/ exists new,
             tr = [RW.a_writer_test false; RW.a_assert;
                   RW.a_enter_readerCountLock; RW.a_count_dec new]
                  ++ (if new =? 0 then [RW.a_set_event] else [])
                  ++ [RW.a_leave_readerCountLock])
  /\ (self <> 0 -> forall m,
        RW.rw_inv m -> RW.writer m <> self -> 0 < RW.readerCount m ->
        exists tr m',
          run_with (RW.qemu_rwmutex_unlock self) RW.UN_test m (alone 6)
          = (tr, Returned 0 m')
          /\ RW.readerCount m' = RW.readerCount m - 1
          /\ RW.noReaders m' = (RW.readerCount m - 1 =? 0)
          /\ (In RW.a_set_event tr <-> RW.readerCount m = 1))
  /\ (self <> 0 -> forall m, RW.rw_inv m -> RW.writer m = 0 ->
        exists tr m',
          (run_with (RW.qemu_rwmutex_rdlock self) RW.RD_assert m (alone 7)
           = (tr, Returned 0 m')
           \/ run_with (RW.qemu_rwmutex_rdlock self) RW.RD_assert m (alone 6)
              = (tr, Returned 0 m'))
          /\ RW.readerCount m' = wrap32 (RW.readerCount m + 1)
          /\ (RW.readerCount m' = 1 -> RW.noReaders m' = false))
  /\ (self <> 0 -> forall m,
        RW.rw_inv m -> RW.writer m = 0 -> RW.readerCount m <= 0 ->
        exists tr m',
          run_with (RW.qemu_rwmutex_wrlock self) RW.WR_enter m (alone 4)
          = (tr, Returned 0 m')
          /\ RW.writer m' = self /\ RW.write_held m')
  /\ (forall n s, Z.of_nat n < 2 ^ 31 -> RW.reachable n s ->
        match s with
        | RW.Dead => True
        | RW.Live m ts =>
            (RW.writer m <> 0 <->
             exists i th, ts !! i = Some th /\ RW.holds_write m i th)
            /\ (forall i th, ts !! i = Some th -> RW.holds_write m i th ->
                  RW.writer m = tid i)
            /\ ((forall i, ts !! i <> Some (RW.Running (RW.P_rdlock RW.RD_reset))) ->
                0 < RW.readerCount m -> RW.noReaders m = false)
        end)
  /\ (let s := RW.Live (RW.mkRW 2 0 (RW.mkCS 0 0) (RW.mkCS (tid 2) 1) false)
                  [RW.Idle; RW.Idle; RW.Running (RW.P_wrlock RW.WR_wait)] in
      RW.run_schedule RW.writer_waits (RW.init_sys 3) = Some s
      /\ RW.sys_step 2 RW.Step s = None)
  /\ RW.run_schedule RW.readers_then_writer (RW.init_sys 3)
     = Some (RW.Live (RW.mkRW 0 (tid 2) (RW.mkCS 0 0) (RW.mkCS (tid 2) 1) true)
               [RW.Idle; RW.Idle; RW.Idle]).
Proof.
  split; [|split; [|split; [|split; [|split; [|split; [|split; [|split; [|split; [|split; [|split; [|split]]]]]]]]]]].
  - intros m. reflexivity.
  - intros m Hc Hw. constructor; cbn; rewrite ?Hc, ?Hw; try reflexivity;
      unfold is_long; lia.
  - constructor; cbn; try reflexivity; unfold is_long; lia.
  - intros m [Hw _ _ _ _]. unfold RW.write_held. rewrite Hw. tauto.
  - intros m H. apply (RW.inv_event m H).
  - intros Hself o m n tr v m' Hinv Hrun.
    apply (run_alone_post (RW.op_step self) (RW.op_at self) RW.rw_inv n
             (RW.entry o) m) with (tr := tr) (v := v); auto.
    + intros p m0. apply RWProofs.op_step_carries. exact Hself.
    + destruct o; exact Hinv.
  - apply RWProofs.rw_unlock_runs.
  - intros Hself m. apply RWProofs.rw_reader_unlock_alone. exact Hself.
  - intros Hself m. apply RWProofs.rw_rdlock_alone. exact Hself.
  - intros Hself m. apply RWProofs.rw_wrlock_alone. exact Hself.
  - intros n s Hn Hreach.
    pose proof (RWPool.pool_reachable_inv n s Hn Hreach) as Hinv.
    destruct s as [m ts|]; [|exact I]. cbn in Hinv.
    destruct (RWPool.writer_iff_held n m ts Hinv) as [Hiff Hid].
    split; [exact Hiff|]. split; [exact Hid|].
    apply (RWPool.event_unset_with_readers n m ts Hinv).
  - split; reflexivity.
  - reflexivity.
Qed.

(** ** Threads *)

Module ThreadProofs.
Import Thread.

#[local] Arguments to_short : simpl never.


Lemma to_short_detached : to_short QEMU_THREAD_DETACHED = QEMU_THREAD_DETACHED.
Proof. reflexivity. Qed.

Ltac t_cases H :=
  repeat (cbn in H;
          unfold RW.EnterCriticalSection, RW.LeaveCriticalSection in H;
          match type of H with
          | context [match ?x with _ => _ end] =>
              lazymatch x with
              | context [match _ with _ => _ end] => fail
              | _ => destruct x eqn:?
              end
          end);
  cbn in H.

Ltac t_open :=
  unfold join_inv, creator_ok, spawned_ok, cs_ok, start_ok, join_ok,
    exited_is, ret_is, live_heap, done_with_data, creator_in_cs,
    spawned_in_cs, creator_id, spawned_id,
    set_heap, set_cs, set_tls, set_alive, set_thread_data,
    RW.InitializeCriticalSection in *;
  cbn in *.

Ltac t_split :=
  repeat first [ progress subst | match goal with
         | H : _ /\ _ |- _ => destruct H
         | H : Some _ = Some _ |- _ => injection H as H
         | H : RW.mkCS _ _ = RW.mkCS _ _ |- _ => injection H as ? ?
         | H : ?a = ?a -> _ |- _ => specialize (H eq_refl)
         | H : _ \/ _ |- _ => destruct H
         | H : (_ =? _) = true |- _ => apply Z.eqb_eq in H
         end ].

Ltac t_leaf :=
  first [ discriminate | contradiction | congruence | lia | reflexivity
        | assumption
        | left; reflexivity | right; reflexivity
        | idtac ].

Ltac t_solve :=
  t_open; t_split; t_leaf;
  repeat split; intros; t_split; t_leaf.

Lemma joinable_step (md junk r : Z) (x : who) (s s' : tsys) :
  to_short md = md ->
  (md =? QEMU_THREAD_DETACHED) = false ->
  join_inv md r s ->
  sys_step md junk r x s = Some s' ->
  join_inv md r s'.
Proof.
  intros Hsh Hmd Hinv Hstep.
  destruct s as [[hp td tl c0 al] c t|]; [|contradiction].
  destruct c as [p|p|v];
    [destruct p|destruct p as [|p| | | | | |]; [|destruct p|..]|];
    (destruct t as [|q|]; [|destruct q|]);
    (destruct hp as [[m e rt]|]);
    t_open; t_split; t_leaf.
  all: destruct x; cbn in Hstep; rewrite ?Hsh, ?Hmd in Hstep; try discriminate.
  all: t_cases Hstep; try discriminate.
  all: injection Hstep as <-.
  all: t_solve.
Qed.

Lemma joinable_reachable (md junk r : Z) (s : tsys) :
  to_short md = md ->
  (md =? QEMU_THREAD_DETACHED) = false ->
  reachable md junk r s -> join_inv md r s.
Proof.
  intros Hsh Hmd Hreach.
  induction Hreach as [|s x s' _ IH Hstep].
  - cbn. unfold cs_ok. cbn. auto.
  - exact (joinable_step md junk r x s s' Hsh Hmd IH Hstep).
Qed.





End ThreadProofs.


(** * Further properties of the code *)

(** ** Semaphores *)

Module SemProofs.
Import Sem.

Ltac sem_eq :=
  match goal with
  | |- Some (?a, mkSem (Some ?x)) = Some (?b, mkSem (Some ?y)) =>
      apply (f_equal Some); apply f_equal2; [lia|];
      apply (f_equal mkSem); apply (f_equal Some); lia
  end.

Lemma to_int_small z : 0 <= z < 2 ^ 31 -> to_int z = z.
Proof. intros H. apply wrap32_small. unfold is_long. lia. Qed.

Lemma timedwait_unit ms e n :
  0 < n ->
  qemu_sem_timedwait ms e (mkSem (Some n))
  = Return (a_wait WAIT_OBJECT_0) 0 (mkSem (Some (n - 1))).
Proof.
  intros H. apply Z.ltb_lt in H.
  unfold qemu_sem_timedwait, WaitForSingleObject. cbn [sema]. rewrite H.
  reflexivity.
Qed.

Lemma timedwait_empty ms e n :
  n <= 0 ->
  qemu_sem_timedwait ms e (mkSem (Some n))
  = if negb (to_dword ms =? INFINITE) && (to_dword ms <=? e)
    then Return (a_wait WAIT_TIMEOUT) (-1) (mkSem (Some n))
    else Blocked.
Proof.
  intros H. apply Z.ltb_ge in H.
  unfold qemu_sem_timedwait, WaitForSingleObject. cbn [sema]. rewrite H.
  destruct (negb (to_dword ms =? INFINITE) && (to_dword ms <=? e)); reflexivity.
Qed.

Lemma wait_unit e n :
  0 < n ->
  qemu_sem_wait e (mkSem (Some n))
  = Return (a_wait WAIT_OBJECT_0) 0 (mkSem (Some (n - 1))).
Proof.
  intros H. apply Z.ltb_lt in H.
  unfold qemu_sem_wait, WaitForSingleObject. cbn [sema]. rewrite H.
  reflexivity.
Qed.

Lemma wait_empty e n :
  n <= 0 -> qemu_sem_wait e (mkSem (Some n)) = Blocked.
Proof.
  intros H. apply Z.ltb_ge in H.
  unfold qemu_sem_wait, WaitForSingleObject. cbn [sema]. rewrite H.
  reflexivity.
Qed.

Lemma run_accounting : forall cs n taken s',
  0 <= n -> n + posts cs <= LONG_MAX ->
  run cs (mkSem (Some n)) = Some (taken, s') ->
  sema s' = Some (n + posts cs - taken) /\ 0 <= taken <= n + posts cs.
Proof.
  induction cs as [|c rest IH]; intros n taken s' Hn Hmax Hrun.
  - cbn in *. injection Hrun as <- <-. cbn. split; [f_equal|]; lia.
  - assert (Hp : 0 <= posts rest).
    { clear. induction rest as [|[| |] r IHr]; cbn [posts]; lia. }
    cbn [run] in Hrun.
    destruct c as [|e|ms e]; cbn [exec posts took] in *.
    + unfold qemu_sem_post, ReleaseSemaphore in Hrun. cbn in Hrun.
      assert ((n + 1 <=? LONG_MAX) = true) as E by (apply Z.leb_le; lia).
      rewrite E in Hrun. cbn in Hrun.
      destruct (run rest (mkSem (Some (n + 1)))) as [[t s1]|] eqn:Hr; [|discriminate].
      injection Hrun as <- <-.
      destruct (IH (n + 1) t s1 ltac:(lia) ltac:(lia) Hr) as [Hs Ht].
      split; [rewrite Hs; f_equal|]; lia.
    + destruct (Z_lt_ge_dec 0 n) as [E|E].
      * rewrite (wait_unit e n E) in Hrun.
        destruct (run rest (mkSem (Some (n - 1)))) as [[t s1]|] eqn:Hr; [|discriminate].
        injection Hrun as <- <-.
        destruct (IH (n - 1) t s1 ltac:(lia) ltac:(lia) Hr) as [Hs Ht].
        cbn. split; [rewrite Hs; f_equal|]; lia.
      * rewrite (wait_empty e n ltac:(lia)) in Hrun. discriminate.
    + destruct (Z_lt_ge_dec 0 n) as [E|E].
      * rewrite (timedwait_unit ms e n E) in Hrun.
        destruct (run rest (mkSem (Some (n - 1)))) as [[t s1]|] eqn:Hr; [|discriminate].
        injection Hrun as <- <-.
        destruct (IH (n - 1) t s1 ltac:(lia) ltac:(lia) Hr) as [Hs Ht].
        cbn. split; [rewrite Hs; f_equal|]; lia.
      * rewrite (timedwait_empty ms e n ltac:(lia)) in Hrun.
        destruct (negb (to_dword ms =? INFINITE) && (to_dword ms <=? e)); [|discriminate].
        destruct (run rest (mkSem (Some n))) as [[t s1]|] eqn:Hr; [|discriminate].
        injection Hrun as <- <-.
        destruct (IH n t s1 ltac:(lia) ltac:(lia) Hr) as [Hs Ht].
        cbn. split; [rewrite Hs; f_equal|]; lia.
Qed.

Lemma run_app cs1 : forall cs2 s t1 s1,
  run cs1 s = Some (t1, s1) ->
  run (cs1 ++ cs2) s
  = match run cs2 s1 with Some (t2, s2) => Some (t1 + t2, s2) | None => None end.
Proof.
  induction cs1 as [|c rest IH]; intros cs2 s t1 s1 H.
  - cbn in H. injection H as <- <-. cbn. destruct (run cs2 s) as [[t2 s2]|]; reflexivity.
  - cbn [app run] in *.
    destruct (exec c s) as [| a v s'| |]; try discriminate.
    destruct (run rest s') as [[t s'']|] eqn:Hr; [|discriminate].
    injection H as <- <-.
    rewrite (IH cs2 s' t s'' Hr).
    destruct (run cs2 s'') as [[t2 s2]|]; [f_equal; f_equal; lia|reflexivity].
Qed.

Lemma run_posts (k : nat) : forall n,
  0 <= n -> n + Z.of_nat k <= LONG_MAX ->
  run (repeat Post k) (mkSem (Some n)) = Some (0, mkSem (Some (n + Z.of_nat k))).
Proof.
  induction k as [|k IH]; intros n Hn Hmax.
  - cbn. sem_eq.
  - rewrite Nat2Z.inj_succ in *.
    cbn [repeat run exec took]. unfold qemu_sem_post, ReleaseSemaphore. cbn [sema].
    assert ((n + 1 <=? LONG_MAX) = true) as E by (apply Z.leb_le; lia).
    rewrite E. cbn [snd]. rewrite IH by lia. sem_eq.
Qed.

Lemma run_waits (j : nat) : forall n,
  Z.of_nat j <= n ->
  run (repeat (Wait 0) j) (mkSem (Some n))
  = Some (Z.of_nat j, mkSem (Some (n - Z.of_nat j))).
Proof.
  induction j as [|j IH]; intros n Hj.
  - cbn. sem_eq.
  - rewrite Nat2Z.inj_succ in *.
    cbn [repeat run exec took]. rewrite wait_unit by lia.
    rewrite IH by lia. change (0 =? 0) with true. cbn iota.
    sem_eq.
Qed.

End SemProofs.

(** X1.  Accounting of units.  A semaphore is initialised with [init >= 0]
    units, and a sequence of posts, waits and timed waits has returned, with
    no more posts than LONG_MAX leaves room for.  Then the semaphore holds
    [init] plus the number of posts minus the number of waits that returned
    0, and no more units were taken than were there. *)
Theorem sem_units_accounted (init : Z) (cs : list Sem.call)
    (taken : Z) (s' : Sem.QemuSemaphore) :
  0 <= init -> init + Sem.posts cs <= LONG_MAX ->
  Sem.run cs (Sem.qemu_sem_init init) = Some (taken, s') ->
  Sem.sema s' = Some (init + Sem.posts cs - taken)
  /\ 0 <= taken <= init + Sem.posts cs.
Proof.
  intros Hi Hmax Hrun.
  assert (Hp : 0 <= Sem.posts cs).
  { clear. induction cs as [|[| |] r IHr]; cbn [Sem.posts]; lia. }
  unfold Sem.qemu_sem_init, Sem.CreateSemaphore in Hrun.
  assert ((0 <=? init) && (init <=? LONG_MAX) && (0 <? LONG_MAX) = true) as E.
  { rewrite !andb_true_iff. repeat split; apply Z.leb_le; lia. }
  rewrite E in Hrun.
  exact (SemProofs.run_accounting cs init taken s' Hi Hmax Hrun).
Qed.

Lemma sem_units_accounted_witness :
  exists s',
    Sem.run [Sem.Post; Sem.Wait 0; Sem.TimedWait 0 0; Sem.TimedWait 0 0; Sem.Post]
      (Sem.qemu_sem_init 1) = Some (2, s')
    /\ Sem.sema s' = Some 1.
Proof.
  eexists. split; [reflexivity|].
  apply (sem_units_accounted 1
           [Sem.Post; Sem.Wait 0; Sem.TimedWait 0 0; Sem.TimedWait 0 0; Sem.Post]
           2 _); [lia|vm_compute; discriminate|reflexivity].
Defined.

(** X2.  [k] posts followed by [j] waits, with [j] no more than the units
    then present, all return without waiting and leave [init + k - j]
    units; a wait on an empty semaphore is blocked, however long it has
    waited, and returns once a post has been made. *)
Theorem sem_posts_then_waits (init : Z) (k j : nat) :
  0 <= init -> init + Z.of_nat k <= LONG_MAX -> Z.of_nat j <= init + Z.of_nat k ->
  Sem.run (repeat Sem.Post k ++ repeat (Sem.Wait 0) j) (Sem.qemu_sem_init init)
  = Some (Z.of_nat j, Sem.mkSem (Some (init + Z.of_nat k - Z.of_nat j)))
  /\ (forall e, Sem.qemu_sem_wait e (Sem.mkSem (Some 0)) = Blocked)
  /\ (forall e, Sem.qemu_sem_wait e (Sem.qemu_sem_post (Sem.mkSem (Some 0)))
                = Return (Sem.a_wait Sem.WAIT_OBJECT_0) 0 (Sem.mkSem (Some 0))).
Proof.
  intros Hi Hk Hj. split; [|split].
  - unfold Sem.qemu_sem_init, Sem.CreateSemaphore.
    assert ((0 <=? init) && (init <=? LONG_MAX) && (0 <? LONG_MAX) = true) as E.
    { rewrite !andb_true_iff. repeat split; apply Z.leb_le; lia. }
    rewrite E.
    rewrite (SemProofs.run_app _ _ _ 0 (Sem.mkSem (Some (init + Z.of_nat k))))
      by (apply SemProofs.run_posts; lia).
    rewrite SemProofs.run_waits by lia. reflexivity.
  - intros e. apply SemProofs.wait_empty. lia.
  - intros e. reflexivity.
Qed.

Lemma sem_posts_then_waits_witness :
  Sem.run (repeat Sem.Post 3 ++ repeat (Sem.Wait 0) 4) (Sem.qemu_sem_init 2)
  = Some (4, Sem.mkSem (Some 1)).
Proof.
  exact (proj1 (sem_posts_then_waits 2 3 4 ltac:(lia) ltac:(vm_compute; discriminate)
                  ltac:(lia))).
Defined.

(** X3.  [qemu_sem_timedwait] returns 0 exactly when it took a unit, and -1
    exactly when the semaphore was empty and the timeout had expired, the
    semaphore then being unchanged; it terminates the process only on a
    handle that designates no semaphore, never on a timeout.  With [ms = 0]
    it never waits.  With [ms = -1] the timeout is INFINITE and the call is
    [qemu_sem_wait]: it never returns -1. *)
Theorem sem_timedwait_outcomes (ms e : Z) (s : Sem.QemuSemaphore) :
  match Sem.qemu_sem_timedwait ms e s with
  | Return _ v s' =>
      (v = 0 /\ exists n, Sem.sema s = Some n /\ 0 < n /\ Sem.sema s' = Some (n - 1))
      \/ (v = -1 /\ s' = s
          /\ exists n, Sem.sema s = Some n /\ n <= 0
                       /\ Sem.to_dword ms <= e /\ Sem.to_dword ms <> Sem.INFINITE)
  | Blocked =>
      exists n, Sem.sema s = Some n /\ n <= 0
                /\ (e < Sem.to_dword ms \/ Sem.to_dword ms = Sem.INFINITE)
  | Fatal => Sem.sema s = None
  | Next _ _ _ => False
  end
  /\ (0 <= e -> Sem.qemu_sem_timedwait 0 e s <> Blocked)
  /\ Sem.qemu_sem_timedwait (-1) e s = Sem.qemu_sem_wait e s.
Proof.
  destruct s as [[n|]].
  - destruct (Z_lt_ge_dec 0 n) as [E|E].
    + rewrite !SemProofs.timedwait_unit, SemProofs.wait_unit by exact E.
      split; [|split; [discriminate|reflexivity]].
      left. split; [reflexivity|]. exists n. cbn. auto.
    + rewrite !SemProofs.timedwait_empty, SemProofs.wait_empty by lia.
      split; [|split].
      * destruct (negb (Sem.to_dword ms =? Sem.INFINITE)) eqn:E1;
          destruct (Sem.to_dword ms <=? e) eqn:E2; cbn [andb].
        -- right. split; [reflexivity|]. split; [reflexivity|].
           exists n. cbn. apply negb_true_iff, Z.eqb_neq in E1.
           apply Z.leb_le in E2. repeat split; auto; lia.
        -- exists n. cbn. apply Z.leb_gt in E2. repeat split; auto; lia.
        -- exists n. cbn. apply negb_false_iff, Z.eqb_eq in E1.
           repeat split; auto; lia.
        -- exists n. cbn. apply negb_false_iff, Z.eqb_eq in E1.
           repeat split; auto; lia.
      * intros He.
        assert ((Sem.to_dword 0 <=? e) = true) as ->
          by (apply Z.leb_le; exact He).
        discriminate.
      * reflexivity.
  - split; [reflexivity|]. split; [discriminate|reflexivity].
Qed.

(** X4.  Failures that are not reported.  [qemu_sem_init] with a negative
    count stores the NULL handle of the failed creation without complaint,
    and [qemu_sem_destroy] leaves the closed handle in place; on a handle
    that designates no semaphore a post is silently ignored while a wait or
    timed wait terminates the process.  A post on a semaphore that holds
    LONG_MAX units is dropped. *)
Theorem sem_failures_unreported :
  (forall init, init < 0 -> Sem.sema (Sem.qemu_sem_init init) = None)
  /\ (forall s, Sem.sema (Sem.qemu_sem_destroy s) = None)
  /\ (forall s, Sem.sema s = None ->
        Sem.qemu_sem_post s = s
        /\ (forall e, Sem.qemu_sem_wait e s = Fatal)
        /\ (forall ms e, Sem.qemu_sem_timedwait ms e s = Fatal))
  /\ Sem.qemu_sem_post (Sem.qemu_sem_init LONG_MAX) = Sem.qemu_sem_init LONG_MAX
  /\ Sem.sema (Sem.qemu_sem_init LONG_MAX) = Some LONG_MAX.
Proof.
  split; [|split; [|split; [|split]]].
  - intros init Hi. unfold Sem.qemu_sem_init, Sem.CreateSemaphore. cbn.
    assert ((0 <=? init) = false) as -> by (apply Z.leb_gt; exact Hi).
    reflexivity.
  - reflexivity.
  - intros [h] Hs. cbn in Hs. subst h. repeat split.
  - reflexivity.
  - reflexivity.
Qed.

(** ** The mutex in a pool of threads *)

(** X5.  In every state that any interleaving of fewer than 2^31 threads
    can reach, [mutex->count] is the number of threads that hold the mutex
    or are queued for it, and the semaphore never holds more than one unit.
    A unit in the semaphore means that no thread has the mutex and that some
    thread is queued to take the unit; with the counter at 0 the semaphore
    is empty. *)
Theorem mutex_counter_counts_contenders (n : nat) (s : sys) :
  Z.of_nat n < 2 ^ 31 -> reachable n s ->
  match s with
  | Dead => True
  | Live w ts =>
      m_count w = wsum (counted_in w) 0 ts
      /\ 0 <= units w <= 1
      /\ (units w = 1 ->
          (forall i th, ts !! i = Some th -> token_in w (tid i) th = 0)
          /\ exists j th, ts !! j = Some th
                          /\ thread_phase (own w (tid j)) th = Queued)
      /\ (m_count w = 0 -> units w = 0)
  end.
Proof.
  intros Hn Hreach.
  pose proof (reachable_inv n s ltac:(lia) Hreach) as Hinv.
  destruct s as [w ts|]; [|exact I]. cbn in Hinv.
  pose proof (units_le_one n w ts Hinv) as Hu.
  pose proof (inv_token n w ts Hinv) as Ht.
  pose proof (inv_count n w ts Hinv) as Hc.
  pose proof (wsum_bounds (counted_in w) 0 ts
                (fun s0 x => counted_range _)) as Hb.
  rewrite (inv_len n w ts Hinv) in Hb.
  rewrite wrap32_small in Hc by (unfold is_long; lia).
  pose proof (wsum_nonneg (token_in w) 0 ts (token_nonneg w)) as Htn.
  split; [exact Hc|]. split; [exact Hu|]. split.
  - intros H1.
    destruct (wsum (counted_in w) 0 ts =? 0) eqn:E; [lia|].
    apply Z.eqb_neq in E.
    assert (Hz : wsum (token_in w) 0 ts = 0) by lia.
    split.
    + intros i th Hi. exact (wsum_zero_elem _ ts i th (token_nonneg w) Hz Hi).
    + destruct (wsum_pos_elem (counted_in w) ts 0 (counted_nonneg w) ltac:(lia))
        as (j & th & Hj & Hp).
      exists j, th. split; [exact Hj|].
      pose proof (wsum_zero_elem _ ts j th (token_nonneg w) Hz Hj) as Htj.
      cbn in Hp. unfold counted_in in Hp. unfold token_in in Htj.
      destruct (thread_phase (own w (tid j)) th); cbn in *; auto; lia.
  - intros H0. rewrite Hc in H0.
    rewrite (proj2 (Z.eqb_eq _ _) H0) in Ht. lia.
Qed.

Lemma mutex_counter_counts_contenders_witness :
  exists w ts,
    run_schedule handover (init_sys 2) = Some (Live w ts)
    /\ m_count w = 1 /\ units w = 1
    /\ ts !! 1%nat = Some (Running (P_lock (L_wait 1))).
Proof.
  assert (Z.of_nat 2 < 2 ^ 31) as Hn by (vm_compute; reflexivity).
  destruct (run_schedule handover (init_sys 2)) as [[w ts|]|] eqn:Hrun;
    try (vm_compute in Hrun; discriminate).
  pose proof (mutex_counter_counts_contenders 2 (Live w ts) Hn
                (run_schedule_reachable 2 _ _ _ (reach_init 2) Hrun)) as [Hc _].
  exists w, ts. vm_compute in Hrun. injection Hrun as <- <-.
  split; [reflexivity|]. split; [exact Hc|]. split; reflexivity.
Defined.

(** ** The semaphore of the mutex, created or not *)

Lemma creation_succeeds_semaphore pc w :
  Creation.qemu_mutex_semaphore true pc w = qemu_mutex_semaphore pc w.
Proof. destruct pc; reflexivity. Qed.

Lemma creation_succeeds_lock self pc w :
  Creation.qemu_mutex_lock true self pc w = qemu_mutex_lock self pc w.
Proof. destruct pc; reflexivity. Qed.

Lemma creation_succeeds_unlock self pc w :
  Creation.qemu_mutex_unlock true self pc w = qemu_mutex_unlock self pc w.
Proof. destruct pc; reflexivity. Qed.

(** X6.  What [qemu_mutex_lock] and [qemu_mutex_unlock] do when
    [CreateSemaphore] fails, its result being unchecked.  Thread [a] holds
    the mutex, to which no semaphore is attached yet.  [qemu_mutex_lock] by
    thread [b] increments the counter to 2, gets NULL from
    [qemu_mutex_semaphore], its wait fails at once, and it returns as the
    owner while [a] still holds the mutex.  The unlock of [a] then fails its
    assertion.  The unlock of [b] decrements to 1 and releases nothing: the
    mutex is left with counter 1 and no owner, and any later
    [qemu_mutex_lock], even with the semaphore created, waits for a unit
    that nobody will release. *)
Theorem creation_failure_defeats_the_mutex (a b : Z) (w : world) :
  a <> 0 -> b <> 0 -> a <> b ->
  m_owner w = a -> m_count w = 1 -> m_sema w = None ->
  let w1 := set_m_owner b (set_m_count 2 w) in
  let w2 := set_m_count 1 (set_m_owner 0 w1) in
  run_with (Creation.qemu_mutex_lock false b) L_assert w (alone 7)
  = ([a_assert; a_count_inc 1 2; a_sema_test true; a_sema_create;
      a_sema_cas true; a_msem_wait false; a_owner_store b], Returned 0 w1)
  /\ Creation.qemu_mutex_unlock false a U_assert w1 = Fatal
  /\ run_with (Creation.qemu_mutex_unlock false b) U_assert w1 (alone 7)
     = ([a_assert; a_owner_store 0; a_count_dec 2 1; a_sema_test true;
         a_sema_create; a_sema_cas true; a_msem_release false], Returned 0 w2)
  /\ m_owner w2 = 0 /\ m_count w2 = 1 /\ m_sema w2 = None
  /\ forall c k, c <> 0 ->
       run_with (Creation.qemu_mutex_lock true c) L_assert w2 (alone (5 + k))
       = ([a_assert; a_count_inc 1 2; a_sema_test true; a_sema_create;
           a_sema_cas true],
          Pending (L_wait 1) (set_m_sema (Some 0) (set_m_count 2 w2))).
Proof.
  intros Ha Hb Hab Ho Hc Hs w1 w2.
  assert (Hba : (a =? b) = false) by (apply Z.eqb_neq; exact Hab).
  assert (Hab' : (b =? a) = false) by (apply Z.eqb_neq; congruence).
  destruct w as [mc mo ms cw ct cs ce]. cbn in Ho, Hc, Hs. subst mc mo ms.
  subst w1 w2.
  split; [|split; [|split; [|split; [|split; [|split]]]]]; try reflexivity.
  - unfold alone. cbn. rewrite Hba. reflexivity.
  - cbn. rewrite Hab'. reflexivity.
  - unfold alone. cbn. rewrite Z.eqb_refl. reflexivity.
  - intros c k Hcz.
    rewrite (run_with_ext (qemu_mutex_lock c) (Creation.qemu_mutex_lock true c)
               (creation_succeeds_lock c)).
    match goal with |- run_with _ _ ?w0 _ = _ =>
      destruct (lock_contended_alone c w0 k) as [H _];
        [cbn; congruence|cbn; discriminate|reflexivity|exact H]
    end.
Qed.

Lemma creation_failure_defeats_the_mutex_witness :
  exists w1,
    run_with (Creation.qemu_mutex_lock false 2) L_assert
      (mkWorld 1 1 None 0 0 0 false) (alone 7)
    = ([a_assert; a_count_inc 1 2; a_sema_test true; a_sema_create;
        a_sema_cas true; a_msem_wait false; a_owner_store 2], Returned 0 w1)
    /\ m_owner w1 = 2 /\ m_count w1 = 2
    /\ Creation.qemu_mutex_unlock false 1 U_assert w1 = Fatal.
Proof.
  destruct (creation_failure_defeats_the_mutex 1 2 (mkWorld 1 1 None 0 0 0 false)
              ltac:(lia) ltac:(lia) ltac:(lia) eq_refl eq_refl eq_refl)
    as (H1 & H2 & _).
  eexists. split; [exact H1|]. split; [reflexivity|]. split; [reflexivity|exact H2].
Defined.

(** X7.  [qemu_mutex_semaphore] returns the handle it finds or stores in
    [mutex->sema], without looking at the result of [CreateSemaphore].  Run
    while the other threads do anything but take an installed handle away,
    it returns within five cases.  It returns NULL, leaving the field NULL,
    exactly when its own [CreateSemaphore] failed and no other thread had
    installed a semaphore by the time of the compare-exchange; otherwise it
    returns the handle then installed.  It creates a semaphore only when it
    saw NULL, and calls [CloseHandle] on what it created exactly when the
    compare-exchange found a handle installed.  When [CreateSemaphore]
    succeeds, the three functions are those of the mutex model. *)
Theorem mutex_semaphore_returns_what_it_stored :
  (forall created w env,
     Forall keeps_sema env ->
     match run_with (Creation.qemu_mutex_semaphore created) MS_test w env with
     | (tr, Returned v w') =>
         (v = 1 /\ m_sema w' <> None
          /\ (tr = [a_sema_test false; a_sema_load 1]
              \/ (created = true
                  /\ tr = [a_sema_test true; a_sema_create; a_sema_cas true])
              \/ tr = [a_sema_test true; a_sema_create; a_sema_cas false;
                       a_sema_close; a_sema_load 1]))
         \/ (v = 0 /\ created = false /\ m_sema w' = None
             /\ tr = [a_sema_test true; a_sema_create; a_sema_cas true])
     | (_, Crashed) => False
     | (_, Pending _ _) => (length env < 5)%nat
     end)
  /\ (forall w, m_sema w = None ->
        run_with (Creation.qemu_mutex_semaphore false) MS_test w (alone 3)
        = ([a_sema_test true; a_sema_create; a_sema_cas true], Returned 0 w))
  /\ (forall w, m_sema w = None ->
        run_with (Creation.qemu_mutex_semaphore true) MS_test w (alone 3)
        = ([a_sema_test true; a_sema_create; a_sema_cas true],
           Returned 1 (set_m_sema (Some 0) w)))
  /\ (forall w n, m_sema w = None ->
        run_with (Creation.qemu_mutex_semaphore false) MS_test w
          (alone 2 ++ [set_m_sema (Some n)] ++ alone 2)
        = ([a_sema_test true; a_sema_create; a_sema_cas false; a_sema_close;
            a_sema_load 1], Returned 1 (set_m_sema (Some n) w)))
  /\ (forall pc w,
        Creation.qemu_mutex_semaphore true pc w = qemu_mutex_semaphore pc w)
  /\ (forall self pc w,
        Creation.qemu_mutex_lock true self pc w = qemu_mutex_lock self pc w)
  /\ (forall self pc w,
        Creation.qemu_mutex_unlock true self pc w = qemu_mutex_unlock self pc w).
Proof.
  split; [|split; [|split; [|split; [|split; [|split]]]]].
  - intros created w env Henv.
    assert (Hkeep : forall e x y, Forall keeps_sema (e :: y) ->
                      m_sema x <> None -> m_sema (e x) <> None).
    { intros e x y Hf Hx. apply List.Forall_cons_iff in Hf as [He _]. auto. }
    destruct env as [|e1 env]; [cbn; lia|].
    apply List.Forall_cons_iff in Henv as [_ Henv].
    cbn [run_with Creation.qemu_mutex_semaphore].
    destruct (m_sema (e1 w)) eqn:H1.
    + destruct env as [|e2 env]; [cbn; lia|].
      pose proof (Hkeep e2 (e1 w) env Henv ltac:(congruence)) as H2.
      cbn. destruct (m_sema (e2 (e1 w))) eqn:E2; [|contradiction].
      left. split; [reflexivity|]. split; [congruence|]. auto.
    + destruct env as [|e2 env]; [cbn; lia|].
      apply List.Forall_cons_iff in Henv as [_ Henv].
      cbn [run_with Creation.qemu_mutex_semaphore].
      destruct env as [|e3 env]; [cbn; lia|].
      apply List.Forall_cons_iff in Henv as [_ Henv].
      cbn [run_with Creation.qemu_mutex_semaphore].
      destruct (m_sema (e3 (e2 (e1 w)))) eqn:H3.
      * destruct env as [|e4 env]; [cbn; lia|].
        pose proof (Hkeep e4 _ env Henv ltac:(rewrite H3; discriminate)) as H4.
        apply List.Forall_cons_iff in Henv as [_ Henv].
        cbn [run_with Creation.qemu_mutex_semaphore].
        destruct env as [|e5 env]; [cbn; lia|].
        pose proof (Hkeep e5 _ env Henv H4) as H5.
        cbn. destruct (m_sema (e5 (e4 (e3 (e2 (e1 w)))))) eqn:E5; [|contradiction].
        left. split; [reflexivity|]. split; [congruence|]. auto.
      * destruct created; cbn.
        -- left. split; [reflexivity|]. split; [discriminate|]. auto.
        -- right. auto.
  - intros w Hs. unfold alone. cbn. rewrite Hs. cbn. rewrite Hs. reflexivity.
  - intros w Hs. unfold alone. cbn. rewrite Hs. cbn. rewrite Hs. reflexivity.
  - intros w n Hs. unfold alone. cbn. rewrite Hs. reflexivity.
  - apply creation_succeeds_semaphore.
  - apply creation_succeeds_lock.
  - apply creation_succeeds_unlock.
Qed.

(** ** qemu_mutex_lock_recursive *)

Module RecursiveProofs.
Import Recursive.

Ltac rec_inv H :=
  let Hs := fresh "Hs" in
  inversion H as [? ? ? ? ? Hs|? ? ? ? ? ? ? ? Hs ?]; subst; clear H;
  cbn in Hs; unfold RW.EnterCriticalSection, RW.LeaveCriticalSection in Hs;
  repeat match type of Hs with
         | context [match ?x with _ => _ end] =>
             lazymatch x with
             | context [match _ with _ => _ end] => fail
             | _ => destruct x eqn:?
             end
         end;
  cbn in Hs; try discriminate Hs;
  first [ injection Hs as <- <- <- | idtac ].

Lemma recursive_runs self tr v r' :
  runs (qemu_mutex_lock_recursive self) R_enter tr v r' ->
  (v = 0 /\ m_owner (mx r') = self
   /\ tr = [a_enter_lock; a_owner_test 0; a_owner_set self])
  \/ (v = 1 /\ exists o, o <> 0 /\ tr = [a_enter_lock; a_owner_test o; a_leave_lock]).
Proof.
  intros H. rec_inv H.
  all: match goal with H : runs _ R_test _ _ _ |- _ => rec_inv H end.
  all: repeat match goal with
              | H : runs _ R_leave _ _ _ |- _ => rec_inv H
              | H : runs _ R_owner _ _ _ |- _ => rec_inv H
              end.
  all: repeat match goal with
              | H : negb _ = true |- _ => apply negb_true_iff, Z.eqb_neq in H
              | H : negb _ = false |- _ => apply negb_false_iff, Z.eqb_eq in H
              end.
  all: try (left; cbn; repeat split; congruence).
  all: right; split; [reflexivity|]; eexists; split; [eassumption|reflexivity].
Qed.

End RecursiveProofs.

(** X8.  [qemu_mutex_lock_recursive] returns 0, having stored the caller
    into the owner field, exactly when it found the owner field 0 inside the
    critical section [mutex->lock], and it then leaves the critical section
    entered; otherwise it returns 1 with the critical section as it was.
    That includes the call by the thread the owner field names: the lock is
    not taken a second time.  A thread that finds the critical section owned
    by another thread is blocked.  No case of the function touches
    [mutex->count] or the semaphore. *)
Theorem lock_recursive_outcomes (self : Z) :
  (forall tr v r', runs (Recursive.qemu_mutex_lock_recursive self) Recursive.R_enter tr v r' ->
     (v = 0 /\ m_owner (Recursive.mx r') = self
      /\ tr = [Recursive.a_enter_lock; Recursive.a_owner_test 0;
               Recursive.a_owner_set self])
     \/ (v = 1 /\ exists o, o <> 0
         /\ tr = [Recursive.a_enter_lock; Recursive.a_owner_test o;
                  Recursive.a_leave_lock]))
  /\ (self <> 0 -> forall r,
        Recursive.lock r = RW.mkCS 0 0 -> m_owner (Recursive.mx r) = 0 ->
        run_with (Recursive.qemu_mutex_lock_recursive self) Recursive.R_enter r (alone 3)
        = ([Recursive.a_enter_lock; Recursive.a_owner_test 0;
            Recursive.a_owner_set self],
           Returned 0 (Recursive.mkR (set_m_owner self (Recursive.mx r))
                         (RW.mkCS self 1))))
  /\ (self <> 0 -> forall r d,
        Recursive.lock r = RW.mkCS self d -> 0 < d ->
        m_owner (Recursive.mx r) = self ->
        run_with (Recursive.qemu_mutex_lock_recursive self) Recursive.R_enter r (alone 3)
        = ([Recursive.a_enter_lock; Recursive.a_owner_test self;
            Recursive.a_leave_lock], Returned 1 r))
  /\ (forall r, RW.cs_owner (Recursive.lock r) <> 0 ->
        RW.cs_owner (Recursive.lock r) <> self ->
        Recursive.qemu_mutex_lock_recursive self Recursive.R_enter r = Blocked)
  /\ (forall pc r,
        match Recursive.qemu_mutex_lock_recursive self pc r with
        | Next _ _ r' | Return _ _ r' => Recursive.same_counter r r'
        | _ => True
        end).
Proof.
  split; [|split; [|split; [|split]]].
  - apply RecursiveProofs.recursive_runs.
  - intros Hself [w c] Hc Ho. cbn in Hc, Ho. subst c.
    cbn. rewrite Ho. cbn. reflexivity.
  - intros Hself [w c] d Hc Hd Ho. cbn in Hc, Ho. subst c.
    apply Z.eqb_neq in Hself.
    assert ((d + 1 - 1 =? 0) = false) as Hd1 by (apply Z.eqb_neq; lia).
    unfold alone.
    repeat (cbn; unfold RW.EnterCriticalSection, RW.LeaveCriticalSection;
            cbn; rewrite ?Ho, ?Hself, ?Z.eqb_refl, ?Hd1).
    cbn. replace (d + 1 - 1) with d by lia. reflexivity.
  - intros [w [o d]] H0 Hs. cbn in *.
    unfold RW.EnterCriticalSection. cbn.
    apply Z.eqb_neq in H0, Hs. rewrite H0, Hs. reflexivity.
  - intros pc [w [o d]]. unfold Recursive.same_counter.
    destruct pc; cbn; unfold RW.EnterCriticalSection, RW.LeaveCriticalSection; cbn.
    + destruct (o =? 0); [cbn; auto|]. destruct (o =? self); cbn; auto.
    + auto.
    + destruct (o =? self); cbn; auto.
    + auto.
Qed.

(** X9.  [qemu_mutex_lock_recursive] and [qemu_mutex_lock] do not exclude
    each other.  On a free mutex thread [a] takes it with
    [qemu_mutex_lock_recursive]; then [qemu_mutex_lock] by another thread
    [b] finds the counter at 0 and returns at once with [b] as owner.  And
    [qemu_mutex_unlock] by [a] passes its assertion, brings the counter to
    -1 and puts a unit into the semaphore, while the critical section stays
    entered, so that [qemu_mutex_lock_recursive] by [b] is blocked. *)
Theorem lock_recursive_bypasses_counter (a b : Z) (r : Recursive.rmutex) :
  a <> 0 -> b <> 0 -> a <> b ->
  Recursive.lock r = RW.mkCS 0 0 -> m_owner (Recursive.mx r) = 0 ->
  m_count (Recursive.mx r) = 0 -> m_sema (Recursive.mx r) = None ->
  exists tr1 r1,
    run_with (Recursive.qemu_mutex_lock_recursive a) Recursive.R_enter r (alone 3)
    = (tr1, Returned 0 r1)
    /\ m_owner (Recursive.mx r1) = a
    /\ (exists tr2 r2,
          run_with (Recursive.lock_on b) L_assert r1 (alone 3) = (tr2, Returned 0 r2)
          /\ m_owner (Recursive.mx r2) = b)
    /\ (exists tr3 r3,
          run_with (Recursive.unlock_on a) U_assert r1 (alone 7) = (tr3, Returned 0 r3)
          /\ m_count (Recursive.mx r3) = -1
          /\ m_sema (Recursive.mx r3) = Some 1
          /\ Recursive.lock r3 = RW.mkCS a 1
          /\ Recursive.qemu_mutex_lock_recursive b Recursive.R_enter r3 = Blocked).
Proof.
  intros Ha Hb Hab Hc Ho Hn Hs.
  destruct r as [[cnt own sem cw ct cs ce] c]. cbn in Hc, Ho, Hn, Hs. subst.
  apply Z.eqb_neq in Ha, Hb.
  assert ((a =? b) = false) as Eab by (apply Z.eqb_neq; exact Hab).
  do 2 eexists. split; [reflexivity|].
  split; [reflexivity|]. split.
  - do 2 eexists. split.
    + unfold Recursive.lock_on, alone. cbn. rewrite Eab. reflexivity.
    + reflexivity.
  - do 2 eexists. split.
    + unfold Recursive.unlock_on, alone. cbn. rewrite Z.eqb_refl. cbn.
      change (wrap32 (0 - 1)) with (-1). cbn. reflexivity.
    + cbn. unfold RW.EnterCriticalSection. cbn.
      rewrite Ha, Eab. repeat split.
Qed.

Lemma lock_recursive_bypasses_counter_witness :
  exists tr1 r1,
    run_with (Recursive.qemu_mutex_lock_recursive 1) Recursive.R_enter
      (Recursive.mkR zero_world (RW.mkCS 0 0)) (alone 3) = (tr1, Returned 0 r1)
    /\ exists tr2 r2,
         run_with (Recursive.lock_on 2) L_assert r1 (alone 3) = (tr2, Returned 0 r2)
         /\ m_owner (Recursive.mx r2) = 2.
Proof.
  destruct (lock_recursive_bypasses_counter 1 2
              (Recursive.mkR zero_world (RW.mkCS 0 0))
              ltac:(lia) ltac:(lia) ltac:(lia) eq_refl eq_refl eq_refl eq_refl)
    as (tr1 & r1 & H1 & _ & H2 & _).
  exists tr1, r1. split; [exact H1|exact H2].
Defined.

(** ** Threads: the detached creation and a second join *)

Module ThreadMoreProofs.
Import Thread ThreadMore.
Import ThreadProofs.

Ltac d_open :=
  unfold detached_ok, detached_start_ok, detached_creator_ok, detached_done,
    live_heap, set_heap, set_cs, set_tls, set_alive, set_thread_data in *;
  cbn in *.

Ltac d_solve :=
  d_open; t_split;
  repeat match goal with |- _ /\ _ => split end;
  intros; t_split;
  first [ discriminate | contradiction | congruence | reflexivity | assumption | lia
        | idtac ].

Lemma detached_ok_step (junk r : Z) (x : who) (s s' : tsys) :
  detached_ok s ->
  sys_step QEMU_THREAD_DETACHED junk r x s = Some s' ->
  detached_ok s'.
Proof.
  intros Hinv Hstep.
  destruct s as [[hp td tl c0 al] c t|]; [|contradiction].
  destruct c as [p|p|v];
    [destruct p|destruct p as [|p| | | | | |]; [|destruct p|..]|];
    (destruct t as [|q|]; [|destruct q|]);
    (destruct hp as [[m e rt]|]);
    d_open; t_split; t_leaf.
  all: destruct x; cbn in Hstep; try discriminate.
  all: t_cases Hstep; try discriminate.
  all: injection Hstep as <-.
  all: d_solve.
Qed.

Lemma detached_reachable (junk r : Z) (s : tsys) :
  reachable QEMU_THREAD_DETACHED junk r s -> detached_ok s.
Proof.
  intros H. induction H as [|s x s' _ IH Hstep].
  - cbn. auto.
  - exact (detached_ok_step junk r x s s' IH Hstep).
Qed.

Lemma detached_step_rank (junk r : Z) (x : who) (s s' : tsys) :
  detached_ok s ->
  sys_step QEMU_THREAD_DETACHED junk r x s = Some s' -> s' <> Dead ->
  (rank s' < rank s)%nat.
Proof.
  intros Hinv Hstep Hlive.
  destruct s as [w c t|]; [|discriminate].
  destruct c as [p|p|v];
    [destruct p|destruct p as [|p| | | | | |]; [|destruct p|..]|];
    (destruct t as [|q|]; [|destruct q|]);
    destruct x; cbn in Hstep; try discriminate;
    t_cases Hstep; try discriminate;
    injection Hstep as <-; try congruence; cbn; try lia.
  all: exfalso; d_open; t_split; congruence.
Qed.

Lemma detached_progress (junk r : Z) (s : tsys) :
  detached_ok s ->
  detached_done s
  \/ exists x s', sys_step QEMU_THREAD_DETACHED junk r x s = Some s'.
Proof.
  intros Hinv.
  destruct s as [[hp td tl c0 al] c t|]; [|contradiction].
  destruct t as [|q|].
  - right. exists TheCreator.
    destruct c as [p|p|v]; [destruct p| |]; d_open; t_split;
      try contradiction; eauto.
  - right. exists TheSpawned.
    destruct q; (destruct hp as [[m e rt]|]); d_open; t_split;
      try contradiction; try discriminate; eauto.
    all: match goal with |- context [if ?b then _ else _] => destruct b end; eauto.
  - destruct c as [p|p|v].
    + right. exists TheCreator. destruct p; d_open; t_split; eauto.
    + right. exists TheCreator. d_open; t_split. eauto.
    + left. d_open. t_split. auto.
Qed.

Lemma detached_terminates (junk r : Z) :
  forall (k : nat) (s : tsys),
    (rank s < k)%nat -> detached_ok s ->
    exists sched s',
      run_schedule QEMU_THREAD_DETACHED junk r sched s = Some s'
      /\ detached_done s'.
Proof.
  induction k as [|k IH]; intros s Hk Hinv; [lia|].
  destruct (detached_progress junk r s Hinv) as [Hdone|(x & s1 & Hstep)].
  - exists [], s. split; [reflexivity|exact Hdone].
  - pose proof (detached_ok_step junk r x s s1 Hinv Hstep) as Hinv1.
    assert (Hlive : s1 <> Dead) by (intros ->; exact Hinv1).
    pose proof (detached_step_rank junk r x s s1 Hinv Hstep Hlive) as Hlt.
    destruct (IH s1 ltac:(lia) Hinv1) as (sched & s' & Hrun & Hd).
    exists (x :: sched), s'. split; [|exact Hd].
    cbn. rewrite Hstep. exact Hrun.
Qed.

(** A join that has returned has left [thread->data] as it found it. *)
Lemma joined_keeps_reference (junk r : Z) (s : tsys) :
  reachable QEMU_THREAD_JOINABLE junk r s ->
  match s with
  | Live w (Joined _) _ => thread_data w = true
  | _ => True
  end.
Proof.
  intros H. induction H as [|s x s' Hreach IH Hstep]; [exact I|].
  pose proof (joinable_reachable QEMU_THREAD_JOINABLE junk r s eq_refl eq_refl Hreach) as Hinv.
  destruct s as [[hp td tl c0 al] c t|]; [|contradiction].
  destruct c as [p|p|v];
    [destruct p|destruct p as [|p| | | | | |]; [|destruct p|..]|];
    (destruct t as [|q|]; [|destruct q|]);
    (destruct hp as [[m e rt]|]);
    t_open; t_split; t_leaf.
  all: destruct x; cbn in Hstep; try discriminate.
  all: t_cases Hstep; try discriminate.
  all: injection Hstep as <-; cbn; auto.
Qed.

End ThreadMoreProofs.

(** X10.  A detached creation.  In every state that any interleaving of the
    creator and the created thread can reach, no step has terminated the
    process (in particular nobody reads the descriptor after it was freed),
    the creator's [thread->data] is NULL, the created thread has freed the
    descriptor by the time it has terminated, and a join that has returned
    has returned NULL.  From every such state some schedule ends with the
    created thread terminated, the descriptor freed and the join
    returned. *)
Theorem detached_thread_frees_its_descriptor (junk r : Z) :
  (forall s, Thread.reachable Thread.QEMU_THREAD_DETACHED junk r s ->
     s <> Thread.Dead
     /\ forall w c t, s = Thread.Live w c t ->
          Thread.thread_data w = false
          /\ (t = Thread.Ended -> Thread.heap w = None)
          /\ (forall v, c = Thread.Joined v -> v = 0))
  /\ (forall s, Thread.reachable Thread.QEMU_THREAD_DETACHED junk r s ->
        exists sched s',
          Thread.run_schedule Thread.QEMU_THREAD_DETACHED junk r sched s = Some s'
          /\ ThreadMore.detached_done s').
Proof.
  split.
  - intros s Hreach.
    pose proof (ThreadMoreProofs.detached_reachable junk r s Hreach) as Hinv.
    split; [intros ->; exact Hinv|].
    intros w c t ->. destruct Hinv as (Htd & _ & Hc & Ht).
    split; [exact Htd|]. split.
    + intros ->. apply Ht.
    + intros v ->. exact Hc.
  - intros s Hreach.
    pose proof (ThreadMoreProofs.detached_reachable junk r s Hreach) as Hinv.
    exact (ThreadMoreProofs.detached_terminates junk r
             (S (Thread.rank s)) s (Nat.lt_succ_diag_r _) Hinv).
Qed.

(** X11.  [qemu_thread_join] frees the descriptor and leaves [thread->data]
    pointing to it: in every reachable state of a joinable creation in which
    the join has returned, the reference is not NULL and the descriptor is
    freed, and a second [qemu_thread_join] reads the freed descriptor at the
    assertion of [qemu_thread_get_handle]. *)
Theorem second_join_reads_freed_descriptor (junk r : Z) (s : Thread.tsys)
    (w : Thread.tworld) (v : Z) (t : Thread.spawned) :
  Thread.reachable Thread.QEMU_THREAD_JOINABLE junk r s ->
  s = Thread.Live w (Thread.Joined v) t ->
  Thread.thread_data w = true /\ Thread.heap w = None
  /\ run_with Thread.qemu_thread_join Thread.J_data w (alone 3)
     = ([Thread.a_thread_data_load true; Thread.a_thread_data_load true], Crashed).
Proof.
  intros Hreach ->.
  pose proof (ThreadMoreProofs.joined_keeps_reference junk r _ Hreach) as Htd.
  pose proof (ThreadProofs.joinable_reachable Thread.QEMU_THREAD_JOINABLE junk r _ eq_refl eq_refl Hreach) as Hinv.
  destruct Hinv as ((_ & _ & Hh) & _).
  cbn in Htd. split; [exact Htd|]. split; [exact Hh|].
  unfold alone. cbn. rewrite Htd. cbn. rewrite Htd. cbn. rewrite Hh. reflexivity.
Qed.

Lemma second_join_reads_freed_descriptor_witness :
  run_with Thread.qemu_thread_join Thread.J_data
    (Thread.mkT None true true (RW.mkCS 0 0) false) (alone 3)
  = ([Thread.a_thread_data_load true; Thread.a_thread_data_load true], Crashed).
Proof.
  assert (Hreach : Thread.reachable Thread.QEMU_THREAD_JOINABLE 7 42
                     (Thread.Live (Thread.mkT None true true (RW.mkCS 0 0) false)
                        (Thread.Joined 42) Thread.Ended)).
  { assert (Hgen : forall sched s s',
               Thread.reachable Thread.QEMU_THREAD_JOINABLE 7 42 s ->
               Thread.run_schedule Thread.QEMU_THREAD_JOINABLE 7 42 sched s = Some s' ->
               Thread.reachable Thread.QEMU_THREAD_JOINABLE 7 42 s').
    { induction sched as [|x rest IH]; intros s0 s1 Hr Hrun; cbn in Hrun.
      - injection Hrun as <-. exact Hr.
      - destruct (Thread.sys_step Thread.QEMU_THREAD_JOINABLE 7 42 x s0) as [s2|] eqn:Hs;
          [|discriminate].
        apply (IH s2 s1); [|exact Hrun].
        exact (Thread.reach_step _ _ _ s0 x s2 Hr Hs). }
    apply (Hgen Thread.create_run_join Thread.init_sys).
    - apply Thread.reach_init.
    - reflexivity. }
  exact (proj2 (proj2 (second_join_reads_freed_descriptor 7 42 _ _ 42 Thread.Ended
                         Hreach eq_refl))).
Defined.

(** ** The POSIX wrappers in a pool of threads *)

Module PosixPoolProofs.
Import Posix PosixPool.

Ltac px_cases H :=
  repeat (cbn in H;
          unfold pthread_mutex_lock, pthread_mutex_unlock,
                 pthread_mutex_trylock in H;
          cbn in H;
          match type of H with
          | context [match ?x with _ => _ end] =>
              lazymatch x with
              | context [match _ with _ => _ end] => fail
              | _ => destruct x eqn:?
              end
          end);
  cbn in H.

Ltac px_open :=
  unfold thread_ok, frame, has_lock, set_owner, pthread_null, EPERM, EDEADLK,
    EBUSY in *;
  cbn in *.

Ltac px_split :=
  repeat first
    [ progress subst
    | match goal with
      | H : _ /\ _ |- _ => destruct H
      | H : Some _ = Some _ |- _ => injection H as H
      | H : (_, _) = (_, _) |- _ => injection H as ? ?
      | H : (_ =? _) = true |- _ => apply Z.eqb_eq in H
      | H : (_ =? _) = false |- _ => apply Z.eqb_neq in H
      | H : ?a = ?a -> _ |- _ => specialize (H eq_refl)
      | H : _ \/ _ |- _ => destruct H
      end ].

Ltac px_leaf :=
  cbn in *; intros; px_split;
  first [ assumption | reflexivity | congruence | discriminate | lia
        | match goal with
          | H : _ -> ?P |- ?P => apply H; first [assumption | congruence | lia]
          end ].

Ltac px_close :=
  cbn in *; intros; px_split;
  repeat match goal with |- _ /\ _ => split end;
  first [ px_leaf | left; px_close | right; px_close ].

Lemma posix_step_self self p m th' m' :
  self <> 0 ->
  thread_ok self (Running p) m ->
  (owner m = 0 \/ lock m = Some (owner m)) ->
  after (thread_step self p m) = Some (th', m') ->
  thread_ok self th' m'
  /\ (owner m' = 0 \/ lock m' = Some (owner m'))
  /\ frame self m m'.
Proof.
  intros Hself Hok Hown Hstep.
  destruct m as [lk ow].
  destruct p as [q|q|q|q]; destruct q.
  all: px_cases Hstep; try discriminate.
  all: px_open; px_split.
  all: try congruence; try lia.
  all: solve [px_close].
Qed.

Lemma posix_others_preserved self other th m m' :
  other <> self -> frame self m m' ->
  thread_ok other th m -> thread_ok other th m'.
Proof.
  intros Hne Hf Hok.
  destruct m as [lk ow], m' as [lk' ow'].
  destruct th as [|[q|q|q|q]]; try destruct q.
  all: px_open; px_split.
  all: try congruence.
  all: try solve [px_close].
Qed.

Lemma posix_enter_ok self f m : thread_ok self (Running (entry f)) m.
Proof. destruct f; exact I. Qed.

Lemma posix_pool_step_preserves n s i c s' :
  sys_inv n s -> sys_step i c s = Some s' -> sys_inv n s'.
Proof.
  intros Hinv Hstep.
  destruct s as [m ts|]; [|discriminate]. cbn in Hinv, Hstep.
  destruct (ts !! i) as [th|] eqn:Hi; [|discriminate].
  destruct Hinv as [Hlen Hth Hown Hhold].
  assert (Hin : (i < n)%nat) by (rewrite <- Hlen; eapply lookup_lt_Some; eauto).
  destruct th as [|p], c as [f|]; try discriminate.
  - injection Hstep as <-. cbn. constructor; auto.
    + rewrite length_insert. exact Hlen.
    + intros j thj Hj. destruct (Nat.eq_dec j i) as [->|Hne].
      * rewrite list_lookup_insert_eq in Hj by (rewrite Hlen; exact Hin).
        injection Hj as <-. apply posix_enter_ok.
      * rewrite list_lookup_insert_ne in Hj by auto. auto.
  - destruct (after (thread_step (tid i) p m)) as [[th' m']|] eqn:Ha.
    + assert (s' = Live m' (<[i := th']> ts)) as ->.
      { unfold after in Ha.
        destruct (thread_step (tid i) p m); try discriminate;
          injection Ha as <- <-; injection Hstep as <-; reflexivity. }
      assert (Hself : tid i <> 0) by (pose proof (tid_pos i); lia).
      destruct (posix_step_self (tid i) p m th' m' Hself (Hth i _ Hi) Hown Ha)
        as (Hok' & Hown' & Hf).
      cbn. constructor; auto.
      * rewrite length_insert. exact Hlen.
      * intros j thj Hj. destruct (Nat.eq_dec j i) as [->|Hne].
        -- rewrite list_lookup_insert_eq in Hj by (rewrite Hlen; exact Hin).
           injection Hj as <-. exact Hok'.
        -- rewrite list_lookup_insert_ne in Hj by auto.
           apply (posix_others_preserved (tid i) (tid j) thj m m'); auto.
           intros E. apply tid_inj in E. auto.
      * intros t Ht. destruct Hf as [[Hl|[[_ Hl]|[_ Hl]]] _].
        -- apply Hhold. congruence.
        -- exists i. split; [exact Hin|congruence].
        -- congruence.
    + unfold after in Ha.
      destruct (thread_step (tid i) p m); try discriminate.
      injection Hstep as <-. exact I.
Qed.

Lemma posix_pool_reachable_inv n s : reachable n s -> sys_inv n s.
Proof.
  intros H. induction H as [|s i c s' _ IH Hstep].
  - cbn. constructor; cbn.
    + apply repeat_length.
    + intros i th Hi.
      assert (th = Idle) as ->.
      { apply list_elem_of_lookup_2 in Hi. apply list_elem_of_In in Hi.
        now apply repeat_spec in Hi. }
      exact I.
    + left. reflexivity.
    + intros t Ht. discriminate.
  - exact (posix_pool_step_preserves n s i c s' IH Hstep).
Qed.

Lemma posix_pool_schedule_reachable n : forall sched s s',
  reachable n s -> run_schedule sched s = Some s' -> reachable n s'.
Proof.
  induction sched as [|[i c] rest IH]; intros s s' Hr Hrun; cbn in Hrun.
  - injection Hrun as <-. exact Hr.
  - destruct (sys_step i c s) as [s1|] eqn:Hs; [|discriminate].
    apply (IH s1 s'); [|exact Hrun].
    exact (reach_step n s i c s1 Hr Hs).
Qed.

End PosixPoolProofs.

(** X12.  On the POSIX backend the owner field is never stale.  In every
    state that any interleaving of any number of threads calling lock,
    trylock, unlock and [qemu_cond_wait] can reach, an owner field that
    names a thread names the thread that has the native mutex, and that is a
    thread of the pool; and a thread about to release the native mutex, in
    unlock or in [qemu_cond_wait], finds the owner field cleared.  Locking a
    mutex one has, unlocking one one does not have and waiting without being
    the owner terminate the process. *)
Theorem posix_owner_names_the_holder (n : nat) (s : PosixPool.sys) :
  PosixPool.reachable n s ->
  match s with
  | PosixPool.Dead => True
  | PosixPool.Live m ts =>
      (Posix.owner m <> 0 -> Posix.lock m = Some (Posix.owner m))
      /\ (forall t, Posix.lock m = Some t -> exists i, (i < n)%nat /\ t = tid i)
      /\ (forall i, Posix.lock m = Some (tid i) ->
            (ts !! i = Some (PosixPool.Running (PosixPool.P_unlock PosixPool.PU_unlock))
             \/ ts !! i = Some (PosixPool.Running (PosixPool.P_wait PosixPool.PW_release))) ->
            Posix.owner m = 0)
      /\ (forall i, Posix.lock m = Some (tid i) ->
            ts !! i = Some (PosixPool.Running (PosixPool.P_lock PosixPool.PL_lock)) ->
            exists s1 s2,
              PosixPool.run_schedule (repeat (i, PosixPool.Step) 2) s = Some s1
              /\ PosixPool.sys_step i PosixPool.Step s1 = Some s2
              /\ s2 = PosixPool.Dead)
      /\ (forall i, Posix.lock m <> Some (tid i) ->
            ts !! i = Some (PosixPool.Running (PosixPool.P_unlock PosixPool.PU_owner)) ->
            exists s1,
              PosixPool.sys_step i PosixPool.Step s = Some s1
              /\ PosixPool.sys_step i PosixPool.Step s1 = Some PosixPool.Dead)
      /\ (forall i, Posix.owner m <> tid i ->
            ts !! i = Some (PosixPool.Running (PosixPool.P_wait PosixPool.PW_assert)) ->
            PosixPool.sys_step i PosixPool.Step s = Some PosixPool.Dead)
  end.
Proof.
  intros Hreach.
  pose proof (PosixPoolProofs.posix_pool_reachable_inv n s Hreach) as Hinv.
  destruct s as [m ts|]; [|exact I]. cbn in Hinv.
  destruct Hinv as [Hlen Hth Hown Hhold].
  split; [|split; [|split; [|split; [|split]]]].
  - intros Ho. destruct Hown; [contradiction|assumption].
  - exact Hhold.
  - intros i Hl [Hi|Hi]; pose proof (Hth i _ Hi) as Hok; cbn in Hok.
    + exact (Hok Hl).
    + exact (proj2 Hok).
  - intros i Hl Hi.
    assert (Hin : (i < length ts)%nat) by (eapply lookup_lt_Some; eauto).
    destruct m as [lk ow]. cbn in Hl. subst lk.
    do 2 eexists. split; [|split].
    + cbn. rewrite Hi. cbn. unfold PosixPool.pthread_mutex_lock. cbn.
      rewrite Z.eqb_refl. cbn.
      rewrite list_lookup_insert_eq by exact Hin. cbn. reflexivity.
    + cbn. rewrite list_lookup_insert_eq by (rewrite length_insert; exact Hin).
      cbn. reflexivity.
    + reflexivity.
  - intros i Hl Hi.
    assert (Hin : (i < length ts)%nat) by (eapply lookup_lt_Some; eauto).
    destruct m as [lk ow]. cbn in Hl.
    eexists. split.
    + cbn. rewrite Hi. cbn. reflexivity.
    + cbn. rewrite list_lookup_insert_eq by exact Hin. cbn.
      unfold PosixPool.pthread_mutex_unlock. cbn.
      destruct lk as [t|]; [|reflexivity].
      destruct (t =? tid i) eqn:E; [|reflexivity].
      apply Z.eqb_eq in E. congruence.
  - intros i Ho Hi. cbn. rewrite Hi. cbn.
    apply Z.eqb_neq in Ho. rewrite Ho. reflexivity.
Qed.

Lemma posix_owner_names_the_holder_witness :
  exists m ts,
    PosixPool.run_schedule PosixPool.wait_and_lock (PosixPool.init_sys 2)
    = Some (PosixPool.Live m ts)
    /\ Posix.owner m = tid 1 /\ Posix.lock m = Some (tid 1).
Proof.
  destruct (PosixPool.run_schedule PosixPool.wait_and_lock (PosixPool.init_sys 2))
    as [[m ts|]|] eqn:Hrun; try (vm_compute in Hrun; discriminate).
  pose proof (posix_owner_names_the_holder 2 (PosixPool.Live m ts)
                (PosixPoolProofs.posix_pool_schedule_reachable 2 _ _ _
                   (PosixPool.reach_init 2) Hrun)) as [Ho _].
  exists m, ts. vm_compute in Hrun. injection Hrun as <- <-.
  split; [reflexivity|]. split; [reflexivity|].
  apply Ho. vm_compute. discriminate.
Defined.

(** ** The reader-writer lock used as intended *)

Module RWClientsProofs.
Import RW RWClients.
Import RWPool.

#[local] Arguments wrap32 : simpl never.

Ltac cl_open :=
  unfold client_ok, count_frame, cafter, result_mode in *; pool_open.

Lemma client_step_self self h p m :
  self <> 0 ->
  thread_ok self (Running p) m ->
  shared_ok m ->
  client_ok self (Inside h p) m ->
  reads (Inside h p) <= readerCount m ->
  readerCount m - reads (Inside h p) < 2 ^ 31 - 1 ->
  (p = P_wrlock WR_wait -> noReaders m = true -> readerCount m <= 0) ->
  op_step self p m <> Fatal
  /\ forall c' m', cafter h p (op_step self p m) = Some (c', m') ->
       client_ok self c' m'
       /\ readerCount m' = readerCount m - reads (Inside h p) + reads c'
       /\ count_frame self m m'.
Proof.
  intros Hself Hok Hsh Hcl Hcnt Hmax Hev.
  destruct m as [cnt wr [ro rd] [wo wd] ev].
  assert (Hl : is_long cnt) by apply Hsh.
  split.
  - destruct (op_step self p
                {| readerCount := cnt; writer := wr;
                   readerCountLock := {| cs_owner := ro; cs_depth := rd |};
                   writerLock := {| cs_owner := wo; cs_depth := wd |};
                   noReaders := ev |}) eqn:Hs; try discriminate.
    exfalso.
    destruct h; destruct p as [q|q|q]; destruct q.
    all: cl_open; try contradiction.
    all: pool_cases Hs; try discriminate.
    all: pool_split; try congruence; try lia.
  - intros c' m' Hstep.
    destruct h; destruct p as [q|q|q]; destruct q.
    all: cl_open; try contradiction.
    all: pool_cases Hstep; try discriminate.
    all: cl_open; pool_split.
    all: try lia; try congruence.
    all: try (destruct (wrap32_inc_cases cnt Hl) as [[Hi1 Hi2]|[Hi1 Hi2]];
              rewrite ?Hi2 in *; [|exfalso; lia]).
    all: try (destruct (wrap32_dec_cases cnt Hl) as [[Hd1 Hd2]|[Hd1 Hd2]];
              rewrite ?Hd2 in *; [|exfalso; lia]).
    all: try (specialize (Hev eq_refl eq_refl)).
    all: solve [pool_close].
Qed.

Lemma reads_range c : 0 <= reads c <= 1.
Proof.
  destruct c as [[| |]|[| |] [q|q|q]]; try destruct q; cbn; lia.
Qed.

Lemma readers_update : forall ts i c c',
  ts !! i = Some c ->
  readers (<[i := c']> ts) = readers ts - reads c + reads c'.
Proof.
  induction ts as [|t ts IH]; intros i c c' Hi; [discriminate|].
  destruct i as [|i]; simpl in Hi.
  - injection Hi as ->.
    change (reads c' + readers ts = reads c + readers ts - reads c + reads c'). lia.
  - change (reads t + readers (<[i := c']> ts)
            = reads t + readers ts - reads c + reads c').
    rewrite (IH i c c' Hi). lia.
Qed.

Lemma readers_others : forall ts i c,
  ts !! i = Some c ->
  0 <= readers ts - reads c <= Z.of_nat (length ts) - 1.
Proof.
  assert (Hall : forall ts, 0 <= readers ts <= Z.of_nat (length ts)).
  { induction ts as [|t ts IH]; cbn [readers length]; [lia|].
    pose proof (reads_range t). lia. }
  induction ts as [|t ts IH]; intros i c Hi; [discriminate|].
  destruct i as [|i]; cbn [readers length] in *.
  - injection Hi as ->. specialize (Hall ts). lia.
  - specialize (IH i c Hi). pose proof (reads_range t). lia.
Qed.

Lemma readers_elem ts i c : ts !! i = Some c -> reads c <= readers ts.
Proof. intros Hi. pose proof (readers_others ts i c Hi). lia. Qed.

Lemma erase_lookup (ts : list client) i c :
  ts !! i = Some c -> map erase ts !! i = Some (erase c).
Proof.
  revert i. induction ts as [|t ts IH]; intros i Hi; [discriminate|].
  destruct i as [|i]; simpl in *; [congruence|auto].
Qed.

Lemma erase_insert : forall (ts : list client) i c,
  map erase (<[i := c]> ts) = <[i := erase c]> (map erase ts).
Proof.
  induction ts as [|t ts IH]; intros i c; [reflexivity|].
  destruct i as [|i]; simpl; [reflexivity|].
  change (erase t :: map erase (<[i := c]> ts)
          = erase t :: <[i := erase c]> (map erase ts)).
  now rewrite IH.
Qed.

(** A move of a client is a move of the pool. *)
Lemma erase_step i ch m ts m' ts' :
  RWClients.sys_step i ch (CLive m ts) = Some (CLive m' ts') ->
  RW.sys_step i ch (Live m (map erase ts)) = Some (Live m' (map erase ts')).
Proof.
  intros H. cbn in *.
  destruct (ts !! i) as [c|] eqn:Hi; [|discriminate].
  rewrite (erase_lookup ts i c Hi).
  destruct c as [h|h p], ch as [o|]; try discriminate; cbn.
  - destruct (allowed h o); [|discriminate].
    injection H as <- <-. now rewrite erase_insert.
  - destruct (op_step (tid i) p m); try discriminate;
      injection H as <- <-; now rewrite erase_insert.
Qed.

Lemma client_others self other c m m' :
  other <> self -> other <> 0 ->
  frame self m m' -> count_frame self m m' ->
  client_ok other c m -> client_ok other c m'.
Proof.
  intros Hne Hnz Hf Hc Hok.
  destruct m as [cnt wr [ro rd] [wo wd] ev].
  destruct m' as [cnt' wr' [ro' rd'] [wo' wd'] ev'].
  destruct c as [[| |]|[| |] [q|q|q]]; try destruct q.
  all: cl_open; try contradiction.
  all: pool_split; try congruence; try lia.
  all: try solve [pool_close].
Qed.

Lemma clients_step n s i ch s' :
  Z.of_nat n < 2 ^ 31 ->
  csys_inv n s -> RWClients.sys_step i ch s = Some s' -> csys_inv n s'.
Proof.
  intros Hn Hinv Hstep.
  destruct s as [m ts|]; [|contradiction].
  destruct Hinv as [Hpool Hcount Hcl].
  assert (Hlen : length ts = n).
  { pose proof (pi_len n m _ Hpool) as H. now rewrite length_map in H. }
  pose proof Hstep as Hstep0. cbn in Hstep.
  destruct (ts !! i) as [c|] eqn:Hi; [|discriminate].
  assert (Hin : (i < n)%nat) by (rewrite <- Hlen; eapply lookup_lt_Some; eauto).
  assert (Hself : tid i <> 0) by (pose proof (tid_pos i); lia).
  pose proof (readers_others ts i c Hi) as Hro. rewrite Hlen in Hro.
  destruct c as [h|h p], ch as [o|]; try discriminate.
  - destruct (allowed h o) eqn:Ha; [|discriminate].
    injection Hstep as <-.
    pose proof (pool_step_preserves n (Live m (map erase ts)) i (Enter o) _ Hn Hpool
                  (erase_step i (Enter o) m ts m _ Hstep0)) as Hpool'.
    cbn in Hpool'. cbn. constructor; auto.
    + rewrite (readers_update ts i (Between h) _ Hi), Hcount.
      destruct h, o; try discriminate Ha; cbn; lia.
    + intros j cj Hj. destruct (Nat.eq_dec j i) as [->|Hne].
      * rewrite list_lookup_insert_eq in Hj by (rewrite Hlen; exact Hin).
        injection Hj as <-. pose proof (Hcl i _ Hi) as Hok.
        destruct h, o; try discriminate Ha; cbn in *; auto.
      * rewrite list_lookup_insert_ne in Hj by auto. auto.
  - pose proof (pi_thread n m _ Hpool i _ (erase_lookup ts i _ Hi)) as Hok.
    cbn in Hok.
    assert (Hsh : shared_ok m).
    { destruct Hpool. repeat split; auto; apply pi_long0. }
    assert (Hev : p = P_wrlock WR_wait -> noReaders m = true -> readerCount m <= 0).
    { intros -> He.
      destruct (Z_lt_ge_dec 0 (readerCount m)) as [Hpos|]; [|lia].
      assert (Hno : forall j, map erase ts !! j <> Some (Running (P_rdlock RD_reset))).
      { intros j Hj.
        pose proof (pi_thread n m _ Hpool j _ Hj) as Hokj.
        destruct Hokj as ((Hwj & _) & _).
        destruct Hok as ([(Hwi & _)|(Hwi & _)] & _);
          rewrite Hwi in Hwj; injection Hwj as Hij;
          apply tid_inj in Hij; subst j;
          rewrite (erase_lookup ts i _ Hi) in Hj; discriminate. }
      pose proof (event_unset_with_readers n m _ Hpool Hno Hpos). congruence. }
    destruct (client_step_self (tid i) h p m Hself Hok Hsh (Hcl i _ Hi)
                ltac:(lia) ltac:(lia) Hev) as [Hnf Hnext].
    destruct (op_step (tid i) p m) as [a p' m'|a v m'| |] eqn:Hop;
      try discriminate; try contradiction.
    + injection Hstep as <-.
      destruct (Hnext _ _ eq_refl) as (Hok' & Hc' & Hcf).
      pose proof (pool_step_preserves n (Live m (map erase ts)) i Step _ Hn Hpool
                    (erase_step i Step m ts _ _ Hstep0)) as Hpool'.
      cbn in Hpool'.
      destruct (step_self (tid i) p m (Running p') m'
                  (pending (map erase ts) - pend (Running p) - Z.of_nat n)
                  Hself) as (_ & _ & Hf & _).
      { pose proof (pending_others _ i _ (erase_lookup ts i _ Hi)) as Hp.
        rewrite length_map, Hlen in Hp.
        change (erase (Inside h p)) with (Running p) in Hp. lia. }
      { pose proof (pending_others _ i _ (erase_lookup ts i _ Hi)) as Hp.
        rewrite length_map, Hlen in Hp.
        change (erase (Inside h p)) with (Running p) in Hp. lia. }
      { exact Hok. }
      { exact Hsh. }
      { intros He. pose proof (pi_bound n m _ Hpool He). lia. }
      { unfold after. rewrite Hop. reflexivity. }
      cbn. constructor; auto.
      * rewrite (readers_update ts i _ _ Hi). lia.
      * intros j cj Hj. destruct (Nat.eq_dec j i) as [->|Hne].
        -- rewrite list_lookup_insert_eq in Hj by (rewrite Hlen; exact Hin).
           injection Hj as <-. exact Hok'.
        -- rewrite list_lookup_insert_ne in Hj by auto.
           apply (client_others (tid i) (tid j) cj m m'); auto.
           ++ intros E. apply tid_inj in E. auto.
           ++ pose proof (tid_pos j). lia.
    + injection Hstep as <-.
      destruct (Hnext _ _ eq_refl) as (Hok' & Hc' & Hcf).
      pose proof (pool_step_preserves n (Live m (map erase ts)) i Step _ Hn Hpool
                    (erase_step i Step m ts _ _ Hstep0)) as Hpool'.
      cbn in Hpool'.
      destruct (step_self (tid i) p m Idle m'
                  (pending (map erase ts) - pend (Running p) - Z.of_nat n)
                  Hself) as (_ & _ & Hf & _).
      { pose proof (pending_others _ i _ (erase_lookup ts i _ Hi)) as Hp.
        rewrite length_map, Hlen in Hp.
        change (erase (Inside h p)) with (Running p) in Hp. lia. }
      { pose proof (pending_others _ i _ (erase_lookup ts i _ Hi)) as Hp.
        rewrite length_map, Hlen in Hp.
        change (erase (Inside h p)) with (Running p) in Hp. lia. }
      { exact Hok. }
      { exact Hsh. }
      { intros He. pose proof (pi_bound n m _ Hpool He). lia. }
      { unfold after. rewrite Hop. reflexivity. }
      cbn. constructor; auto.
      * rewrite (readers_update ts i _ _ Hi). lia.
      * intros j cj Hj. destruct (Nat.eq_dec j i) as [->|Hne].
        -- rewrite list_lookup_insert_eq in Hj by (rewrite Hlen; exact Hin).
           injection Hj as <-. exact Hok'.
        -- rewrite list_lookup_insert_ne in Hj by auto.
           apply (client_others (tid i) (tid j) cj m m'); auto.
           ++ intros E. apply tid_inj in E. auto.
           ++ pose proof (tid_pos j). lia.
Qed.

Lemma clients_init n : csys_inv n (RWClients.init_sys n).
Proof.
  cbn. constructor.
  - assert (map erase (repeat (Between Nothing) n) = repeat Idle n) as ->.
    { induction n as [|k IH]; cbn; [reflexivity|now rewrite IH]. }
    exact (pool_init_inv n).
  - cbn. induction n as [|k IH]; cbn; [reflexivity|exact IH].
  - intros i c Hi.
    assert (c = Between Nothing) as ->.
    { apply list_elem_of_lookup_2 in Hi. apply list_elem_of_In in Hi.
      now apply repeat_spec in Hi. }
    cbn. unfold w_away. cbn. pose proof (tid_pos i). lia.
Qed.

Lemma clients_reachable n s :
  Z.of_nat n < 2 ^ 31 -> RWClients.reachable n s -> csys_inv n s.
Proof.
  intros Hn H. induction H as [|s i c s' _ IH Hstep].
  - apply clients_init.
  - exact (clients_step n s i c s' Hn IH Hstep).
Qed.

Lemma clients_schedule_reachable n : forall sched s s',
  RWClients.reachable n s -> RWClients.run_schedule sched s = Some s' ->
  RWClients.reachable n s'.
Proof.
  induction sched as [|[i c] rest IH]; intros s s' Hr Hrun; cbn in Hrun.
  - injection Hrun as <-. exact Hr.
  - destruct (RWClients.sys_step i c s) as [s1|] eqn:Hs; [|discriminate].
    apply (IH s1 s'); [|exact Hrun].
    exact (RWClients.reach_step n s i c s1 Hr Hs).
Qed.

(** *** Nobody waits for nothing *)

Lemma live_step_self self h p m :
  self <> 0 ->
  thread_ok self (Running p) m ->
  client_ok self (Inside h p) m ->
  reads (Inside h p) <= readerCount m ->
  is_long (readerCount m) ->
  (cs_owner (readerCountLock m) = 0 -> event_follows m) ->
  leaving_ok (Inside h p) m ->
  forall c' m', cafter h p (op_step self p m) = Some (c', m') ->
    leaving_ok c' m'
    /\ (cs_owner (readerCountLock m') = 0 -> event_follows m').
Proof.
  intros Hself Hok Hcl Hcnt Hl Hfree Hlv c' m' Hstep.
  destruct m as [cnt wr [ro rd] [wo wd] ev].
  destruct h; destruct p as [q|q|q]; destruct q.
  all: cl_open; unfold leaving_ok, event_follows in *; cbn in *; try contradiction.
  all: pool_cases Hstep; try discriminate.
  all: cl_open; pool_split.
  all: try lia; try congruence.
  all: try (destruct (wrap32_inc_cases cnt Hl) as [[Hi1 Hi2]|[Hi1 Hi2]];
            rewrite ?Hi2 in *).
  all: try (destruct (wrap32_dec_cases cnt Hl) as [[Hd1 Hd2]|[Hd1 Hd2]];
            rewrite ?Hd2 in *).
  all: solve [pool_close].
Qed.

Lemma live_others self other c m m' :
  other <> self -> other <> 0 -> frame self m m' ->
  thread_ok other (erase c) m -> leaving_ok c m -> leaving_ok c m'.
Proof.
  intros Hne Hnz Hf Hok Hlv.
  destruct m as [cnt wr [ro rd] [wo wd] ev].
  destruct m' as [cnt' wr' [ro' rd'] [wo' wd'] ev'].
  destruct c as [[| |]|[| |] [q|q|q]]; try destruct q; try exact I.
  all: cl_open; unfold leaving_ok, event_follows in *; cbn in *.
  all: pool_split; try congruence; try lia.
  all: try solve [pool_close].
Qed.

Lemma live_step n m ts i ch m' ts' :
  Z.of_nat n < 2 ^ 31 ->
  clients_inv n m ts -> live_inv m ts ->
  RWClients.sys_step i ch (CLive m ts) = Some (CLive m' ts') ->
  live_inv m' ts'.
Proof.
  intros Hn [Hpool Hcount Hcl] [Hfree Hlv] Hstep.
  assert (Hlen : length ts = n).
  { pose proof (pi_len n m _ Hpool) as H. now rewrite length_map in H. }
  cbn in Hstep.
  destruct (ts !! i) as [c|] eqn:Hi; [|discriminate].
  assert (Hin : (i < n)%nat) by (rewrite <- Hlen; eapply lookup_lt_Some; eauto).
  assert (Hself : tid i <> 0) by (pose proof (tid_pos i); lia).
  destruct c as [h|h p], ch as [o|]; try discriminate.
  - destruct (allowed h o); [|discriminate].
    injection Hstep as <- <-. constructor; [exact Hfree|].
    intros j cj Hj. destruct (Nat.eq_dec j i) as [->|Hne].
    + rewrite list_lookup_insert_eq in Hj by (rewrite Hlen; exact Hin).
      injection Hj as <-. destruct o; exact I.
    + rewrite list_lookup_insert_ne in Hj by auto. eauto.
  - pose proof (pi_thread n m _ Hpool i _ (erase_lookup ts i _ Hi)) as Hok.
    cbn in Hok.
    assert (Hsh : shared_ok m).
    { destruct Hpool. repeat split; auto; apply pi_long0. }
    pose proof (readers_elem ts i _ Hi) as Hre. rewrite <- Hcount in Hre.
    pose proof (live_step_self (tid i) h p m Hself Hok (Hcl i _ Hi) Hre
                  (pi_long n m _ Hpool) Hfree (Hlv i _ Hi)) as Hnext.
    assert (Hframe : forall th, after (op_step (tid i) p m) = Some (th, m') ->
                                frame (tid i) m m').
    { intros th Ha.
      pose proof (pending_others _ i _ (erase_lookup ts i _ Hi)) as Hp.
      rewrite length_map, Hlen in Hp.
      change (erase (Inside h p)) with (Running p) in Hp.
      destruct (step_self (tid i) p m th m'
                  (pending (map erase ts) - pend (Running p) - Z.of_nat n)
                  Hself ltac:(lia) ltac:(lia) Hok Hsh) as (_ & _ & Hf & _); auto.
      intros He. pose proof (pi_bound n m _ Hpool He). lia. }
    destruct (op_step (tid i) p m) as [a p' m1|a v m1| |] eqn:Hop;
      try discriminate.
    + injection Hstep as <- <-.
      destruct (Hnext _ _ eq_refl) as (Hlv' & Hfree').
      constructor; [exact Hfree'|].
      intros j cj Hj. destruct (Nat.eq_dec j i) as [->|Hne].
      * rewrite list_lookup_insert_eq in Hj by (rewrite Hlen; exact Hin).
        injection Hj as <-. exact Hlv'.
      * rewrite list_lookup_insert_ne in Hj by auto.
        apply (live_others (tid i) (tid j) cj m m1); auto.
        -- intros E. apply tid_inj in E. auto.
        -- pose proof (tid_pos j). lia.
        -- exact (Hframe _ eq_refl).
        -- exact (pi_thread n m _ Hpool j _ (erase_lookup ts j _ Hj)).
        -- exact (Hlv j _ Hj).
    + injection Hstep as <- <-.
      destruct (Hnext _ _ eq_refl) as (Hlv' & Hfree').
      constructor; [exact Hfree'|].
      intros j cj Hj. destruct (Nat.eq_dec j i) as [->|Hne].
      * rewrite list_lookup_insert_eq in Hj by (rewrite Hlen; exact Hin).
        injection Hj as <-. exact Hlv'.
      * rewrite list_lookup_insert_ne in Hj by auto.
        apply (live_others (tid i) (tid j) cj m m1); auto.
        -- intros E. apply tid_inj in E. auto.
        -- pose proof (tid_pos j). lia.
        -- exact (Hframe _ eq_refl).
        -- exact (pi_thread n m _ Hpool j _ (erase_lookup ts j _ Hj)).
        -- exact (Hlv j _ Hj).
Qed.

Lemma live_reachable n s :
  Z.of_nat n < 2 ^ 31 -> RWClients.reachable n s ->
  match s with
  | CLive m ts => clients_inv n m ts /\ live_inv m ts
  | CDead => False
  end.
Proof.
  intros Hn H. induction H as [|s i c s' Hreach IH Hstep].
  - split; [exact (clients_init n)|].
    constructor.
    + intros _ He. cbn in He. discriminate.
    + intros i c Hi.
      assert (c = Between Nothing) as ->.
      { apply list_elem_of_lookup_2 in Hi. apply list_elem_of_In in Hi.
        now apply repeat_spec in Hi. }
      exact I.
  - destruct s as [m ts|]; [|contradiction]. destruct IH as [Hc Hl].
    pose proof (clients_step n (CLive m ts) i c s' Hn Hc Hstep) as Hc'.
    destruct s' as [m' ts'|]; [|contradiction].
    split; [exact Hc'|].
    exact (live_step n m ts i c m' ts' Hn Hc Hl Hstep).
Qed.

Lemma moves_unless_blocked m ts j h p :
  ts !! j = Some (Inside h p) -> op_step (tid j) p m <> Blocked ->
  moves m ts j = true.
Proof.
  intros Hj Hnb. unfold moves, RWClients.sys_step. rewrite Hj.
  destruct (op_step (tid j) p m); try reflexivity. congruence.
Qed.

(** The cases of the three functions that can wait. *)
Lemma blocked_cases self p m :
  op_step self p m = Blocked ->
  ((p = P_rdlock RD_enter_w \/ p = P_wrlock WR_enter)
   /\ cs_owner (writerLock m) <> 0 /\ cs_owner (writerLock m) <> self)
  \/ ((p = P_rdlock RD_enter_rc \/ p = P_unlock UN_enter)
      /\ cs_owner (readerCountLock m) <> 0)
  \/ (p = P_wrlock WR_wait /\ noReaders m = false).
Proof.
  destruct m as [cnt wr [ro rd] [wo wd] ev].
  destruct p as [q|q|q]; destruct q; cbn;
    unfold enter_writerLock, enter_readerCountLock, EnterCriticalSection,
      LeaveCriticalSection; cbn;
    repeat match goal with
           | |- context [if ?b then _ else _] => destruct b eqn:?
           end; cbn; try discriminate; intros _.
  all: repeat match goal with
              | H : (_ =? _) = false |- _ => apply Z.eqb_neq in H
              end.
  all: first [ left; split; [auto|split; assumption]
             | right; left; split; [auto|assumption]
             | right; right; split; reflexivity ].
Qed.

Lemma pool_lookup n m (ts : list client) i :
  clients_inv n m ts -> (i < n)%nat ->
  exists c, ts !! i = Some c /\ thread_ok (tid i) (erase c) m
            /\ client_ok (tid i) c m.
Proof.
  intros [Hpool _ Hcl] Hi.
  pose proof (pi_len n m _ Hpool) as Hlen. rewrite length_map in Hlen.
  destruct (lookup_lt_is_Some_2 ts i ltac:(lia)) as [c Hc].
  exists c. split; [exact Hc|]. split; [|eauto].
  exact (pi_thread n m _ Hpool i _ (erase_lookup ts i _ Hc)).
Qed.

(** The owner of the reader-count guard never waits. *)
Lemma count_guard_owner_moves n m ts :
  clients_inv n m ts -> cs_owner (readerCountLock m) <> 0 ->
  exists j, moves m ts j = true.
Proof.
  intros Hinv Hr.
  destruct (pi_rowner n m _ (ci_pool n m ts Hinv)) as [H0|(i & Hi & Ho)];
    [contradiction|].
  destruct (pool_lookup n m ts i Hinv Hi) as (c & Hc & Hok & _).
  exists i.
  destruct c as [h|h p].
  { cbn in Hok. destruct Hok as (_ & Ha). contradiction. }
  eapply moves_unless_blocked; [exact Hc|]. intros Hb.
  apply blocked_cases in Hb.
  destruct Hb as [([-> | ->] & _)|[([-> | ->] & _)|(-> & _)]];
    cbn in Hok; unfold r_away in Hok; intuition congruence.
Qed.

Lemma readers_pos_elem : forall ts,
  0 < readers ts -> exists i c, ts !! i = Some c /\ reads c = 1.
Proof.
  induction ts as [|c r IH]; cbn; intros H; [lia|].
  pose proof (reads_range c).
  destruct (Z.eq_dec (reads c) 1) as [E|E].
  - exists 0%nat, c. split; [reflexivity|exact E].
  - destruct IH as (i & c' & Hi & Hc); [lia|].
    exists (S i), c'. split; assumption.
Qed.

(** While the event is unset, a thread can move or a reader holds the
    lock. *)
Lemma unset_event_progress n m ts :
  clients_inv n m ts -> live_inv m ts -> noReaders m = false ->
  (exists j, moves m ts j = true)
  \/ (exists j c, ts !! j = Some c /\ holds_side c = true).
Proof.
  intros Hinv [Hfree _] Hev.
  destruct (Z.eq_dec (cs_owner (readerCountLock m)) 0) as [Hr|Hr];
    [|left; eapply count_guard_owner_moves; eauto].
  pose proof (Hfree Hr Hev) as Hpos.
  rewrite (ci_count n m ts Hinv) in Hpos.
  destruct (readers_pos_elem ts Hpos) as (i & c & Hi & Hc).
  destruct c as [h|h p].
  - right. exists i, (Between h). split; [exact Hi|].
    destruct h; cbn in Hc; try lia; reflexivity.
  - left. exists i. eapply moves_unless_blocked; [exact Hi|]. intros Hb.
    apply blocked_cases in Hb.
    destruct Hb as [([-> | ->] & _)|[([-> | ->] & Hn)|(-> & _)]];
      destruct h; cbn in Hc; try lia; contradiction.
Qed.

Lemma waiting_progress n m ts i h p :
  clients_inv n m ts -> live_inv m ts ->
  ts !! i = Some (Inside h p) ->
  (exists j, moves m ts j = true)
  \/ (exists j c, ts !! j = Some c /\ holds_side c = true).
Proof.
  intros Hinv Hlive Hi.
  destruct (op_step (tid i) p m) eqn:Hop;
    try (left; exists i; eapply moves_unless_blocked;
         [exact Hi|rewrite Hop; discriminate]).
  apply blocked_cases in Hop.
  destruct Hop as [(_ & Hw & _)|[(_ & Hr)|(_ & Hev)]].
  - destruct (pi_wowner n m _ (ci_pool n m ts Hinv)) as [H0|(j & Hj & Ho)];
      [contradiction|].
    destruct (pool_lookup n m ts j Hinv Hj) as (c & Hc & Hok & Hcl).
    destruct c as [h'|h' p'].
    + destruct h'; cbn in Hcl; unfold w_away in Hcl; try contradiction.
      right. exists j, (Between Write). split; [exact Hc|reflexivity].
    + destruct (op_step (tid j) p' m) eqn:Hop';
        try (left; exists j; eapply moves_unless_blocked;
             [exact Hc|rewrite Hop'; discriminate]).
      apply blocked_cases in Hop'.
      destruct Hop' as [(_ & _ & Hne)|[(_ & Hr)|(_ & Hev)]].
      * contradiction.
      * left. eapply count_guard_owner_moves; eauto.
      * eapply unset_event_progress; eauto.
  - left. eapply count_guard_owner_moves; eauto.
  - eapply unset_event_progress; eauto.
Qed.

Lemma readers_zero_elem ts i c :
  readers ts = 0 -> ts !! i = Some c -> reads c = 0.
Proof.
  intros Hz Hi. pose proof (readers_others ts i c Hi).
  pose proof (reads_range c). lia.
Qed.

End RWClientsProofs.

(** X13.  The reader-writer lock used as intended: fewer than 2^31 threads,
    each calling rdlock or wrlock only when it holds nothing and unlock only
    when it holds a side.  Then, in every state that any interleaving can
    reach, no assertion has failed and no critical section was misused;
    [readerCount] is the number of threads counted as readers (from their
    increment in rdlock to their decrement in unlock); while a thread holds
    the write side, [writer] is its id, the count is 0 and no thread holds
    the read side; and a writer stores its id only when the count is 0, that
    is after every reader has unlocked. *)
Theorem rwlock_excludes_readers_and_writer (n : nat) (s : RWClients.csys) :
  Z.of_nat n < 2 ^ 31 -> RWClients.reachable n s ->
  match s with
  | RWClients.CDead => False
  | RWClients.CLive m ts =>
      RW.readerCount m = RWClients.readers ts
      /\ (forall j, ts !! j = Some (RWClients.Between RWClients.Write) ->
            RW.writer m = tid j /\ RW.readerCount m = 0
            /\ forall i c, ts !! i = Some c -> RWClients.reads c = 0)
      /\ (forall i, ts !! i = Some (RWClients.Between RWClients.Read) ->
            forall j, ts !! j <> Some (RWClients.Between RWClients.Write))
      /\ (forall j, ts !! j = Some (RWClients.Inside RWClients.Nothing
                                      (RW.P_wrlock RW.WR_store)) ->
            RW.readerCount m = 0)
  end.
Proof.
  intros Hn Hreach.
  pose proof (RWClientsProofs.clients_reachable n s Hn Hreach) as Hinv.
  destruct s as [m ts|]; [|exact Hinv].
  destruct Hinv as [Hpool Hcount Hcl].
  split; [exact Hcount|]. split; [|split].
  - intros j Hj. pose proof (Hcl j _ Hj) as Hok. cbn in Hok.
    destruct Hok as ((_ & Hw) & Hz).
    split; [exact Hw|]. split; [exact Hz|].
    intros i c Hi. rewrite Hcount in Hz.
    exact (RWClientsProofs.readers_zero_elem ts i c Hz Hi).
  - intros i Hi j Hj. pose proof (Hcl j _ Hj) as Hok. cbn in Hok.
    destruct Hok as (_ & Hz). rewrite Hcount in Hz.
    pose proof (RWClientsProofs.readers_zero_elem ts i _ Hz Hi) as H.
    cbn in H. lia.
  - intros j Hj. pose proof (Hcl j _ Hj) as Hok. cbn in Hok. apply Hok.
Qed.

Lemma rwlock_excludes_readers_and_writer_witness :
  exists m ts,
    RWClients.run_schedule RWClients.two_readers_one_writer (RWClients.init_sys 3)
    = Some (RWClients.CLive m ts)
    /\ ts !! 2%nat = Some (RWClients.Between RWClients.Write)
    /\ RW.writer m = tid 2 /\ RW.readerCount m = 0.
Proof.
  assert (Z.of_nat 3 < 2 ^ 31) as Hn by (vm_compute; reflexivity).
  destruct (RWClients.run_schedule RWClients.two_readers_one_writer
              (RWClients.init_sys 3)) as [[m ts|]|] eqn:Hrun;
    try (vm_compute in Hrun; discriminate).
  pose proof (rwlock_excludes_readers_and_writer 3 (RWClients.CLive m ts) Hn
                (RWClientsProofs.clients_schedule_reachable 3 _ _ _
                   (RWClients.reach_init 3) Hrun)) as (_ & Hw & _).
  exists m, ts. vm_compute in Hrun. injection Hrun as <- <-.
  split; [reflexivity|]. split; [reflexivity|].
  destruct (Hw 2%nat eq_refl) as (H1 & H2 & _). split; assumption.
Defined.

(** X14.  The reader-writer lock used as intended never leaves everybody
    waiting for nothing: in every state that any interleaving can reach,
    when some thread is inside rdlock, wrlock or unlock, then a thread
    inside a call can take its next case, or some thread holds a side of
    the lock between two calls (and may call unlock). *)
Theorem rwlock_waits_only_for_a_holder (n : nat) (s : RWClients.csys) :
  Z.of_nat n < 2 ^ 31 -> RWClients.reachable n s ->
  match s with
  | RWClients.CDead => False
  | RWClients.CLive m ts =>
      forall i h p, ts !! i = Some (RWClients.Inside h p) ->
        (exists j, RWClients.moves m ts j = true)
        \/ (exists j c, ts !! j = Some c /\ RWClients.holds_side c = true)
  end.
Proof.
  intros Hn Hreach.
  pose proof (RWClientsProofs.live_reachable n s Hn Hreach) as Hinv.
  destruct s as [m ts|]; [|exact Hinv].
  destruct Hinv as [Hc Hl]. intros i h p Hi.
  exact (RWClientsProofs.waiting_progress n m ts i h p Hc Hl Hi).
Qed.

Lemma rwlock_waits_only_for_a_holder_witness :
  exists m ts,
    RWClients.run_schedule RWClients.reader_holds_others_wait
      (RWClients.init_sys 3) = Some (RWClients.CLive m ts)
    /\ ts !! 1%nat = Some (RWClients.Inside RWClients.Nothing
                             (RW.P_wrlock RW.WR_wait))
    /\ RWClients.moves m ts 0 = false
    /\ RWClients.moves m ts 1 = false
    /\ RWClients.moves m ts 2 = false
    /\ ((exists j, RWClients.moves m ts j = true)
        \/ (exists j c, ts !! j = Some c /\ RWClients.holds_side c = true)).
Proof.
  assert (Z.of_nat 3 < 2 ^ 31) as Hn by (vm_compute; reflexivity).
  destruct (RWClients.run_schedule RWClients.reader_holds_others_wait
              (RWClients.init_sys 3)) as [[m ts|]|] eqn:Hrun;
    try (vm_compute in Hrun; discriminate).
  pose proof (rwlock_waits_only_for_a_holder 3 (RWClients.CLive m ts) Hn
                (RWClientsProofs.clients_schedule_reachable 3 _ _ _
                   (RWClients.reach_init 3) Hrun)) as Hp.
  exists m, ts. vm_compute in Hrun. injection Hrun as <- <-.
  split; [reflexivity|]. split; [reflexivity|].
  split; [reflexivity|]. split; [reflexivity|]. split; [reflexivity|].
  exact (Hp 1%nat _ _ eq_refl).
Defined.
